(** * CarCheckerAI: a shallow embedding of the review/spec pipeline

    The development follows [CarCheckerAI/CarCheckerAI.py] (and the legacy
    [CarCheckerAI/scrape_search_and_summarize.py], which carries an identical
    [chunk_text]).  Python strings are lists of Unicode code points, Python
    integers are [Z], dictionaries are finite maps from string keys, and the
    two external services (the search/scrape client and the completion
    client) are an interface the pipeline is parameterised over. *)

From Stdlib Require Import ZArith Lia Ascii String.
From stdpp Require Import gmap strings list fin_maps.

Set Warnings "-register-all".
Local Open Scope Z_scope.

(** ** Text: Python [str] as a list of code points *)

Module Text.

Definition char := N.
Definition str := list char.

(** A source literal (the literals of the program are all ASCII). *)
Definition lit (s : string) : str :=
  map N_of_ascii (list_ascii_of_string s).

(** [len(t)], for a [str] or a [list]. *)
Definition len {A} (t : list A) : Z := Z.of_nat (length t).

(** Truth value of a string: [bool(t)]. *)
Definition nonempty (t : str) : bool :=
  match t with [] => false | _ => true end.

(** The code points [str.strip()] removes (those for which CPython's
    [Py_UNICODE_ISSPACE] holds). *)
Definition isspace (c : char) : bool :=
  ((9 <=? c) && (c <=? 13) || (28 <=? c) && (c <=? 32)
   || (c =? 133) || (c =? 160) || (c =? 5760)
   || (8192 <=? c) && (c <=? 8202)
   || (c =? 8232) || (c =? 8233) || (c =? 8239) || (c =? 8287)
   || (c =? 12288))%N.

Fixpoint lstrip (t : str) : str :=
  match t with
  | [] => []
  | c :: t' => if isspace c then lstrip t' else t
  end.

Definition rstrip (t : str) : str := rev (lstrip (rev t)).

Definition strip (t : str) : str := rstrip (lstrip t).

(** Python slice bounds: a negative index counts from the end, and the
    result is clamped to [0, n]. *)
Definition slice_index (n i : Z) : Z :=
  let i' := if i <? 0 then i + n else i in
  Z.max 0 (Z.min n i').

(** [t[lo:hi]] on a sequence (a [str] or a [list]), either bound possibly
    omitted. *)
Definition slice {A} (t : list A) (lo hi : option Z) : list A :=
  let n := Z.of_nat (length t) in
  let a := match lo with None => 0 | Some i => slice_index n i end in
  let b := match hi with None => n | Some j => slice_index n j end in
  take (Z.to_nat (b - a)) (drop (Z.to_nat a) t).

Fixpoint startswith (needle hay : str) : bool :=
  match needle, hay with
  | [], _ => true
  | _ :: _, [] => false
  | n :: needle', h :: hay' => (n =? h)%N && startswith needle' hay'
  end.

(** [hay.rfind(needle)] as the highest index, counted from [i] at the head
    of [hay]; [-1] when there is none. *)
Fixpoint rfind_from (i : Z) (hay needle : str) : Z :=
  match hay with
  | [] => if startswith needle [] then i else -1
  | _ :: hay' =>
      let r := rfind_from (i + 1) hay' needle in
      if 0 <=? r then r
      else if startswith needle hay then i else -1
  end.

Definition rfind (hay needle : str) : Z := rfind_from 0 hay needle.

(** [needle in hay]. *)
Fixpoint contains (hay needle : str) : bool :=
  startswith needle hay
  || match hay with [] => false | _ :: hay' => contains hay' needle end.

Definition nl : str := [10%N].

(** [sep.join(parts)]. *)
Fixpoint join (sep : str) (parts : list str) : str :=
  match parts with
  | [] => []
  | [p] => p
  | p :: parts' => p ++ sep ++ join sep parts'
  end.

End Text.

Import Text.

(** [t[:hi]] and [t[lo:]]. *)
Definition slice_to {A} (t : list A) (hi : Z) : list A := slice t None (Some hi).
Definition slice_from {A} (t : list A) (lo : Z) : list A := slice t (Some lo) None.

(** ** The single-request compressor and the chunker *)

Definition sep_start : str := nl ++ nl ++ lit "--START--" ++ nl ++ nl.
Definition sep_middle : str := nl ++ nl ++ lit "--MIDDLE--" ++ nl ++ nl.
Definition sep_end : str := nl ++ nl ++ lit "--END--" ++ nl ++ nl.

(** The three separators together: 13 + 14 + 11 characters. *)
Definition separator_overhead : Z := len sep_start + len sep_middle + len sep_end.

(** [CarCheckerAI.py], [_compress_for_single_request]. *)
Definition _compress_for_single_request (text : str) (max_chars : Z) : str :=
  if negb (nonempty text) then []
  else
    let text := strip text in
    if len text <=? max_chars then text
    else
      let part := max_chars / 3 in
      let start := slice_to text part in
      let middle_index := len text / 2 in
      let middle :=
        slice text (Some (middle_index - part / 2)) (Some (middle_index + part / 2)) in
      let end_ := slice_from text (- part) in
      sep_start ++ start ++ sep_middle ++ middle ++ sep_end ++ end_.

(** The body of the [while text:] loop of [chunk_text]: one chunk is cut
    from the front and the remainder is left-stripped. *)
Definition chunk_step (text : str) (max_chars : Z) : str * str :=
  let chunk := slice_to text max_chars in
  let cut := rfind chunk (nl ++ nl) in
  let chunk := if max_chars / 2 <? cut then slice_to text cut else chunk in
  (strip chunk, lstrip (slice_from text (len chunk))).

(** The loop itself.  Python's [while] has no bound, so the iteration count
    is supplied as fuel; [None] means the fuel ran out with text left. *)
Fixpoint chunk_loop (fuel : nat) (text : str) (max_chars : Z)
    (chunks : list str) : option (list str) :=
  if negb (nonempty text) then Some chunks
  else
    match fuel with
    | O => None
    | S fuel' =>
        let '(chunk, rest) := chunk_step text max_chars in
        chunk_loop fuel' rest max_chars (chunks ++ [chunk])
    end.

(** [chunk_text], the same in both source files. *)
Definition chunk_text (fuel : nat) (text : str) (max_chars : Z)
    : option (list str) :=
  let text := strip text in
  if negb (nonempty text) then Some []
  else chunk_loop fuel text max_chars [].

(** ** Python values, exceptions and the response normaliser *)

(** The values a search backend can hand back.  An object carries a truth
    value, its data attributes, and the two dump methods the program probes
    for: [None] when the attribute is absent, [Some None] when calling it
    raises, [Some (Some v)] when it returns [v].  Built-in values have none
    of the attributes the program asks for ([markdown], [url], [sourceURL],
    [metadata], [web], [model_dump], [dict] and the like). *)
Inductive pyval :=
| PNone
| PBool (b : bool)
| PInt (z : Z)
| PStr (s : str)
| PList (l : list pyval)
| PDict (d : gmap string pyval)
| PObj (truth : bool) (attrs : gmap string pyval)
       (model_dump dict_method : option (option pyval)).

Inductive exn :=
| AttributeError
| TypeError
| NameError
| BackendError (msg : str).

Inductive result (A : Type) :=
| Ok (a : A)
| Raise (e : exn).
Arguments Ok {A} a.
Arguments Raise {A} e.

Definition is_ok {A} (r : result A) : bool :=
  match r with Ok _ => true | Raise _ => false end.

(** [bool(v)]. *)
Definition truthy (v : pyval) : bool :=
  match v with
  | PNone => false
  | PBool b => b
  | PInt z => negb (z =? 0)
  | PStr s => nonempty s
  | PList l => match l with [] => false | _ => true end
  | PDict d => negb (bool_decide (d = ∅))
  | PObj truth _ _ _ => truth
  end.

(** [a or b]: the right operand is only consulted when the left one is
    falsy, and an exception on either side propagates. *)
Definition por (a b : result pyval) : result pyval :=
  match a with
  | Ok v => if truthy v then Ok v else b
  | Raise e => Raise e
  end.
Infix "|or|" := por (at level 51, left associativity).

(** [r.get(key, default)]: only dictionaries have the method. *)
Definition get_ (r : result pyval) (key : string) (default : pyval) : result pyval :=
  match r with
  | Ok (PDict d) => Ok (match d !! key with Some v => v | None => default end)
  | Ok _ => Raise AttributeError
  | Raise e => Raise e
  end.

(** The data attribute [name] of [v], when [hasattr(v, name)]. *)
Definition attribute (v : pyval) (name : string) : option pyval :=
  match v with
  | PObj _ attrs _ _ => attrs !! name
  | _ => None
  end.

(** [getattr(v, name, default)]. *)
Definition getattr (v : pyval) (name : string) (default : pyval) : pyval :=
  match attribute v name with
  | Some a => a
  | None => default
  end.

Definition has_dump_method (v : pyval) : bool :=
  match v with
  | PObj _ _ (Some _) _ | PObj _ _ _ (Some _) => true
  | _ => false
  end.

Definition isinstance_dict (v : pyval) : bool :=
  match v with PDict _ => true | _ => false end.

Definition empty_dict : pyval := PDict ∅.
Definition empty_str : pyval := PStr [].

(** [CarCheckerAI.py], [_model_to_dict]. *)
Definition _model_to_dict (obj : pyval) : pyval :=
  if negb (truthy obj) then empty_dict
  else
    match obj with
    | PObj _ _ (Some (Some v)) _ => v
    | PObj _ _ _ (Some (Some v)) => v
    | _ => empty_dict
    end.

(** [CarCheckerAI.py], [safe_get_markdown]. *)
Definition safe_get_markdown (item : pyval) : result pyval :=
  if negb (truthy item) then Ok empty_str
  else if isinstance_dict item then
    get_ (Ok item) "markdown" PNone
    |or| get_ (get_ (Ok item) "data" PNone |or| Ok empty_dict) "markdown" empty_str
    |or| Ok empty_str
  else
    let md := getattr item "markdown" PNone in
    match md with
    | PStr _ => Ok md
    | _ =>
        if has_dump_method item then
          let d := _model_to_dict item in
          get_ (Ok d) "markdown" PNone
          |or| get_ (get_ (Ok d) "data" PNone |or| Ok empty_dict) "markdown" empty_str
          |or| Ok empty_str
        else Ok empty_str
    end.

(** [CarCheckerAI.py], [safe_get_url]. *)
Definition safe_get_url (item : pyval) : result pyval :=
  if negb (truthy item) then Ok PNone
  else if isinstance_dict item then
    get_ (Ok item) "url" PNone
    |or| get_ (Ok item) "sourceURL" PNone
    |or| get_ (get_ (Ok item) "metadata" PNone |or| Ok empty_dict) "sourceURL" PNone
    |or| get_ (get_ (Ok item) "metadata" PNone |or| Ok empty_dict) "url" PNone
    |or| get_ (get_ (Ok item) "metadata" PNone |or| Ok empty_dict) "source_url" PNone
  else
    match Ok (getattr item "url" PNone) |or| Ok (getattr item "sourceURL" PNone) with
    | Raise e => Raise e
    | Ok url =>
        if truthy url then Ok url
        else
          let md := getattr item "metadata" PNone in
          if truthy md then
            Ok (getattr md "source_url" PNone)
            |or| Ok (getattr md "sourceURL" PNone)
            |or| Ok (getattr md "url" PNone)
            |or| Ok (getattr md "og_url" PNone)
          else if has_dump_method item then
            let d := _model_to_dict item in
            get_ (Ok d) "url" PNone
            |or| get_ (Ok d) "sourceURL" PNone
            |or| get_ (get_ (Ok d) "metadata" PNone |or| Ok empty_dict) "sourceURL" PNone
            |or| get_ (get_ (Ok d) "metadata" PNone |or| Ok empty_dict) "url" PNone
            |or| get_ (get_ (Ok d) "metadata" PNone |or| Ok empty_dict) "source_url" PNone
          else Ok PNone
    end.

(** [scrape_search_and_summarize.py], [safe_get_markdown]: the legacy
    variant, which looks at the [data] entry only when it is a dictionary. *)
Module Legacy.

Definition safe_get_markdown (item : pyval) : result pyval :=
  if negb (truthy item) then Ok empty_str
  else
    match item with
    | PDict d =>
        match d !! "markdown" with
        | Some (PStr s) => Ok (PStr s)
        | _ =>
            match d !! "data" with
            | Some (PDict _ as data) => get_ (Ok data) "markdown" empty_str |or| Ok empty_str
            | _ => get_ (Ok item) "markdown" empty_str |or| Ok empty_str
            end
        end
    | _ => Ok empty_str
    end.

End Legacy.

(** [CarCheckerAI.py], [normalize_results].  The last branch is the body of
    the [try]; any exception in it gives the empty list. *)
Definition normalize_results (results : pyval) : pyval :=
  match results with
  | PList _ => results
  | PDict _ =>
      match get_ (Ok results) "data" PNone |or| get_ (Ok results) "web" PNone
            |or| Ok results with
      | Ok items => items
      | Raise _ => PList []
      end
  | _ =>
      match attribute results "web" with
      | Some web => if truthy web then web else PList []
      | None =>
          let d := _model_to_dict results in
          match get_ (Ok d) "data" PNone |or| get_ (Ok d) "web" PNone
                |or| Ok (PList []) with
          | Ok items => items
          | Raise _ => PList []
          end
      end
  end.


(** ** The external collaborators and the world the pipeline runs in *)

(** What [generate_content] returns: the [text] attribute when the object
    has one (a string, or [None] when the model produced no text), and the
    object's [repr]. *)
Record response := { resp_text : option (option str); resp_repr : str }.

(** [getattr(resp, "text", repr(resp))]. *)
Definition text_of (resp : response) : pyval :=
  match resp_text resp with
  | Some (Some s) => PStr s
  | Some None => PNone
  | None => PStr (resp_repr resp)
  end.

(** The services and library functions the program calls but does not
    define.  [B] is the state of the outside world; a service call may fail,
    which the program does not catch.  [json_loads] is [None] where
    [json.loads] raises; [json_dumps] is [json.dumps(_, indent=2)], which
    the program applies to a decoded value or to the [raw] wrapper of a
    reply text only; [py_repr] is [repr]; [dedent] is [textwrap.dedent]. *)
Class Externals (B : Type) := {
  firecrawl_search : B → str → Z → gmap string pyval → result pyval * B;
  generate_content : B → str → str → result response * B;
  json_loads : pyval → option pyval;
  json_dumps : pyval → str;
  py_repr : pyval → str;
  dedent : str → str;
}.

(** The three places a completion call is issued from. *)
Inductive call_site := DocSummary | SpecExtraction | FinalSynthesis.

Global Instance call_site_eq_dec : EqDecision call_site.
Proof. solve_decision. Defined.

Inductive event :=
| EvPrint (line : str)
| EvSearch (query : str) (limit : Z) (scrape_options : gmap string pyval)
| EvGenerate (site : call_site) (prompt : str).

Definition loc := positive.

(** The module-level dictionary [DEFAULT_SCRAPE_OPTS] lives at a fixed
    address; [dict.copy()] allocates. *)
Definition DEFAULT_SCRAPE_OPTS : loc := 1%positive.

Definition DEFAULT_SCRAPE_OPTS_value : gmap string pyval :=
  <["formats" := PList [PStr (lit "markdown"); PStr (lit "links")]]>
  (<["only_main_content" := PBool true]>
  (<["timeout" := PInt 120000]>
  (<["location" := PDict {[ "languages" := PList [PStr (lit "en")] ]}]>
  (<["parsers" := PList []]> ∅)))).

Record world (B : Type) := World {
  outside : B;
  heap : gmap loc (gmap string pyval);
  trace : list event;
}.
Arguments World {B} _ _ _.
Arguments outside {B} _.
Arguments heap {B} _.
Arguments trace {B} _.

Definition initial_world {B} (b : B) : world B :=
  World b {[ DEFAULT_SCRAPE_OPTS := DEFAULT_SCRAPE_OPTS_value ]} [].

(** How many completion calls of a given kind a trace holds. *)
Fixpoint count_calls (site : call_site) (tr : list event) : nat :=
  match tr with
  | [] => O
  | EvGenerate s _ :: tr' =>
      if decide (s = site) then S (count_calls site tr') else count_calls site tr'
  | _ :: tr' => count_calls site tr'
  end.

(** One entry of the returned [summaries] list. *)
Record summary := Summary { s_url : pyval; s_summary : pyval }.

(** A computation that may raise and that changes the world; the world
    survives an exception. *)
Definition M (B A : Type) : Type := world B → result A * world B.

Definition ret {B A} (a : A) : M B A := λ w, (Ok a, w).

Definition raise {B A} (e : exn) : M B A := λ w, (Raise e, w).

Definition bind {B A C} (m : M B A) (k : A → M B C) : M B C :=
  λ w, match m w with
       | (Ok a, w') => k a w'
       | (Raise e, w') => (Raise e, w')
       end.

Definition lift {B A} (r : result A) : M B A := λ w, (r, w).

Notation "'let!' x ':=' m 'in' k" := (bind m (λ x, k))
  (at level 10, x pattern, m at level 100, k at level 200).

Section Pipeline.

Context {B : Type} `{E : Externals B}.

Definition emit (ev : event) : M B unit :=
  λ w, (Ok (), World (outside w) (heap w) (trace w ++ [ev])).

Definition print (line : str) : M B unit := emit (EvPrint line).

(** [d.copy()] on the dictionary stored at [l]. *)
Definition dict_copy (l : loc) : M B loc :=
  λ w, match heap w !! l with
       | Some d =>
           let l' := fresh (dom (heap w)) in
           (Ok l', World (outside w) (<[l' := d]> (heap w)) (trace w))
       | None => (Raise NameError, w)
       end.

(** [d.update(other)] on the dictionary stored at [l]: the entries of
    [other] win. *)
Definition dict_update (l : loc) (other : gmap string pyval) : M B unit :=
  λ w, match heap w !! l with
       | Some d => (Ok (), World (outside w) (<[l := other ∪ d]> (heap w)) (trace w))
       | None => (Raise NameError, w)
       end.

(** [firecrawl.search(query=..., limit=..., scrape_options=opts)]. *)
Definition search (query : str) (limit : Z) (opts : loc) : M B pyval :=
  λ w, match heap w !! opts with
       | Some d =>
           let '(r, b) := firecrawl_search (outside w) query limit d in
           (r, World b (heap w) (trace w ++ [EvSearch query limit d]))
       | None => (Raise NameError, w)
       end.

Definition model_name : str := lit "gemini-2.5-flash".

(** [genai_client.models.generate_content(model=..., contents=prompt)]. *)
Definition generate (site : call_site) (prompt : str) : M B response :=
  λ w, let '(r, b) := generate_content (outside w) model_name prompt in
       (r, World b (heap w) (trace w ++ [EvGenerate site prompt])).

(** What an f-string writes for [{v}]. *)
Definition fmt (v : pyval) : str :=
  match v with
  | PStr s => s
  | _ => py_repr v
  end.

(** The prompt of [summarize_document]. *)
Definition document_prompt (payload_text : str) (url : pyval) : str :=
  strip (dedent (lit "
    Produce a concise summary of the following document in 2 short paragraphs (2-5 sentences each).
    Focus on: main drawbacks, common mechanical issues (mention relative frequency if present), and main positives.
    End with a single-line source attribution exactly as: Source: " ++ fmt url ++ lit "

    Document:
    " ++ payload_text ++ lit "
    ")).

(** The call [_compress_for_single_request(md_text, max_chars=...)] on a
    value that need not be a string: a truthy value of another type has no
    [strip]. *)
Definition compress_value (md_text : pyval) (max_chars : Z) : result str :=
  match md_text with
  | PStr s => Ok (_compress_for_single_request s max_chars)
  | _ => if truthy md_text then Raise AttributeError else Ok []
  end.

(** [CarCheckerAI.py], [summarize_document]. *)
Definition summarize_document (md_text url : pyval) : M B pyval :=
  if negb (truthy md_text) then ret PNone
  else
    let! payload_text := lift (compress_value md_text 20000) in
    let prompt := document_prompt payload_text url in
    let! resp := generate DocSummary prompt in
    ret (text_of resp).

Definition quote : str := [34%N].

(** One line of the example object in the extraction prompt. *)
Definition example_field (name : string) (comma : bool) : str :=
  lit "        " ++ quote ++ lit name ++ quote ++ lit ": "
  ++ quote ++ lit "..." ++ quote ++ (if comma then lit "," else []) ++ nl.

(** The prompt of [extract_specs_from_docs]. *)
Definition specs_prompt (combined : str) : str :=
  strip (dedent (lit "
    You are given several specification documents for a car. For each document, extract the following fields if present:
    - brand
    - model
    - year_range
    - engine_type_and_displacement
    - horsepower
    - torque
    - fuel_economy
    - acceleration
    - top_speed
    - notable_features (comma separated list)

    Output a JSON array with one object per source in the same order. Each object must include "
    ++ quote ++ lit "source_url" ++ quote
    ++ lit " and the fields above (use null for missing fields). Example:
    [
      {
" ++ example_field "source_url" true
    ++ example_field "brand" true
    ++ example_field "model" true
    ++ example_field "year_range" true
    ++ example_field "engine_type_and_displacement" true
    ++ example_field "horsepower" true
    ++ example_field "torque" true
    ++ example_field "fuel_economy" true
    ++ example_field "acceleration" true
    ++ example_field "top_speed" true
    ++ example_field "notable_features" false
    ++ lit "      },
      ...
    ]

    Documents:
    " ++ combined ++ lit "
    ")).

(** The [combined] text of [extract_specs_from_docs]: every document under
    its [URL:] header, with [---] between documents. *)
Definition combined_specs (specs_texts urls : list pyval) : str :=
  join (nl ++ nl ++ lit "---" ++ nl ++ nl)
       (map (λ ut, lit "URL: " ++ fmt ut.1 ++ nl ++ nl ++ fmt ut.2)
            (zip urls specs_texts)).

(** [CarCheckerAI.py], [extract_specs_from_docs]. *)
Definition extract_specs_from_docs (specs_texts urls : list pyval) : M B pyval :=
  let combined := combined_specs specs_texts urls in
  let prompt := specs_prompt combined in
  let! resp := generate SpecExtraction prompt in
  let text := text_of resp in
  match json_loads text with
  | Some parsed => ret parsed
  | None => ret (PDict {[ "raw" := text ]})
  end.

(** [for item in v]: the sequence a value iterates as.  A dictionary yields
    its keys (each a string, which the loops below pass over, so their order
    is not observable); a string yields its characters. *)
Definition iterate (v : pyval) : result (list pyval) :=
  match v with
  | PList l => Ok l
  | PStr s => Ok (map (λ c, PStr [c]) s)
  | PDict d => Ok (map (λ kv, PStr (lit kv.1)) (map_to_list d))
  | _ => Raise TypeError
  end.

(** [v[:hi]].  (A dictionary rejects a slice as a key: [TypeError], or
    [KeyError] from Python 3.12 on.) *)
Definition slice_value (v : pyval) (hi : Z) : result pyval :=
  match v with
  | PList l => Ok (PList (slice_to l hi))
  | PStr s => Ok (PStr (slice_to s hi))
  | _ => Raise TypeError
  end.

(** The per-document loop of [search_and_summarize]. *)
Fixpoint review_loop (doc_limit : Z) (items : list pyval)
    (summaries : list summary) : M B (list summary) :=
  match items with
  | [] => ret summaries
  | item :: items' =>
      if doc_limit <=? len summaries then ret summaries
      else
        let! url := lift (safe_get_url item) in
        let! md := lift (safe_get_markdown item) in
        if negb (truthy md) then review_loop doc_limit items' summaries
        else
          let! doc_summary := summarize_document md url in
          if truthy doc_summary then
            review_loop doc_limit items' (summaries ++ [Summary url doc_summary])
          else review_loop doc_limit items' summaries
  end.

(** The loop over the spec results of [search_and_summarize]. *)
Fixpoint specs_loop (items : list pyval) (specs_texts specs_urls : list pyval)
    : M B (list pyval * list pyval) :=
  match items with
  | [] => ret (specs_texts, specs_urls)
  | s :: items' =>
      let! url := lift (safe_get_url s) in
      let! md := lift (safe_get_markdown s) in
      if truthy md then
        specs_loop items' (specs_texts ++ [md])
                   (specs_urls ++ [if truthy url then url else PStr (lit "unknown")])
      else specs_loop items' specs_texts specs_urls
  end.

(** The prompt of the final synthesis call. *)
Definition final_prompt (car_label combined_summaries specsDoc : str) : str :=
  strip (dedent (lit "
    Using the following per-document summaries and the extracted specification data, produce a 2-3 paragraph concise summary of "
    ++ car_label ++ lit " reviews.
    Focus on: main drawbacks, common mechanical issues (with frequency), and main positives.
    Structure the response exactly as follows:

    Brand: [Car Brand]
    Model: [Car Model]
    Year: [Car Year range]

    Specifications:
    [list of main specifications from spec sheets: engine type and displacement, horsepower, torque, fuel economy, acceleration, top speed, notable features]

    General Overview:
    [Overview paragraph]
    Key Takeaways:
    - [takeaway 1]
    - [takeaway 2]

    Main Issues and Drawbacks:
    [Issues paragraph]
    Key Takeaways:
    - [takeaway 1]
    - [takeaway 2]

    Main Positives:
    [Positives paragraph]
    Key Takeaways:
    - [takeaway 1]
    - [takeaway 2]

    TLDR:
    [2-4 sentence summary]

    Sources:
    [list of source URLs supporting major points]

    Documents:
    " ++ combined_summaries ++ lit "

    Extracted Specifications (JSON):
    " ++ specsDoc ++ lit "
    ")).

(** The first statement of [search_and_summarize]: the options handed to
    the search client are a copy of the defaults, updated with the caller's
    overrides when there are any. *)
Definition merged_scrape_options (scrape_options : option (gmap string pyval))
    : M B loc :=
  match scrape_options with
  | Some overrides =>
      if truthy (PDict overrides) then
        let! opts := dict_copy DEFAULT_SCRAPE_OPTS in
        let! _ := dict_update opts overrides in
        ret opts
      else dict_copy DEFAULT_SCRAPE_OPTS
  | None => dict_copy DEFAULT_SCRAPE_OPTS
  end.

(** [CarCheckerAI.py], [search_and_summarize]. *)
Definition search_and_summarize (querySearch querySpecs : str)
    (searchLimit specLimit : Z) (scrape_options : option (gmap string pyval))
    (max_genai_calls : Z) (car_type : option str) : M B (pyval * list summary) :=
  let! _ := print (lit "Running") in
  let! opts := merged_scrape_options scrape_options in
  let allowed_doc_calls := Z.max 0 (max_genai_calls - 2) in
  let doc_limit := Z.min searchLimit allowed_doc_calls in
  let! results := search querySearch doc_limit opts in
  let! resultsSpecs := search querySpecs specLimit opts in
  let items := normalize_results results in
  let SpecsItems := normalize_results resultsSpecs in
  let! _ := print (lit "FireCrawl done") in
  let items :=
    match items with
    | PDict d => match d !! "web" with Some web => web | None => items end
    | _ => items
    end in
  let! items_seq := lift (iterate items) in
  let! summaries := review_loop doc_limit items_seq [] in
  let! spec_slice := lift (slice_value SpecsItems specLimit) in
  let! spec_seq := lift (iterate spec_slice) in
  let! specs := specs_loop spec_seq [] [] in
  let specs_texts := specs.1 in
  let specs_urls := specs.2 in
  let! specs_structured :=
    match specs_texts with
    | [] => ret (PList [])
    | _ => extract_specs_from_docs specs_texts specs_urls
    end in
  let combined_summaries :=
    join (nl ++ nl)
         (map (λ s, lit "From " ++ fmt (s_url s) ++ lit ":" ++ nl ++ fmt (s_summary s))
              summaries) in
  let specsDoc :=
    match specs_texts with
    | [] => lit "No specs found."
    | _ => json_dumps specs_structured
    end in
  let car_label :=
    match car_type with
    | Some c => if nonempty c then c else querySearch
    | None => querySearch
    end in
  let! _ := print (lit "Summaries done, writing report") in
  let! resp := generate FinalSynthesis (final_prompt car_label combined_summaries specsDoc) in
  ret (text_of resp, summaries).

End Pipeline.

(** ** Sample inputs *)

Definition a_str : str := lit "x".
Definition alphabet : str := lit "abcdefghijklmnopqrstuvwxyz".
Definition two_paragraphs : str := lit "aaaa" ++ nl ++ nl ++ lit "bbbb cc".

(** Results the normaliser is tried on. *)
Definition item_data_not_dict : pyval := PDict {[ "data" := PStr a_str ]}.
Definition item_metadata_not_dict : pyval := PDict {[ "metadata" := PStr a_str ]}.
Definition item_nested_url : gmap string pyval :=
  <["url" := PStr []]> {[ "metadata" := PDict {[ "url" := PStr a_str ]} ]}.

(** ** The URL precedence, in the specification's words

    The candidates of a dict-shaped item are its [url], its [sourceURL], and
    the [sourceURL], [url] and [source_url] of its nested [metadata], in that
    order; the first non-empty one wins, otherwise the result is null. *)

Definition spec_field (d : gmap string pyval) (key : string) : pyval :=
  match d !! key with Some v => v | None => PNone end.

Definition spec_metadata (d : gmap string pyval) : gmap string pyval :=
  match d !! "metadata" with Some (PDict m) => m | _ => ∅ end.


Fixpoint first_nonempty (candidates : list pyval) : option pyval :=
  match candidates with
  | [] => None
  | c :: candidates' => if truthy c then Some c else first_nonempty candidates'
  end.


(** The [metadata] entry of a dict-shaped item is absent, falsy, or itself a
    dictionary. *)
Definition metadata_is_dict_or_falsy (d : gmap string pyval) : bool :=
  match d !! "metadata" with
  | None => true
  | Some v => negb (truthy v) || isinstance_dict v
  end.


(** ** Scripted collaborators for the sample runs

    A search backend that answers the review query with [reviews] and every
    other query with [specs], and a completion backend that answers every
    prompt with [reply].  The decoder stands in for [json.loads] on the two
    texts the runs use: [[]] decodes to the empty list, anything else is
    rejected. *)

Definition review_query : str := lit "porsche cayman 2007 buy guide".
Definition specs_query : str := lit "porsche cayman 2007 spec sheet carfolio".

Definition doc (url markdown : string) : pyval :=
  PDict (<["url" := PStr (lit url)]> {[ "markdown" := PStr (lit markdown) ]}).

Definition three_reviews : pyval :=
  PList [ doc "https://a.example/1" "Solid chassis, IMS bearing worries.";
          doc "https://a.example/2" "Great steering; rear main seal leaks.";
          doc "https://a.example/3" "Reliable if serviced; coolant pipes." ].

Definition one_spec : pyval :=
  PList [ doc "https://s.example/1" "Engine 2.7 flat six, 245 hp." ].

Definition scripted (reviews specs : pyval) (reply : str) : Externals unit :=
  {| firecrawl_search _ query _ _ :=
       (Ok (if bool_decide (query = review_query) then reviews else specs), tt);
     generate_content _ _ _ :=
       (Ok {| resp_text := Some (Some reply); resp_repr := lit "<response>" |}, tt);
     json_loads v :=
       match v with
       | PStr s => if bool_decide (s = lit "[]") then Some (PList []) else None
       | _ => None
       end;
     json_dumps _ := lit "<json>";
     py_repr _ := lit "<repr>";
     dedent s := s |}.

Definition not_json : str := lit "not json".

(** ** Conditions on search results

    An item is usable when its URL lookup has a result and its markdown is a
    string or falsy: nothing in the loops raises on it. *)

Definition usable_item (item : pyval) : bool :=
  is_ok (safe_get_url item)
  && match safe_get_markdown item with
     | Ok (PStr _) => true
     | Ok md => negb (truthy md)
     | Raise _ => false
     end.

Definition has_markdown (item : pyval) : bool :=
  match safe_get_markdown item with
  | Ok md => truthy md
  | Raise _ => false
  end.

(** The number of items a document summary is asked for. *)
Fixpoint count_markdown (items : list pyval) : nat :=
  match items with
  | [] => O
  | item :: items' =>
      if has_markdown item then S (count_markdown items') else count_markdown items'
  end.

(** A search result that is a plain list of usable items. *)
Definition usable_results (r : result pyval) : bool :=
  match r with
  | Ok (PList items) => forallb usable_item items
  | _ => false
  end.

(** ** Reasoning about runs *)

(** [m], run from [w], returns normally, with a value and a world that
    satisfy [Q]. *)
Definition returns {B A} (m : M B A) (w : world B) (Q : A → world B → Prop) : Prop :=
  ∃ a w', m w = (Ok a, w') ∧ Q a w'.

(** [m] leaves the dictionary [DEFAULT_SCRAPE_OPTS] as it was, whatever its
    outcome. *)
Definition keeps_default {B A} (m : M B A) : Prop :=
  ∀ w, heap (m w).2 !! DEFAULT_SCRAPE_OPTS = heap w !! DEFAULT_SCRAPE_OPTS.

(** The completion calls of [w'] are those of [w] and, from each call site
    [s], [delta s] more. *)
Definition calls_delta {B} (delta : call_site → nat) (w w' : world B) : Prop :=
  ∀ s, count_calls s (trace w') = (count_calls s (trace w) + delta s)%nat.

Definition only (site : call_site) (k : nat) : call_site → nat :=
  λ s, if decide (s = site) then k else O.

(** A completion call that succeeds with a non-empty text. *)
Definition reply_nonempty (r : result response) : bool :=
  match r with
  | Ok resp => truthy (text_of resp)
  | Raise _ => false
  end.

(** What [extract_specs_from_docs] makes of a reply. *)
Definition decoded `{Externals B} (resp : response) : pyval :=
  match json_loads (text_of resp) with
  | Some parsed => parsed
  | None => PDict {[ "raw" := text_of resp ]}
  end.

(** ** Further notions used in the properties *)

(** The characters of a text that are not whitespace, in order. *)
Fixpoint ink (t : str) : str :=
  match t with
  | [] => []
  | c :: t' => if isspace c then ink t' else c :: ink t'
  end.

(** A text made of whitespace only (the empty text included). *)
Definition blank (t : str) : bool := forallb isspace t.

(** The candidates of the markdown lookup on a dict-shaped item: its
    [markdown] entry, then the [markdown] entry of its nested [data]. *)
Definition nested_data (d : gmap string pyval) : gmap string pyval :=
  match d !! "data" with Some (PDict m) => m | _ => ∅ end.

Definition markdown_candidates (d : gmap string pyval) : list pyval :=
  [ spec_field d "markdown"; spec_field (nested_data d) "markdown" ].

(** The [data] entry of a dict-shaped item is absent, falsy, or itself a
    dictionary. *)
Definition data_is_dict_or_falsy (d : gmap string pyval) : bool :=
  match d !! "data" with
  | None => true
  | Some v => negb (truthy v) || isinstance_dict v
  end.

(** The [markdown] entry of a dict-shaped item is absent or a non-empty
    string. *)
Definition markdown_absent_or_text (d : gmap string pyval) : bool :=
  match d !! "markdown" with
  | None => true
  | Some (PStr s) => nonempty s
  | Some _ => false
  end.

(** The [markdown] attribute of an object-shaped item is not a string. *)
Definition markdown_attribute_not_text (item : pyval) : bool :=
  match attribute item "markdown" with
  | Some (PStr _) => false
  | _ => true
  end.

(** The options a run hands to the search client: the defaults, with the
    caller's entries on top when the caller gave any. *)
Definition merged_options (scrape_options : option (gmap string pyval))
    (defaults : gmap string pyval) : gmap string pyval :=
  match scrape_options with
  | Some overrides => if truthy (PDict overrides) then overrides ∪ defaults else defaults
  | None => defaults
  end.

(** The call sites of the completion calls of a trace, in order. *)
Fixpoint sites (tr : list event) : list call_site :=
  match tr with
  | [] => []
  | EvGenerate site _ :: tr' => site :: sites tr'
  | _ :: tr' => sites tr'
  end.

(** The search requests of a trace, in order. *)
Fixpoint searches (tr : list event) : list (str * Z * gmap string pyval) :=
  match tr with
  | [] => []
  | EvSearch query limit opts :: tr' => (query, limit, opts) :: searches tr'
  | _ :: tr' => searches tr'
  end.

(** The outcome of [m] run from [w], whatever it is, satisfies [Q]. *)
Definition after {B A} (m : M B A) (w : world B)
    (Q : result A → world B → Prop) : Prop :=
  Q (m w).1 (m w).2.

(** The URL recorded for an item: what the lookup returns. *)
Definition url_of (item : pyval) : pyval :=
  match safe_get_url item with Ok url => url | Raise _ => PNone end.

(** The markdown of an item. *)
Definition markdown_of (item : pyval) : pyval :=
  match safe_get_markdown item with Ok md => md | Raise _ => empty_str end.

(** The URLs of the items that carry markdown, in order. *)
Fixpoint document_urls (items : list pyval) : list pyval :=
  match items with
  | [] => []
  | item :: items' =>
      if has_markdown item then url_of item :: document_urls items'
      else document_urls items'
  end.

(** The texts the spec loop collects, and the URL labels it pairs them
    with. *)
Fixpoint collected_texts (items : list pyval) : list pyval :=
  match items with
  | [] => []
  | item :: items' =>
      if has_markdown item then markdown_of item :: collected_texts items'
      else collected_texts items'
  end.

Fixpoint collected_urls (items : list pyval) : list pyval :=
  match items with
  | [] => []
  | item :: items' =>
      if has_markdown item then
        (if truthy (url_of item) then url_of item else PStr (lit "unknown"))
        :: collected_urls items'
      else collected_urls items'
  end.

(** The completion calls a run may add, after its per-document calls. *)
Definition closing_calls : list (list call_site) :=
  [ []; [SpecExtraction]; [FinalSynthesis]; [SpecExtraction; FinalSynthesis] ].

(** What the per-document loop, started with [summaries] in world [w], has
    done when it ends with outcome [r] in world [w']. *)
Definition review_outcome `{Externals B} (doc_limit : Z) (summaries : list summary)
    (w : world B) (r : result (list summary)) (w' : world B) : Prop :=
  heap w' = heap w
  ∧ ∃ added k,
      trace w' = trace w ++ added
      ∧ sites added = replicate k DocSummary ∧ searches added = []
      ∧ (∀ out, r = Ok out →
           (length out ≤ Nat.max (length summaries) (Z.to_nat doc_limit))%nat
           ∧ (length out ≤ length summaries + k)%nat
           ∧ (Forall (λ s, truthy (s_summary s) = true) summaries →
              Forall (λ s, truthy (s_summary s) = true) out))
      ∧ ((∀ b model prompt,
            reply_nonempty (generate_content b model prompt).1 = true) →
         (length summaries + k ≤ Nat.max (length summaries) (Z.to_nat doc_limit))%nat).

(** The two search requests of a run started in [w]: none when the module
    dictionary is missing. *)
Definition expected_searches {B} (querySearch querySpecs : str)
    (searchLimit specLimit : Z) (scrape_options : option (gmap string pyval))
    (max_genai_calls : Z) (w : world B) : list (str * Z * gmap string pyval) :=
  match heap w !! DEFAULT_SCRAPE_OPTS with
  | Some defaults =>
      [ (querySearch, Z.min searchLimit (Z.max 0 (max_genai_calls - 2)),
         merged_options scrape_options defaults);
        (querySpecs, specLimit, merged_options scrape_options defaults) ]
  | None => []
  end.

(** What a run of [search_and_summarize] started in [w] has done when it
    ends with outcome [r] in world [w']: [k] per-document calls followed by
    one of the closing sequences, and a prefix of the two searches. *)
Definition run_outcome `{Externals B} (querySearch querySpecs : str)
    (searchLimit specLimit : Z) (scrape_options : option (gmap string pyval))
    (max_genai_calls : Z) (w : world B)
    (r : result (pyval * list summary)) (w' : world B) : Prop :=
  let doc_limit := Z.min searchLimit (Z.max 0 (max_genai_calls - 2)) in
  let expected := expected_searches querySearch querySpecs searchLimit specLimit
                                    scrape_options max_genai_calls w in
  ∃ added k tail,
    trace w' = trace w ++ added
    ∧ sites added = replicate k DocSummary ++ tail
    ∧ tail ∈ closing_calls
    ∧ searches added `prefix_of` expected
    ∧ (∀ final summaries, r = Ok (final, summaries) →
         (tail = [FinalSynthesis] ∨ tail = [SpecExtraction; FinalSynthesis])
         ∧ searches added = expected
         ∧ (length summaries ≤ Z.to_nat doc_limit)%nat
         ∧ (length summaries ≤ k)%nat
         ∧ Forall (λ s, truthy (s_summary s) = true) summaries)
    ∧ ((∀ b model prompt,
          reply_nonempty (generate_content b model prompt).1 = true) →
       (k ≤ Z.to_nat doc_limit)%nat).

(** A per-document completion call. *)
Definition is_doc_call (ev : event) : Prop :=
  match ev with
  | EvGenerate DocSummary _ => True
  | _ => False
  end.

(** The label of the car in the final prompt: [car_type or querySearch]. *)
Definition car_label (car_type : option str) (querySearch : str) : str :=
  match car_type with
  | Some c => if nonempty c then c else querySearch
  | None => querySearch
  end.

(** The [Documents:] part of the final prompt. *)
Definition combined_summaries `{Externals B} (summaries : list summary) : str :=
  join (nl ++ nl)
       (map (λ s, lit "From " ++ fmt (s_url s) ++ lit ":" ++ nl ++ fmt (s_summary s))
            summaries).

(** Further scripted collaborators: a completion backend that fails on
    every call, and a search backend that fails on every query. *)
Definition backend_down : exn := BackendError (lit "503").

Definition failing_completion (reviews specs : pyval) : Externals unit :=
  {| firecrawl_search _ query _ _ :=
       (Ok (if bool_decide (query = review_query) then reviews else specs), tt);
     generate_content _ _ _ := (Raise backend_down, tt);
     json_loads _ := None;
     json_dumps _ := lit "<json>";
     py_repr _ := lit "<repr>";
     dedent s := s |}.

Definition failing_search : Externals unit :=
  {| firecrawl_search _ _ _ _ := (Raise backend_down, tt);
     generate_content _ _ _ :=
       (Ok {| resp_text := Some (Some a_str); resp_repr := lit "<response>" |}, tt);
     json_loads _ := None;
     json_dumps _ := lit "<json>";
     py_repr _ := lit "<repr>";
     dedent s := s |}.

Definition item_numeric_markdown : pyval := PDict {[ "markdown" := PInt 5 ]}.

Definition spec_items_mixed : list pyval :=
  [ doc "https://s.example/1" "Engine 2.7 flat six, 245 hp.";
    PDict {[ "url" := PStr (lit "https://s.example/2") ]};
    PDict {[ "markdown" := PStr (lit "Torque 273 Nm.") ]} ].

(** ** The legacy pipeline, [scrape_search_and_summarize.py]

    The legacy module has its own [DEFAULT_SCRAPE_OPTS], with the same
    contents, and summarises a document chunk by chunk.  Its completion
    calls for one document (one per chunk, then one to combine them) are
    recorded under [DocSummary], its last call under [FinalSynthesis]. *)

(** [chunk_text(md_text, max_chars=3000)] on a value: only a string has
    [strip].  The loop is given [len(md_text)] passes, which is enough for a
    positive budget, so the [None] case does not arise. *)
Definition chunks_of (md_text : pyval) : result (list str) :=
  match md_text with
  | PStr s =>
      match chunk_text (length s) s 3000 with
      | Some chunks => Ok chunks
      | None => Ok []
      end
  | _ => Raise AttributeError
  end.

(** [sep.join(values)]: every value has to be a string. *)
Fixpoint texts_of (values : list pyval) : result (list str) :=
  match values with
  | [] => Ok []
  | PStr s :: values' =>
      match texts_of values' with
      | Ok parts => Ok (s :: parts)
      | Raise e => Raise e
      end
  | _ :: _ => Raise TypeError
  end.

Definition join_values (sep : str) (values : list pyval) : result str :=
  match texts_of values with
  | Ok parts => Ok (join sep parts)
  | Raise e => Raise e
  end.

Section LegacyPipeline.

Context {B : Type} `{E : Externals B}.

(** The prompt of [summarize_chunk]. *)
Definition chunk_prompt (chunk : str) : str :=
  strip (dedent (lit "
    Summarize this excerpt in 2-3 short sentences focused on car review insights: main issues, recurring problems, and positives.

    Excerpt:
    " ++ chunk ++ lit "
    ")).

(** [summarize_chunk], the same in both source files. *)
Definition summarize_chunk (chunk : str) : M B pyval :=
  let! resp := generate DocSummary (chunk_prompt chunk) in
  ret (text_of resp).

(** [[summarize_chunk(c) for c in chunks]]. *)
Fixpoint summarize_chunks (chunks : list str) : M B (list pyval) :=
  match chunks with
  | [] => ret []
  | c :: chunks' =>
      let! chunk_summary := summarize_chunk c in
      let! chunk_summaries := summarize_chunks chunks' in
      ret (chunk_summary :: chunk_summaries)
  end.

(** The prompt that combines the chunk summaries. *)
Definition synth_prompt (url : pyval) (combined : str) : str :=
  strip (dedent (lit "
    Combine these short summaries into a 3-4 sentence summary focused on the main drawbacks, common issues, and main positives.
    Preserve source attribution at the end: " ++ fmt url ++ lit "

    Summaries:
    " ++ combined ++ lit "
    ")).

(** [scrape_search_and_summarize.py], [summarize_document]. *)
Definition legacy_summarize_document (md_text url : pyval) : M B pyval :=
  let! chunks := lift (chunks_of md_text) in
  match chunks with
  | [] => ret PNone
  | _ :: _ =>
      let! chunk_summaries := summarize_chunks chunks in
      let! combined := lift (join_values (nl ++ nl) chunk_summaries) in
      let! resp := generate DocSummary (synth_prompt url combined) in
      ret (text_of resp)
  end.

(** The URL expression of the legacy loop:
    [item.get("url") or item.get("sourceURL")
     or item.get("metadata", {}).get("sourceURL")]. *)
Definition legacy_url (item : pyval) : result pyval :=
  get_ (Ok item) "url" PNone
  |or| get_ (Ok item) "sourceURL" PNone
  |or| get_ (get_ (Ok item) "metadata" empty_dict) "sourceURL" PNone.

(** The loop of the legacy [search_and_summarize]: no limit on the number
    of documents. *)
Fixpoint legacy_loop (items : list pyval) (summaries : list summary)
    : M B (list summary) :=
  match items with
  | [] => ret summaries
  | item :: items' =>
      let! url := lift (legacy_url item) in
      let! md := lift (Legacy.safe_get_markdown item) in
      if negb (truthy md) then legacy_loop items' summaries
      else
        let! doc_summary := legacy_summarize_document md url in
        if truthy doc_summary then
          legacy_loop items' (summaries ++ [Summary url doc_summary])
        else legacy_loop items' summaries
  end.

(** The prompt of the legacy final call. *)
Definition legacy_final_prompt (combined_summaries : str) : str :=
  strip (dedent (lit "
    Using the following per-document summaries, produce a 2-3 paragraph concise summary of Toyota Corolla (1997) reviews.
    Focus on: main drawbacks, common mechanical issues (with frequency), and main positives.
    For each major point, list the source URLs that support it.

    Documents:
    " ++ combined_summaries ++ lit "
    ")).

(** [scrape_search_and_summarize.py], [search_and_summarize]. *)
Definition legacy_search_and_summarize (query : str) (limit : Z)
    (scrape_options : option (gmap string pyval)) : M B (pyval * list summary) :=
  let! opts := dict_copy DEFAULT_SCRAPE_OPTS in
  let! _ :=
    match scrape_options with
    | Some overrides =>
        if truthy (PDict overrides) then dict_update opts overrides else ret ()
    | None => ret ()
    end in
  let! results := search query limit opts in
  let! items :=
    match results with
    | PList _ => ret results
    | _ => lift (get_ (Ok results) "data" results)
    end in
  let items :=
    match items with
    | PDict d => match d !! "web" with Some web => web | None => items end
    | _ => items
    end in
  let! items_seq := lift (iterate items) in
  let! summaries := legacy_loop items_seq [] in
  let! resp := generate FinalSynthesis
                 (legacy_final_prompt (combined_summaries summaries)) in
  ret (text_of resp, summaries).

End LegacyPipeline.

(** What summarising one item costs the legacy loop in completion calls:
    one per chunk and one to combine them, when its markdown is a string
    with some text in it. *)
Definition legacy_cost (item : pyval) : nat :=
  match Legacy.safe_get_markdown item with
  | Ok (PStr s) =>
      match chunk_text (length s) s 3000 with
      | Some (c :: chunks) => S (length (c :: chunks))
      | _ => O
      end
  | _ => O
  end.

(** An item the legacy loop can take: its URL expression has a result and
    its markdown is a string or falsy. *)
Definition legacy_usable_item (item : pyval) : bool :=
  is_ok (legacy_url item)
  && match Legacy.safe_get_markdown item with
     | Ok (PStr _) => true
     | Ok md => negb (truthy md)
     | Raise _ => false
     end.

(** A completion call that succeeds with a non-empty string. *)
Definition reply_is_text (r : result response) : bool :=
  match r with
  | Ok resp => match text_of resp with PStr s => nonempty s | _ => false end
  | Raise _ => false
  end.

(** A completion call that succeeds with the text [None]. *)
Definition reply_is_none (r : result response) : bool :=
  match r with
  | Ok resp => match text_of resp with PNone => true | _ => false end
  | Raise _ => false
  end.

(** The world [w'] is [w] after the completion calls [calls], made in that
    order: no search in between, and the heap as it was. *)
Definition made_calls {B} (w w' : world B) (calls : list call_site) : Prop :=
  heap w' = heap w
  ∧ ∃ added, trace w' = trace w ++ added
             ∧ sites added = calls ∧ searches added = [].

(** The completion calls the legacy loop spends on a list of items, and the
    number of items it spends any on. *)
Fixpoint legacy_calls (items : list pyval) : nat :=
  match items with
  | [] => O
  | item :: items' => (legacy_cost item + legacy_calls items')%nat
  end.

Fixpoint legacy_summarised (items : list pyval) : nat :=
  match items with
  | [] => O
  | item :: items' =>
      match legacy_cost item with
      | O => legacy_summarised items'
      | S _ => S (legacy_summarised items')
      end
  end.

(** A completion backend whose replies carry no text: [resp.text] is
    [None]. *)
Definition silent_completion (reviews specs : pyval) : Externals unit :=
  {| firecrawl_search _ query _ _ :=
       (Ok (if bool_decide (query = review_query) then reviews else specs), tt);
     generate_content _ _ _ :=
       (Ok {| resp_text := Some None; resp_repr := lit "<response>" |}, tt);
     json_loads _ := None;
     json_dumps _ := lit "<json>";
     py_repr _ := lit "<repr>";
     dedent s := s |}.

(** A search result with an entry that is not a dictionary. *)
Definition item_metadata_null : pyval :=
  PDict (<["metadata" := PNone]> {[ "markdown" := PStr (lit "Clutch wear.") ]}).

(** ** The import diagnostic, [diagnose_google_import.py] *)

(** [range(lo, hi)]. *)
Definition py_range (lo hi : Z) : list Z := seqZ lo (hi - lo).

(** [l[i]]: a negative index counts from the end, and [None] stands for
    [IndexError]. *)
Definition getitem {A} (l : list A) (i : Z) : option A :=
  if (0 <=? i) && (i <? len l) then l !! Z.to_nat i
  else if (- len l <=? i) && (i <? 0) then l !! Z.to_nat (len l + i)
  else None.

(** One line of the printed snippet: the [>>] marker or two blanks, the
    line number, and the line without its trailing whitespace. *)
Record snippet_row := SnippetRow { marked : bool; number : Z; content : str }.

(** [show_file_snippet(fname, lineno, ctx=6)] on a file that was read as
    [lines]: the line range named in the header, and the rows printed under
    it. *)
Definition show_file_snippet (lines : list str) (lineno ctx : Z)
    : option (Z * Z * list snippet_row) :=
  let start := Z.max 0 (lineno - ctx - 1) in
  let end_ := Z.min (len lines) (lineno + ctx) in
  match mapM (λ i, match getitem lines i with
                   | Some line =>
                       Some (SnippetRow (i =? lineno - 1) (i + 1) (rstrip line))
                   | None => None
                   end)
             (py_range start end_) with
  | Some rows => Some (start + 1, end_, rows)
  | None => None
  end.

Definition five_lines : list str :=
  [ lit "import os"; lit "import sys  "; lit "x = [1]"; lit "d = {x: 1}"; lit "print(d)" ].

(** The review items of a run: what [normalize_results] makes of the
    search result, unwrapped from a [web] key when it is a dictionary, as the
    per-document loop iterates it. *)
Definition review_items (results : pyval) : result (list pyval) :=
  iterate match normalize_results results with
          | PDict d =>
              match d !! "web" with
              | Some web => web
              | None => normalize_results results
              end
          | _ => normalize_results results
          end.

(** The spec items of a run: [normalize_results(resultsSpecs)[:specLimit]],
    as the spec loop iterates it. *)
Definition spec_items (resultsSpecs : pyval) (specLimit : Z) : result (list pyval) :=
  match slice_value (normalize_results resultsSpecs) specLimit with
  | Ok spec_slice => iterate spec_slice
  | Raise e => Raise e
  end.


(** * Properties *)

(** ** Sample runs *)

Example compress_short :
  _compress_for_single_request (lit "  hello ") 10 = lit "hello".
Proof. reflexivity. Qed.

Example compress_long :
  _compress_for_single_request (lit "abcdefghijklmnopqrstuvwxyz") 9
  = sep_start ++ lit "abc" ++ sep_middle ++ lit "mn" ++ sep_end ++ lit "xyz".
Proof. reflexivity. Qed.

Example chunk_text_paragraphs :
  chunk_text 10 (lit "aaaa" ++ nl ++ nl ++ lit "bbbb cc") 7
  = Some [lit "aaaa"; lit "bbbb cc"].
Proof. reflexivity. Qed.

Example markdown_direct :
  safe_get_markdown (PDict {[ "markdown" := PStr a_str ]}) = Ok (PStr a_str).
Proof. reflexivity. Qed.

Example markdown_nested :
  safe_get_markdown (PDict {[ "data" := PDict {[ "markdown" := PStr a_str ]} ]})
  = Ok (PStr a_str).
Proof. reflexivity. Qed.

Example url_nested :
  safe_get_url (PDict {[ "metadata" := PDict {[ "sourceURL" := PStr a_str ]} ]})
  = Ok (PStr a_str).
Proof. reflexivity. Qed.

(** ** Text operations *)

Section TextFacts.

Lemma length_lstrip (t : str) : (length (lstrip t) ≤ length t)%nat.
Proof.
  induction t as [|c t IH]; simpl; [lia|].
  destruct (isspace c); simpl; lia.
Qed.

Lemma length_strip (t : str) : (length (strip t) ≤ length t)%nat.
Proof.
  unfold strip, rstrip. rewrite length_rev.
  etransitivity; [apply length_lstrip|].
  rewrite length_rev. apply length_lstrip.
Qed.

Lemma len_strip (t : str) : len (strip t) ≤ len t.
Proof. unfold len. pose proof (length_strip t). lia. Qed.

Lemma len_lstrip (t : str) : len (lstrip t) ≤ len t.
Proof. unfold len. pose proof (length_lstrip t). lia. Qed.

Lemma len_nonneg {A} (t : list A) : 0 ≤ len t.
Proof. unfold len. lia. Qed.

Lemma len_app {A} (s t : list A) : len (s ++ t) = len s + len t.
Proof. unfold len. rewrite length_app. lia. Qed.

Lemma nonempty_len (t : str) : nonempty t = true ↔ 0 < len t.
Proof. destruct t; unfold len; simpl; split; intros; try lia; congruence. Qed.

Lemma nonempty_false (t : str) : nonempty t = false ↔ t = [].
Proof. destruct t; simpl; split; congruence. Qed.

Lemma slice_index_range n i : 0 ≤ n → 0 ≤ slice_index n i ≤ n.
Proof. unfold slice_index. intros. destruct (i <? 0); lia. Qed.

(** The length of a slice, from its two clamped bounds. *)
Lemma len_slice {A} (t : list A) lo hi :
  len (slice t lo hi)
  = Z.max 0 ((match hi with None => len t | Some j => slice_index (len t) j end)
             - (match lo with None => 0 | Some i => slice_index (len t) i end)).
Proof.
  unfold slice, len. rewrite length_take, length_drop.
  set (n := Z.of_nat (length t)).
  assert (Ha : 0 ≤ match lo with None => 0 | Some i => slice_index n i end ≤ n).
  { destruct lo; [apply slice_index_range|]; lia. }
  assert (Hb : 0 ≤ match hi with None => n | Some j => slice_index n j end ≤ n).
  { destruct hi; [apply slice_index_range|]; lia. }
  lia.
Qed.

Lemma len_slice_to {A} (t : list A) hi :
  0 ≤ hi → len (slice_to t hi) = Z.min (len t) hi.
Proof.
  intros. unfold slice_to. rewrite len_slice. unfold slice_index.
  pose proof (len_nonneg t). destruct (Z.ltb_spec hi 0); lia.
Qed.

Lemma len_slice_from {A} (t : list A) lo :
  0 ≤ lo ≤ len t → len (slice_from t lo) = len t - lo.
Proof.
  intros. unfold slice_from. rewrite len_slice. unfold slice_index.
  destruct (Z.ltb_spec lo 0); lia.
Qed.

(** [rfind] never points past the end of the haystack. *)
Lemma rfind_from_upper i hay needle :
  -1 ≤ i → rfind_from i hay needle ≤ i + len hay.
Proof.
  revert i. induction hay as [|h hay IH]; intros i Hi; cbn [rfind_from].
  - unfold len; simpl. destruct needle; simpl; lia.
  - specialize (IH (i + 1) ltac:(lia)). unfold len in *. cbn [length].
    destruct (0 <=? rfind_from (i + 1) hay needle); [lia|].
    destruct (startswith needle (h :: hay)); lia.
Qed.

Lemma rfind_upper hay needle : rfind hay needle ≤ len hay.
Proof. unfold rfind. pose proof (rfind_from_upper 0 hay needle). lia. Qed.

Lemma startswith_app needle post : startswith needle (needle ++ post) = true.
Proof.
  induction needle as [|c needle IH]; simpl; [done|].
  rewrite N.eqb_refl. exact IH.
Qed.

Lemma contains_startswith hay needle :
  startswith needle hay = true → contains hay needle = true.
Proof. intros H. destruct hay; cbn [contains]; rewrite H; done. Qed.

Lemma contains_app pre needle post : contains (pre ++ needle ++ post) needle = true.
Proof.
  induction pre as [|c pre IH].
  - rewrite app_nil_l. apply contains_startswith, startswith_app.
  - rewrite <- app_comm_cons. cbn [contains]. rewrite IH. apply orb_true_r.
Qed.

End TextFacts.

(** ** The compressor *)

Section Compressor.

Lemma separator_overhead_value : separator_overhead = 38.
Proof. reflexivity. Qed.

(** A text that fits after trimming is returned trimmed. *)
Lemma compress_fits text max_chars :
  len (strip text) ≤ max_chars →
  _compress_for_single_request text max_chars = strip text.
Proof.
  intros Hfit. unfold _compress_for_single_request.
  destruct (nonempty text) eqn:Hne; simpl.
  - destruct (Z.leb_spec (len (strip text)) max_chars); [done | lia].
  - apply nonempty_false in Hne. subst text. reflexivity.
Qed.

(** The shape of the output on a text that does not fit. *)
Lemma compress_long_shape text max_chars :
  0 ≤ max_chars → max_chars < len (strip text) →
  _compress_for_single_request text max_chars
  = sep_start ++ slice_to (strip text) (max_chars / 3)
    ++ sep_middle
    ++ slice (strip text) (Some (len (strip text) / 2 - max_chars / 3 / 2))
                          (Some (len (strip text) / 2 + max_chars / 3 / 2))
    ++ sep_end ++ slice_from (strip text) (- (max_chars / 3)).
Proof.
  intros Hpos Hlong. unfold _compress_for_single_request.
  destruct (nonempty text) eqn:Hne; simpl.
  - destruct (Z.leb_spec (len (strip text)) max_chars); [lia | done].
  - apply nonempty_false in Hne. subst text. unfold len in Hlong. simpl in Hlong. lia.
Qed.

(** The three slices of a long text together stay within the budget, as
    soon as a third of the budget is at least one character. *)
Lemma compress_slices_bound (t : str) max_chars :
  3 ≤ max_chars → max_chars < len t →
  len (slice_to t (max_chars / 3))
  + len (slice t (Some (len t / 2 - max_chars / 3 / 2))
                 (Some (len t / 2 + max_chars / 3 / 2)))
  + len (slice_from t (- (max_chars / 3))) ≤ max_chars.
Proof.
  intros Hb Hlong.
  rewrite len_slice_to by (apply Z.div_pos; lia).
  unfold slice_from. rewrite !len_slice. unfold slice_index.
  set (n := len t) in *. set (part := max_chars / 3).
  assert (Hpart : 1 ≤ part ∧ 3 * part ≤ max_chars).
  { unfold part. split; [apply Z.div_le_lower_bound; lia|].
    apply Z.mul_div_le. lia. }
  assert (Hhalf : 0 ≤ part / 2 ∧ 2 * (part / 2) ≤ part).
  { split; [apply Z.div_pos; lia | apply Z.mul_div_le; lia]. }
  assert (Hmid : 0 ≤ n / 2 ∧ 2 * (n / 2) ≤ n ∧ n < 2 * (n / 2) + 2).
  { pose proof (Z.div_mod n 2 ltac:(lia)). pose proof (Z.mod_pos_bound n 2 ltac:(lia)).
    lia. }
  destruct (Z.ltb_spec (n / 2 - part / 2) 0);
    destruct (Z.ltb_spec (n / 2 + part / 2) 0);
    destruct (Z.ltb_spec (- part) 0); lia.
Qed.

Lemma compress_long_length text max_chars :
  3 ≤ max_chars → max_chars < len (strip text) →
  len (_compress_for_single_request text max_chars) ≤ max_chars + separator_overhead.
Proof.
  intros Hb Hlong. rewrite compress_long_shape by lia.
  rewrite !len_app. pose proof (compress_slices_bound (strip text) max_chars Hb Hlong).
  unfold separator_overhead. lia.
Qed.

End Compressor.

(** ** The chunker *)

Section Chunker.

(** With a positive budget, one pass of the loop cuts a chunk no longer
    than the budget and leaves strictly less text. *)
Lemma chunk_step_progress text max_chars :
  0 < max_chars → nonempty text = true →
  len (chunk_step text max_chars).1 ≤ max_chars
  ∧ len (chunk_step text max_chars).2 < len text.
Proof.
  intros Hpos Hne. apply nonempty_len in Hne. unfold chunk_step.
  set (chunk0 := slice_to text max_chars).
  assert (H0 : len chunk0 = Z.min (len text) max_chars)
    by (apply len_slice_to; lia).
  pose proof (rfind_upper chunk0 (nl ++ nl)) as Hcut.
  set (cut := rfind chunk0 (nl ++ nl)) in *.
  assert (Hhalf : 0 ≤ max_chars / 2) by (apply Z.div_pos; lia).
  cbn [fst snd].
  destruct (Z.ltb_spec (max_chars / 2) cut) as [Hlt|Hge].
  - assert (Hc : len (slice_to text cut) = cut).
    { rewrite len_slice_to by lia. lia. }
    split.
    + pose proof (len_strip (slice_to text cut)). lia.
    + pose proof (len_lstrip (slice_from text (len (slice_to text cut)))).
      rewrite len_slice_from in * by lia. lia.
  - split.
    + pose proof (len_strip chunk0). lia.
    + pose proof (len_lstrip (slice_from text (len chunk0))).
      rewrite len_slice_from in * by lia. lia.
Qed.

(** Enough fuel: the loop ends within as many passes as there are
    characters. *)
Lemma chunk_loop_enough_fuel max_chars :
  0 < max_chars →
  ∀ fuel text chunks, (length text ≤ fuel)%nat →
    ∃ out, chunk_loop fuel text max_chars chunks = Some out.
Proof.
  intros Hpos fuel. induction fuel as [|fuel IH]; intros text chunks Hlen.
  - destruct text; [|simpl in Hlen; lia]. simpl. eauto.
  - cbn [chunk_loop]. destruct (nonempty text) eqn:Hne; cbn [negb]; [|eauto].
    pose proof (chunk_step_progress text max_chars Hpos Hne) as [_ Hlt].
    destruct (chunk_step text max_chars) as [chunk rest]. cbn [snd] in Hlt.
    apply IH. unfold len in Hlt. lia.
Qed.

(** More fuel does not change a result. *)
Lemma chunk_loop_fuel_mono max_chars fuel :
  ∀ text chunks out, chunk_loop fuel text max_chars chunks = Some out →
    ∀ fuel', (fuel ≤ fuel')%nat → chunk_loop fuel' text max_chars chunks = Some out.
Proof.
  induction fuel as [|fuel IH]; intros text chunks out Hrun fuel' Hle.
  - destruct text; simpl in Hrun; [|discriminate].
    destruct fuel'; simpl; exact Hrun.
  - destruct fuel' as [|fuel']; [lia|]. cbn [chunk_loop] in *.
    destruct (nonempty text); cbn [negb] in *; [|exact Hrun].
    destruct (chunk_step text max_chars) as [chunk rest].
    apply IH with (fuel' := fuel') in Hrun; [exact Hrun | lia].
Qed.

Lemma chunk_loop_deterministic max_chars fuel1 fuel2 text chunks out1 out2 :
  chunk_loop fuel1 text max_chars chunks = Some out1 →
  chunk_loop fuel2 text max_chars chunks = Some out2 →
  out1 = out2.
Proof.
  intros H1 H2.
  apply chunk_loop_fuel_mono with (fuel' := Nat.max fuel1 fuel2) in H1; [|lia].
  apply chunk_loop_fuel_mono with (fuel' := Nat.max fuel1 fuel2) in H2; [|lia].
  congruence.
Qed.

(** Every chunk the loop adds respects the budget. *)
Lemma chunk_loop_bounded max_chars :
  0 < max_chars →
  ∀ fuel text chunks out,
    Forall (λ c, len c ≤ max_chars) chunks →
    chunk_loop fuel text max_chars chunks = Some out →
    Forall (λ c, len c ≤ max_chars) out.
Proof.
  intros Hpos fuel. induction fuel as [|fuel IH]; intros text chunks out Hacc Hrun.
  - destruct text; simpl in Hrun; [|discriminate]. congruence.
  - cbn [chunk_loop] in Hrun.
    destruct (nonempty text) eqn:Hne; cbn [negb] in Hrun; [|congruence].
    pose proof (chunk_step_progress text max_chars Hpos Hne) as [Hchunk _].
    destruct (chunk_step text max_chars) as [chunk rest]. cbn [fst] in Hchunk.
    eapply IH; [|exact Hrun].
    apply Forall_app. split; [exact Hacc|]. constructor; [exact Hchunk | constructor].
Qed.

(** With a budget of zero the loop makes no progress at all. *)
Lemma chunk_loop_zero_budget_stuck fuel chunks :
  chunk_loop fuel (lit "a") 0 chunks = None.
Proof.
  revert chunks. induction fuel as [|fuel IH]; intros chunks; [reflexivity|].
  cbn [chunk_loop]. change (nonempty (lit "a")) with true. cbn [negb].
  change (chunk_step (lit "a") 0) with ([] : str, lit "a"). apply IH.
Qed.

End Chunker.

Section CompressorClaims.

(** A budget below three characters: a third of it is zero, [text[-0:]] is
    the whole text, and nothing is cut. *)
Example compress_tiny_budget :
  _compress_for_single_request alphabet 2
  = sep_start ++ sep_middle ++ sep_end ++ alphabet.
Proof. reflexivity. Qed.

(** C2, as stated, fails: with a budget of 3 the eight-character text
    [abcdefgh] comes back as 40 characters, the separators included. *)
Lemma compress_exceeds_budget :
  0 < 3 ∧ ¬ (len (_compress_for_single_request (lit "abcdefgh") 3) ≤ 3).
Proof.
  split; [lia|].
  assert (len (_compress_for_single_request (lit "abcdefgh") 3) = 40) as ->
    by reflexivity.
  lia.
Qed.

(** C2, amended: for every text and every budget of at least 3, the
    compressed string is at most the budget plus the 38 characters of the
    three separators long, and at most the budget when the trimmed text
    fits. *)
Theorem compress_length_bound text max_chars :
  3 ≤ max_chars →
  len (_compress_for_single_request text max_chars) ≤ max_chars + separator_overhead
  ∧ (len (strip text) ≤ max_chars →
     len (_compress_for_single_request text max_chars) ≤ max_chars).
Proof.
  intros Hb. split.
  - destruct (Z.le_gt_cases (len (strip text)) max_chars) as [Hfit|Hlong].
    + rewrite compress_fits by exact Hfit.
      rewrite separator_overhead_value. lia.
    + apply compress_long_length; lia.
  - intros Hfit. rewrite compress_fits by exact Hfit. exact Hfit.
Qed.

Lemma compress_length_bound_witness :
  len (_compress_for_single_request alphabet 9) ≤ 9 + separator_overhead
  ∧ len (_compress_for_single_request (lit "  hello ") 9) ≤ 9.
Proof.
  split.
  - apply (compress_length_bound alphabet 9). lia.
  - apply (compress_length_bound (lit "  hello ") 9); [lia|].
    vm_compute. discriminate.
Defined.

(** C3, as stated, fails: [ab] followed by three blanks is longer than a
    budget of 3, but it fits once trimmed and comes back without any
    separator. *)
Lemma compress_long_input_without_markers :
  3 < len (lit "ab   ")
  ∧ _compress_for_single_request (lit "ab   ") 3 = lit "ab"
  ∧ contains (_compress_for_single_request (lit "ab   ") 3) (lit "--START--") = false.
Proof. split; [reflexivity|]. split; reflexivity. Qed.

(** C3, amended: for a positive budget, a text no longer than the budget
    (more generally, one whose trimmed length is within the budget) comes
    back trimmed; a text whose trimmed length exceeds the budget comes back
    with the three separators [--START--], [--MIDDLE--] and [--END--], and,
    when the budget is at least 3, with at most the budget plus the
    separator overhead in length. *)
Theorem compress_cases text max_chars :
  0 < max_chars →
  (len text ≤ max_chars → _compress_for_single_request text max_chars = strip text)
  ∧ (len (strip text) ≤ max_chars →
     _compress_for_single_request text max_chars = strip text)
  ∧ (max_chars < len (strip text) →
     contains (_compress_for_single_request text max_chars) (lit "--START--") = true
     ∧ contains (_compress_for_single_request text max_chars) (lit "--MIDDLE--") = true
     ∧ contains (_compress_for_single_request text max_chars) (lit "--END--") = true
     ∧ (3 ≤ max_chars →
        len (_compress_for_single_request text max_chars)
        ≤ max_chars + separator_overhead)).
Proof.
  intros Hpos. split; [|split].
  - intros Hfit. apply compress_fits. pose proof (len_strip text). lia.
  - apply compress_fits.
  - intros Hlong. split; [|split; [|split]].
    + rewrite compress_long_shape by lia. unfold sep_start.
      rewrite <- !(assoc_L (++)).
      apply (contains_app (nl ++ nl) (lit "--START--")).
    + rewrite compress_long_shape by lia. unfold sep_middle.
      rewrite <- !(assoc_L (++)).
      rewrite !(assoc_L (++) _ _ (lit "--MIDDLE--" ++ _)).
      apply contains_app.
    + rewrite compress_long_shape by lia. unfold sep_end.
      rewrite <- !(assoc_L (++)).
      rewrite !(assoc_L (++) _ _ (lit "--END--" ++ _)).
      apply contains_app.
    + intros Hb. apply compress_long_length; lia.
Qed.

Lemma compress_cases_witness :
  _compress_for_single_request (lit "  hello ") 10 = strip (lit "  hello ")
  ∧ contains (_compress_for_single_request alphabet 9) (lit "--MIDDLE--") = true
  ∧ len (_compress_for_single_request alphabet 9) ≤ 9 + separator_overhead.
Proof.
  split.
  - apply (compress_cases (lit "  hello ") 10); [lia|]. vm_compute. discriminate.
  - destruct (compress_cases alphabet 9) as (_ & _ & Hlong); [lia|].
    destruct Hlong as (_ & Hmid & _ & Hlen); [reflexivity|].
    split; [exact Hmid | apply Hlen; lia].
Defined.

End CompressorClaims.

Section ChunkerClaims.

(** C4: for every text and every positive [max_chars], [chunk_text]
    returns (within [len(text)] passes of its loop) and every chunk it
    returns is at most [max_chars] long. *)
Theorem chunk_text_chunks_bounded text max_chars :
  0 < max_chars →
  (∃ chunks, chunk_text (length text) text max_chars = Some chunks)
  ∧ (∀ fuel chunks, chunk_text fuel text max_chars = Some chunks →
       Forall (λ c, len c ≤ max_chars) chunks).
Proof.
  intros Hpos. split.
  - unfold chunk_text. destruct (nonempty (strip text)); cbn [negb]; [|eauto].
    apply chunk_loop_enough_fuel; [exact Hpos | apply length_strip].
  - intros fuel chunks. unfold chunk_text.
    destruct (nonempty (strip text)); cbn [negb].
    + apply chunk_loop_bounded; [exact Hpos | constructor].
    + intros [= <-]. constructor.
Qed.

Lemma chunk_text_chunks_bounded_witness :
  (∃ chunks, chunk_text (length two_paragraphs) two_paragraphs 7 = Some chunks)
  ∧ Forall (λ c, len c ≤ 7) [lit "aaaa"; lit "bbbb cc"].
Proof.
  destruct (chunk_text_chunks_bounded two_paragraphs 7) as [Hex Hall]; [lia|].
  split; [exact Hex|]. apply (Hall 10%nat). reflexivity.
Defined.

(** C5, as stated, fails: with a budget of 0 the chunk cut from [a] is
    empty, the text never shrinks, and no number of passes ends the loop. *)
Lemma chunk_text_zero_budget_diverges :
  ¬ ∃ fuel chunks, chunk_text fuel (lit "a") 0 = Some chunks.
Proof.
  intros (fuel & chunks & Hrun). unfold chunk_text in Hrun.
  change (strip (lit "a")) with (lit "a") in Hrun.
  change (nonempty (lit "a")) with true in Hrun. cbn [negb] in Hrun.
  rewrite chunk_loop_zero_budget_stuck in Hrun. discriminate.
Qed.

(** C5, amended: for every text and every positive budget, [chunk_text]
    terminates with a finite list of chunks (its loop runs at most
    [len(text)] times), and that list is a function of the input alone:
    any two runs return the same chunks. *)
Theorem chunk_text_terminates_deterministic text max_chars :
  0 < max_chars →
  ∃ chunks,
    (∀ fuel, (length text ≤ fuel)%nat → chunk_text fuel text max_chars = Some chunks)
    ∧ (∀ fuel chunks', chunk_text fuel text max_chars = Some chunks' → chunks' = chunks).
Proof.
  intros Hpos. unfold chunk_text.
  destruct (nonempty (strip text)) eqn:Hne; cbn [negb].
  - destruct (chunk_loop_enough_fuel max_chars Hpos (length text) (strip text) [])
      as [chunks Hrun]; [apply length_strip|].
    exists chunks. split.
    + intros fuel Hle. eapply chunk_loop_fuel_mono; eauto.
    + intros fuel chunks' Hrun'. eapply chunk_loop_deterministic; eauto.
  - exists []. split; [done|]. intros _ chunks' [= <-]. done.
Qed.

Lemma chunk_text_terminates_deterministic_witness :
  ∃ chunks,
    (∀ fuel, (length two_paragraphs ≤ fuel)%nat →
       chunk_text fuel two_paragraphs 7 = Some chunks)
    ∧ (∀ fuel chunks', chunk_text fuel two_paragraphs 7 = Some chunks' →
       chunks' = chunks).
Proof. apply (chunk_text_terminates_deterministic two_paragraphs 7). lia. Defined.

End ChunkerClaims.

(** ** The response normaliser *)

Section Normaliser.


Lemma get_dict d key default :
  get_ (Ok (PDict d)) key default
  = Ok (match d !! key with Some v => v | None => default end).
Proof. reflexivity. Qed.

(** [item.get("metadata") or {}], once [metadata] is known to be absent,
    falsy or a dictionary. *)
Lemma metadata_or_empty d :
  metadata_is_dict_or_falsy d = true →
  get_ (Ok (PDict d)) "metadata" PNone |or| Ok empty_dict = Ok (PDict (spec_metadata d)).
Proof.
  unfold metadata_is_dict_or_falsy, spec_metadata. rewrite get_dict.
  destruct (d !! "metadata") as [v|] eqn:Hmd; [|done].
  intros H. unfold por.
  destruct (truthy v) eqn:Htv; simpl in H.
  - destruct v; try discriminate. done.
  - destruct v; try done. simpl in Htv.
    apply negb_false_iff, bool_decide_eq_true in Htv. by subst.
Qed.

Lemma truthy_empty_dict d : truthy (PDict d) = false → d = ∅.
Proof. simpl. intros H. by apply negb_false_iff, bool_decide_eq_true in H. Qed.

(** On a dictionary whose [data] entry is absent, falsy or a dictionary
    the markdown lookup has a result; likewise the URL lookup when
    [metadata] is. *)
Lemma safe_getters_on_sane_dicts d :
  (match d !! "data" with
   | None => true
   | Some v => negb (truthy v) || isinstance_dict v
   end = true →
   is_ok (safe_get_markdown (PDict d)) = true)
  ∧ (metadata_is_dict_or_falsy d = true → is_ok (safe_get_url (PDict d)) = true).
Proof.
  split.
  - intros Hdata. unfold safe_get_markdown.
    destruct (truthy (PDict d)); [|done]. cbn [negb isinstance_dict].
    assert (Hor : ∃ data,
              get_ (Ok (PDict d)) "data" PNone |or| Ok empty_dict = Ok (PDict data)).
    { rewrite get_dict. unfold por. destruct (d !! "data") as [v|]; [|by eexists].
      destruct (truthy v) eqn:Htv; [|by eexists].
      destruct v; try discriminate. by eexists. }
    destruct Hor as [data ->]. rewrite !get_dict. unfold por.
    repeat case_match; done.
  - intros Hmd. unfold safe_get_url.
    destruct (truthy (PDict d)); [|done]. cbn [negb isinstance_dict].
    rewrite (metadata_or_empty d Hmd), !get_dict. unfold por.
    repeat case_match; done.
Qed.

(** The legacy variant checks the type of [data] before it calls [get] on
    it, so it has a result on every input. *)
Lemma legacy_safe_get_markdown_total item :
  is_ok (Legacy.safe_get_markdown item) = true.
Proof.
  unfold Legacy.safe_get_markdown. destruct (truthy item); [|done]. cbn [negb].
  destruct item as [| | | | |d|]; try done.
  destruct (d !! "markdown") as [[]|]; try done;
    (destruct (d !! "data") as [[]|]; try done; rewrite !get_dict; unfold por;
     repeat case_match; done).
Qed.

(** On a value that is neither a dictionary nor an object, both getters
    fall through to their default. *)
Lemma safe_getters_on_plain_values item :
  match item with PDict _ | PObj _ _ _ _ => False | _ => True end →
  safe_get_url item = Ok PNone ∧ safe_get_markdown item = Ok empty_str.
Proof.
  destruct item as [|b|z|s|l| |]; try done; intros _;
    unfold safe_get_url, safe_get_markdown; simpl; repeat case_match; done.
Qed.

(** C7 fails on the code: a dictionary whose [data] (for the markdown) or
    [metadata] (for the URL) entry is a non-empty string makes the getter
    call [get] on that string, which raises [AttributeError]. *)
Theorem safe_getters_raise_on_non_dict_entry :
  safe_get_markdown item_data_not_dict = Raise AttributeError
  ∧ safe_get_url item_metadata_not_dict = Raise AttributeError
  ∧ Legacy.safe_get_markdown item_data_not_dict = Ok empty_str.
Proof. split; [|split]; reflexivity. Qed.




End Normaliser.

(** ** Runs of the pipeline *)

Section Runs.

Context {B : Type} `{E : Externals B}.

Lemma returns_ret {A} (a : A) (w : world B) Q : Q a w → returns (ret a) w Q.
Proof. intros HQ. exists a, w. done. Qed.

Lemma returns_bind {A C} (m : M B A) (k : A → M B C) w Q :
  returns m w (λ a w', returns (k a) w' Q) → returns (bind m k) w Q.
Proof.
  intros (a & w' & Hm & c & w'' & Hk & HQ). exists c, w''.
  unfold bind. rewrite Hm. done.
Qed.

Lemma returns_lift {A} (r : result A) a (w : world B) Q :
  r = Ok a → Q a w → returns (lift r) w Q.
Proof. intros -> HQ. exists a, w. done. Qed.

Lemma returns_mono {A} (m : M B A) w (Q Q' : A → world B → Prop) :
  returns m w Q → (∀ a w', Q a w' → Q' a w') → returns m w Q'.
Proof. intros (a & w' & Hm & HQ) Himp. exists a, w'. eauto. Qed.

Lemma returns_emit ev (w : world B) Q :
  Q () (World (outside w) (heap w) (trace w ++ [ev])) → returns (emit ev) w Q.
Proof. intros HQ. eexists _, _. split; [reflexivity | exact HQ]. Qed.

Lemma returns_generate site prompt (w : world B) Q :
  is_ok (generate_content (outside w) model_name prompt).1 = true →
  (∀ resp b', generate_content (outside w) model_name prompt = (Ok resp, b') →
     Q resp (World b' (heap w) (trace w ++ [EvGenerate site prompt]))) →
  returns (generate site prompt) w Q.
Proof.
  intros Hok HQ. unfold returns, generate.
  destruct (generate_content (outside w) model_name prompt) as [[resp|e] b'] eqn:Hg;
    [|discriminate].
  exists resp, (World b' (heap w) (trace w ++ [EvGenerate site prompt])).
  split; [reflexivity | by apply HQ].
Qed.

Lemma returns_search query limit opts d (w : world B) Q :
  heap w !! opts = Some d →
  usable_results (firecrawl_search (outside w) query limit d).1 = true →
  (∀ items b', firecrawl_search (outside w) query limit d = (Ok (PList items), b') →
     forallb usable_item items = true →
     Q (PList items) (World b' (heap w) (trace w ++ [EvSearch query limit d]))) →
  returns (search query limit opts) w Q.
Proof.
  intros Hd Hok HQ. unfold returns, search. rewrite Hd.
  destruct (firecrawl_search (outside w) query limit d) as [[v|e] b'] eqn:Hs;
    [|discriminate].
  destruct v as [| | | |items| |]; try discriminate.
  exists (PList items), (World b' (heap w) (trace w ++ [EvSearch query limit d])).
  split; [reflexivity | by apply HQ].
Qed.

(** *** Counting completion calls *)

Lemma count_calls_app site (tr1 tr2 : list event) :
  count_calls site (tr1 ++ tr2) = (count_calls site tr1 + count_calls site tr2)%nat.
Proof.
  induction tr1 as [|ev tr1 IH]; [done|].
  rewrite <- app_comm_cons. destruct ev; cbn [count_calls]; try exact IH.
  destruct (decide (site0 = site)); lia.
Qed.

Lemma calls_delta_refl (w : world B) : calls_delta (λ _, O) w w.
Proof. intros s. lia. Qed.

Lemma calls_delta_generate site prompt b' (w : world B) :
  calls_delta (only site 1)
              w (World b' (heap w) (trace w ++ [EvGenerate site prompt])).
Proof.
  intros s. cbn [trace]. rewrite count_calls_app. unfold only. cbn [count_calls].
  destruct (decide (site = s)); destruct (decide (s = site)); congruence || lia.
Qed.

Lemma calls_delta_silent ev b' h (w : world B) :
  match ev with EvGenerate _ _ => False | _ => True end →
  calls_delta (λ _, O) w (World b' h (trace w ++ [ev])).
Proof.
  intros Hev s. cbn [trace]. rewrite count_calls_app.
  destruct ev; try done; cbn [count_calls]; lia.
Qed.

Lemma calls_delta_trans f g (w1 w2 w3 : world B) :
  calls_delta f w1 w2 → calls_delta g w2 w3 →
  calls_delta (λ s, (f s + g s)%nat) w1 w3.
Proof. intros H12 H23 s. rewrite H23, H12. lia. Qed.

Lemma calls_delta_ext f g (w w' : world B) :
  (∀ s, f s = g s) → calls_delta f w w' → calls_delta g w w'.
Proof. intros Hfg H s. rewrite <- Hfg. apply H. Qed.

(** *** The two loops *)

Lemma usable_item_inv item :
  usable_item item = true →
  ∃ url md, safe_get_url item = Ok url ∧ safe_get_markdown item = Ok md
            ∧ has_markdown item = truthy md
            ∧ (truthy md = true → ∃ s, md = PStr s).
Proof.
  unfold usable_item, has_markdown. intros [Hurl Hmd]%andb_true_iff.
  destruct (safe_get_url item) as [url|]; [|discriminate].
  destruct (safe_get_markdown item) as [md|]; [|discriminate].
  exists url, md. repeat split; try done.
  intros Ht. destruct md; try (rewrite Ht in Hmd; discriminate). eauto.
Qed.

Section WithReplies.

(** Every completion call succeeds. *)
Hypothesis Hgen : ∀ b model prompt, is_ok (generate_content b model prompt).1 = true.

(** A usable item with markdown costs exactly one completion call. *)
Lemma summarize_document_returns s url (w : world B) :
  nonempty s = true →
  returns (summarize_document (PStr s) url) w (λ doc_summary w',
    heap w' = heap w ∧ calls_delta (only DocSummary 1) w w'
    ∧ ∃ resp b' prompt, generate_content (outside w) model_name prompt = (Ok resp, b')
                       ∧ doc_summary = text_of resp).
Proof.
  intros Hne. unfold summarize_document. cbn [truthy]. rewrite Hne. cbn [negb].
  apply returns_bind. eapply returns_lift; [reflexivity|].
  apply returns_bind. apply returns_generate; [apply Hgen|].
  intros resp b' Hg. apply returns_ret. split; [done|]. split.
  - apply calls_delta_generate.
  - eauto.
Qed.

Lemma review_loop_returns doc_limit items :
  forallb usable_item items = true →
  ∀ summaries (w : world B),
    returns (review_loop doc_limit items summaries) w (λ out w',
      heap w' = heap w
      ∧ ∃ k, calls_delta (only DocSummary k) w w'
             ∧ ((∀ b model prompt,
                   reply_nonempty (generate_content b model prompt).1 = true) →
                length out = (length summaries + k)%nat
                ∧ k = Nat.min (Z.to_nat (doc_limit - len summaries))
                              (count_markdown items))).
Proof.
  induction items as [|item items IH]; intros Hall summaries w.
  - apply returns_ret. split; [done|]. exists O. split.
    + intros s. unfold only. destruct (decide _); lia.
    + intros _. cbn [count_markdown]. lia.
  - cbn [forallb] in Hall. apply andb_true_iff in Hall as [Hitem Hall].
    specialize (IH Hall). cbn [review_loop].
    destruct (Z.leb_spec doc_limit (len summaries)) as [Hfull|Hroom].
    { apply returns_ret. split; [done|]. exists O. split.
      - intros s. unfold only. destruct (decide _); lia.
      - intros _. lia. }
    destruct (usable_item_inv item Hitem) as (url & md & Hurl & Hmd & Hhas & Hstr).
    apply returns_bind. eapply returns_lift; [exact Hurl|].
    apply returns_bind. eapply returns_lift; [exact Hmd|].
    cbn [count_markdown]. rewrite Hhas.
    destruct (truthy md) eqn:Htruthy; cbn [negb].
    + destruct (Hstr eq_refl) as [s ->]. cbn [truthy] in Htruthy.
      apply returns_bind.
      eapply returns_mono; [apply summarize_document_returns; exact Htruthy|].
      intros doc_summary w1 (Hheap1 & Hcalls1 & resp & b' & prompt & Hg & ->).
      destruct (truthy (text_of resp)) eqn:Hreply.
      * eapply returns_mono; [apply IH|].
        intros out w2 (Hheap2 & k & Hcalls2 & Hexact).
        split; [congruence|]. exists (S k). split.
        -- eapply calls_delta_ext; [|eapply calls_delta_trans; eassumption].
           intros site. unfold only. destruct (decide _); lia.
        -- intros Hne. destruct (Hexact Hne) as [Hlen Hk].
           rewrite length_app in Hlen. cbn [length] in Hlen.
           unfold len in *. rewrite length_app in Hk. cbn [length] in Hk. lia.
      * eapply returns_mono; [apply IH|].
        intros out w2 (Hheap2 & k & Hcalls2 & Hexact).
        split; [congruence|]. exists (S k). split.
        -- eapply calls_delta_ext; [|eapply calls_delta_trans; eassumption].
           intros site. unfold only. destruct (decide _); lia.
        -- intros Hne. specialize (Hne (outside w) model_name prompt).
           rewrite Hg in Hne. cbn in Hne. congruence.
    + eapply returns_mono; [apply IH|].
      intros out w2 (Hheap2 & k & Hcalls2 & Hexact).
      split; [done|]. exists k. split; [done|]. exact Hexact.
Qed.

End WithReplies.

Lemma specs_loop_returns items :
  forallb usable_item items = true →
  ∀ specs_texts specs_urls (w : world B),
    returns (specs_loop items specs_texts specs_urls) w (λ _ w', w' = w).
Proof.
  induction items as [|item items IH]; intros Hall specs_texts specs_urls w.
  - apply returns_ret. done.
  - cbn [forallb] in Hall. apply andb_true_iff in Hall as [Hitem Hall].
    destruct (usable_item_inv item Hitem) as (url & md & Hurl & Hmd & _).
    cbn [specs_loop].
    apply returns_bind. eapply returns_lift; [exact Hurl|].
    apply returns_bind. eapply returns_lift; [exact Hmd|].
    destruct (truthy md); apply IH; exact Hall.
Qed.

Lemma merged_scrape_options_returns scrape_options (w : world B) d0 :
  heap w !! DEFAULT_SCRAPE_OPTS = Some d0 →
  returns (merged_scrape_options scrape_options) w (λ opts w',
    outside w' = outside w ∧ trace w' = trace w
    ∧ is_Some (heap w' !! opts)
    ∧ heap w' !! DEFAULT_SCRAPE_OPTS = Some d0).
Proof.
  intros Hd0.
  assert (Hfresh : fresh (dom (heap w)) ≠ DEFAULT_SCRAPE_OPTS).
  { intros Heq. apply (is_fresh (dom (heap w))). rewrite Heq.
    apply elem_of_dom. eauto. }
  assert (Hcopy : returns (dict_copy DEFAULT_SCRAPE_OPTS) w (λ opts w',
            opts = fresh (dom (heap w))
            ∧ w' = World (outside w) (<[opts := d0]> (heap w)) (trace w))).
  { unfold returns, dict_copy. rewrite Hd0. eauto. }
  assert (Hplain : returns (dict_copy DEFAULT_SCRAPE_OPTS) w (λ opts w',
            outside w' = outside w ∧ trace w' = trace w
            ∧ is_Some (heap w' !! opts)
            ∧ heap w' !! DEFAULT_SCRAPE_OPTS = Some d0)).
  { eapply returns_mono; [exact Hcopy|]. intros opts w' [-> ->]. cbn.
    rewrite lookup_insert_eq, lookup_insert_ne by done. eauto. }
  unfold merged_scrape_options.
  destruct scrape_options as [overrides|]; [|exact Hplain].
  destruct (truthy (PDict overrides)); [|exact Hplain].
  apply returns_bind. eapply returns_mono; [exact Hcopy|].
  intros opts w' [-> ->]. apply returns_bind.
  unfold returns at 1, dict_update. cbn [heap outside trace].
  rewrite lookup_insert_eq. eexists _, _. split; [reflexivity|].
  apply returns_ret. cbn.
  rewrite lookup_insert_eq, !lookup_insert_ne by done. eauto.
Qed.

(** Whatever its outcome, building the options leaves the defaults alone:
    the copy lives at a fresh address and only the copy is updated. *)
Lemma merged_scrape_options_keeps_default scrape_options :
  keeps_default (merged_scrape_options (B := B) scrape_options).
Proof.
  intros w. destruct (heap w !! DEFAULT_SCRAPE_OPTS) as [d0|] eqn:Hd0.
  - destruct (merged_scrape_options_returns scrape_options w d0 Hd0)
      as (opts & w' & Hrun & _ & _ & _ & Hkeep).
    rewrite Hrun. exact Hkeep.
  - assert (Hcopy : dict_copy DEFAULT_SCRAPE_OPTS w = (Raise NameError, w)).
    { unfold dict_copy. rewrite Hd0. reflexivity. }
    unfold merged_scrape_options.
    destruct scrape_options as [overrides|]; [destruct (truthy (PDict overrides))|];
      unfold bind; rewrite Hcopy; exact Hd0.
Qed.

Lemma keeps_default_bind {A C} (m : M B A) (k : A → M B C) :
  keeps_default m → (∀ a, keeps_default (k a)) → keeps_default (bind m k).
Proof.
  intros Hm Hk w. unfold bind. specialize (Hm w).
  destruct (m w) as [[a|e] w']; cbn [snd] in *; [|exact Hm].
  rewrite Hk. exact Hm.
Qed.

Lemma keeps_default_ret {A} (a : A) : keeps_default (ret (B := B) a).
Proof. intros w. reflexivity. Qed.

Lemma keeps_default_lift {A} (r : result A) : keeps_default (lift (B := B) r).
Proof. intros w. reflexivity. Qed.

Lemma keeps_default_emit ev : keeps_default (emit (B := B) ev).
Proof. intros w. reflexivity. Qed.

Lemma keeps_default_generate site prompt : keeps_default (generate site prompt).
Proof.
  intros w. unfold generate.
  destruct (generate_content (outside w) model_name prompt). reflexivity.
Qed.

Lemma keeps_default_search query limit opts : keeps_default (search query limit opts).
Proof.
  intros w. unfold search. destruct (heap w !! opts); [|reflexivity].
  destruct (firecrawl_search (outside w) query limit g). reflexivity.
Qed.

Lemma keeps_default_summarize_document md url :
  keeps_default (summarize_document md url).
Proof.
  unfold summarize_document. destruct (negb (truthy md)); [apply keeps_default_ret|].
  apply keeps_default_bind; [apply keeps_default_lift|]. intros payload.
  apply keeps_default_bind; [apply keeps_default_generate|]. intros resp.
  apply keeps_default_ret.
Qed.

Lemma keeps_default_review_loop doc_limit items :
  ∀ summaries, keeps_default (review_loop doc_limit items summaries).
Proof.
  induction items as [|item items IH]; intros summaries; cbn [review_loop].
  - apply keeps_default_ret.
  - destruct (doc_limit <=? len summaries); [apply keeps_default_ret|].
    apply keeps_default_bind; [apply keeps_default_lift|]. intros url.
    apply keeps_default_bind; [apply keeps_default_lift|]. intros md.
    destruct (negb (truthy md)); [apply IH|].
    apply keeps_default_bind; [apply keeps_default_summarize_document|].
    intros doc_summary. destruct (truthy doc_summary); apply IH.
Qed.

Lemma keeps_default_specs_loop items :
  ∀ specs_texts specs_urls,
    keeps_default (specs_loop (B := B) items specs_texts specs_urls).
Proof.
  induction items as [|item items IH]; intros specs_texts specs_urls; cbn [specs_loop].
  - apply keeps_default_ret.
  - apply keeps_default_bind; [apply keeps_default_lift|]. intros url.
    apply keeps_default_bind; [apply keeps_default_lift|]. intros md.
    destruct (truthy md); apply IH.
Qed.

Lemma keeps_default_extract_specs specs_texts urls :
  keeps_default (extract_specs_from_docs specs_texts urls).
Proof.
  unfold extract_specs_from_docs.
  apply keeps_default_bind; [apply keeps_default_generate|]. intros resp.
  destruct (json_loads (text_of resp)); apply keeps_default_ret.
Qed.

Lemma keeps_default_search_and_summarize querySearch querySpecs searchLimit
    specLimit scrape_options max_genai_calls car_type :
  keeps_default (search_and_summarize querySearch querySpecs searchLimit specLimit
                                      scrape_options max_genai_calls car_type).
Proof.
  unfold search_and_summarize.
  apply keeps_default_bind; [apply keeps_default_emit|]. intros _.
  apply keeps_default_bind; [apply merged_scrape_options_keeps_default|]. intros opts.
  apply keeps_default_bind; [apply keeps_default_search|]. intros results.
  apply keeps_default_bind; [apply keeps_default_search|]. intros resultsSpecs.
  apply keeps_default_bind; [apply keeps_default_emit|]. intros _.
  apply keeps_default_bind; [apply keeps_default_lift|]. intros items_seq.
  apply keeps_default_bind; [apply keeps_default_review_loop|]. intros summaries.
  apply keeps_default_bind; [apply keeps_default_lift|]. intros spec_slice.
  apply keeps_default_bind; [apply keeps_default_lift|]. intros spec_seq.
  apply keeps_default_bind; [apply keeps_default_specs_loop|]. intros specs.
  apply keeps_default_bind.
  { destruct specs.1; [apply keeps_default_ret | apply keeps_default_extract_specs]. }
  intros specs_structured.
  apply keeps_default_bind; [apply keeps_default_emit|]. intros _.
  apply keeps_default_bind; [apply keeps_default_generate|]. intros resp.
  apply keeps_default_ret.
Qed.

Section WholePipeline.

(** Every completion call succeeds, and every search returns a plain list
    of usable items. *)
Hypothesis Hgen : ∀ b model prompt, is_ok (generate_content b model prompt).1 = true.
Hypothesis Hsearch : ∀ b query limit opts,
  usable_results (firecrawl_search b query limit opts).1 = true.

Lemma extract_specs_returns specs_texts urls (w : world B) :
  returns (extract_specs_from_docs specs_texts urls) w (λ specs w',
    heap w' = heap w ∧ calls_delta (only SpecExtraction 1) w w'
    ∧ ∃ resp b',
        generate_content (outside w) model_name
                         (specs_prompt (combined_specs specs_texts urls))
        = (Ok resp, b')
        ∧ specs = decoded resp).
Proof.
  unfold extract_specs_from_docs.
  apply returns_bind. apply returns_generate; [apply Hgen|].
  intros resp b' Hg.
  assert (Hpost : ∀ v, v = decoded resp →
            returns (ret v) (World b' (heap w)
                       (trace w ++ [EvGenerate SpecExtraction
                          (specs_prompt (combined_specs specs_texts urls))]))
              (λ specs w', heap w' = heap w ∧ calls_delta (only SpecExtraction 1) w w'
                 ∧ ∃ resp0 b0,
                     generate_content (outside w) model_name
                       (specs_prompt (combined_specs specs_texts urls)) = (Ok resp0, b0)
                     ∧ specs = decoded resp0)).
  { intros v ->. apply returns_ret. split; [done|]. split.
    - apply calls_delta_generate.
    - eauto. }
  unfold decoded in Hpost.
  destruct (json_loads (text_of resp)); apply Hpost; reflexivity.
Qed.

Lemma usable_slice_to (items : list pyval) hi :
  forallb usable_item items = true →
  forallb usable_item (slice_to items hi) = true.
Proof.
  rewrite !forallb_forall. intros Hall item Hin. apply Hall.
  unfold slice_to, slice in Hin.
  apply list_elem_of_In in Hin. apply list_elem_of_In.
  eapply subseteq_drop, subseteq_take, Hin.
Qed.

Lemma search_and_summarize_returns querySearch querySpecs searchLimit specLimit
    scrape_options max_genai_calls car_type (w : world B) :
  is_Some (heap w !! DEFAULT_SCRAPE_OPTS) →
  returns (search_and_summarize querySearch querySpecs searchLimit specLimit
                                scrape_options max_genai_calls car_type) w
    (λ out w',
       ∃ k e items opts b',
         firecrawl_search (outside w) querySearch
                          (Z.min searchLimit (Z.max 0 (max_genai_calls - 2))) opts
         = (Ok (PList items), b')
         ∧ calls_delta (λ s, match s with
                             | DocSummary => k
                             | SpecExtraction => e
                             | FinalSynthesis => 1%nat
                             end) w w'
         ∧ (e ≤ 1)%nat
         ∧ (∃ tr prompt b resp b'',
              trace w' = tr ++ [EvGenerate FinalSynthesis prompt]
              ∧ generate_content b model_name prompt = (Ok resp, b'')
              ∧ out.1 = text_of resp)
         ∧ ((∀ b model prompt,
               reply_nonempty (generate_content b model prompt).1 = true) →
            length out.2 = k
            ∧ k = Nat.min (Z.to_nat (Z.min searchLimit (Z.max 0 (max_genai_calls - 2))))
                          (count_markdown items))).
Proof.
  intros [d0 Hd0]. unfold search_and_summarize.
  apply returns_bind, returns_emit.
  apply returns_bind.
  eapply returns_mono; [eapply merged_scrape_options_returns; exact Hd0|].
  intros opts w1 (Hout1 & Htr1 & [d Hd] & _). cbn [outside trace] in Hout1, Htr1.
  apply returns_bind. eapply returns_search; [exact Hd | apply Hsearch |].
  intros items b1 Hs1 Hitems. rewrite Hout1 in Hs1.
  apply returns_bind. eapply returns_search; [exact Hd | apply Hsearch |].
  intros spec_items b2 Hs2 Hspec_items. cbn [normalize_results].
  apply returns_bind, returns_emit.
  apply returns_bind. eapply returns_lift; [reflexivity|].
  apply returns_bind.
  eapply returns_mono; [apply (review_loop_returns Hgen); exact Hitems|].
  intros summaries w2 (Hheap2 & k & Hcalls2 & Hexact).
  apply returns_bind. eapply returns_lift; [reflexivity|].
  apply returns_bind. eapply returns_lift; [reflexivity|].
  apply returns_bind.
  eapply returns_mono; [apply specs_loop_returns, usable_slice_to, Hspec_items|].
  intros [specs_texts specs_urls] w3 ->. cbn [fst snd].
  assert (Hbase : ∀ s, count_calls s (trace w2)
                       = (count_calls s (trace w) + only DocSummary k s)%nat).
  { intros s. rewrite (Hcalls2 s). cbn [trace]. rewrite Htr1.
    rewrite !count_calls_app. cbn [count_calls]. lia. }
  assert (Hlen : (∀ b model prompt,
                    reply_nonempty (generate_content b model prompt).1 = true) →
                 length summaries = k
                 ∧ k = Nat.min (Z.to_nat (Z.min searchLimit (Z.max 0 (max_genai_calls - 2))))
                               (count_markdown items)).
  { intros Hne. destruct (Hexact Hne) as [Hl Hk]. cbn in Hl.
    split; [exact Hl|]. rewrite Hk. f_equal. unfold len. cbn. lia. }
  destruct specs_texts as [|text specs_texts].
  - apply returns_bind, returns_ret.
    apply returns_bind, returns_emit.
    apply returns_bind. apply returns_generate; [apply Hgen|].
    intros resp b3 Hg. apply returns_ret.
    exists k, O, items, d, b1. split; [exact Hs1|].
    split; [|split; [lia | split; [cbn [trace fst]; eauto 10 | exact Hlen]]].
    intros s. cbn [trace]. rewrite !count_calls_app, Hbase. cbn [count_calls].
    unfold only. destruct s; repeat destruct (decide _); try congruence; lia.
  - apply returns_bind.
    eapply returns_mono; [apply extract_specs_returns|].
    intros specs w4 (Hheap4 & Hcalls4 & _).
    apply returns_bind, returns_emit.
    apply returns_bind. apply returns_generate; [apply Hgen|].
    intros resp b3 Hg. apply returns_ret.
    exists k, 1%nat, items, d, b1. split; [exact Hs1|].
    split; [|split; [lia | split; [cbn [trace fst]; eauto 10 | exact Hlen]]].
    intros s. cbn [trace]. rewrite !count_calls_app, (Hcalls4 s), Hbase.
    cbn [count_calls]. unfold only.
    destruct s; repeat destruct (decide _); try congruence; lia.
Qed.

End WholePipeline.

End Runs.

(** ** The orchestrator *)

Section OrchestratorClaims.


(** An item whose markdown is empty, and whose URL lookup has a result, is
    passed over: the loop goes on as if it were not there. *)
Lemma review_loop_skips_empty_markdown {B} `{E : Externals B}
    doc_limit item items summaries url md (w : world B) :
  safe_get_url item = Ok url → safe_get_markdown item = Ok md → truthy md = false →
  len summaries < doc_limit →
  review_loop doc_limit (item :: items) summaries w
  = review_loop doc_limit items summaries w.
Proof.
  intros Hurl Hmd Hfalsy Hroom. cbn [review_loop].
  destruct (Z.leb_spec doc_limit (len summaries)); [lia|].
  unfold bind, lift. rewrite Hurl, Hmd, Hfalsy. reflexivity.
Qed.

(** The heap model tells an update of the copy from an update in place:
    the latter would change the defaults. *)
Example update_in_place_changes_default :
  heap (dict_update (B := unit) DEFAULT_SCRAPE_OPTS {[ "timeout" := PInt 1 ]}
                    (initial_world tt)).2 !! DEFAULT_SCRAPE_OPTS
  ≠ Some DEFAULT_SCRAPE_OPTS_value.
Proof.
  intros Heq. apply (f_equal (λ o, o ≫= (.!! "timeout"))) in Heq.
  vm_compute in Heq. discriminate.
Qed.

(** When a completion call answers with an empty text, no summary is
    recorded and the loop keeps asking: three calls under a limit of one. *)
Example doc_calls_exceed_limit_on_empty_replies :
  count_calls DocSummary
    (trace (search_and_summarize (E := scripted three_reviews one_spec [])
              review_query specs_query 5 3 None 3 None (initial_world tt)).2)
  = 3%nat.
Proof. vm_compute. reflexivity. Qed.


(** C8: as long as the completion calls themselves succeed,
    [extract_specs_from_docs] returns the decoded value when the reply
    decodes as JSON and the wrapper [{"raw": text}] otherwise, without
    raising; and on well-formed search results the whole run returns, its
    report being the reply to the one final synthesis call it ends with,
    whatever the decoder made of the extraction reply. *)
Theorem spec_parse_failure_absorbed {B} `{E : Externals B} :
  (∀ b model prompt, is_ok (generate_content b model prompt).1 = true) →
  (∀ specs_texts urls (w : world B), ∃ resp b' w',
      generate_content (outside w) model_name
                       (specs_prompt (combined_specs specs_texts urls))
      = (Ok resp, b')
      ∧ extract_specs_from_docs specs_texts urls w
        = (Ok (match json_loads (text_of resp) with
               | Some parsed => parsed
               | None => PDict {[ "raw" := text_of resp ]}
               end), w'))
  ∧ ((∀ b query limit opts,
        usable_results (firecrawl_search b query limit opts).1 = true) →
     ∀ querySearch querySpecs searchLimit specLimit scrape_options max_genai_calls
       car_type (w : world B),
       is_Some (heap w !! DEFAULT_SCRAPE_OPTS) →
       ∃ final summaries w' tr prompt b resp b',
         search_and_summarize querySearch querySpecs searchLimit specLimit
                              scrape_options max_genai_calls car_type w
         = (Ok (final, summaries), w')
         ∧ trace w' = tr ++ [EvGenerate FinalSynthesis prompt]
         ∧ generate_content b model_name prompt = (Ok resp, b')
         ∧ final = text_of resp
         ∧ count_calls FinalSynthesis (trace w')
           = S (count_calls FinalSynthesis (trace w))).
Proof.
  intros Hgen. split.
  - intros specs_texts urls w.
    destruct (extract_specs_returns Hgen specs_texts urls w)
      as (specs & w' & Hrun & _ & _ & resp & b' & Hg & ->).
    exists resp, b', w'. split; [exact Hg | exact Hrun].
  - intros Hsearch querySearch querySpecs searchLimit specLimit scrape_options
      max_genai_calls car_type w Hheap.
    destruct (search_and_summarize_returns Hgen Hsearch querySearch querySpecs
                searchLimit specLimit scrape_options max_genai_calls car_type w Hheap)
      as ([final summaries] & w' & Hrun & k & e & items & opts & b1 & _ & Hcalls & _
          & (tr & prompt & b & resp & b' & Htr & Hg & Hfinal) & _).
    exists final, summaries, w', tr, prompt, b, resp, b'.
    split; [exact Hrun|]. split; [exact Htr|]. split; [exact Hg|].
    split; [exact Hfinal|]. rewrite (Hcalls FinalSynthesis). lia.
Qed.

Lemma spec_parse_failure_absorbed_witness :
  (∃ w', extract_specs_from_docs (E := scripted three_reviews one_spec not_json)
           [PStr a_str] [PStr a_str] (initial_world tt)
         = (Ok (PDict {[ "raw" := PStr not_json ]}), w'))
  ∧ ∃ final summaries w',
      search_and_summarize (E := scripted three_reviews one_spec not_json)
        review_query specs_query 5 3 None 10 None (initial_world tt)
      = (Ok (final, summaries), w')
      ∧ final = PStr not_json
      ∧ count_calls FinalSynthesis (trace w') = 1%nat.
Proof.
  destruct (spec_parse_failure_absorbed (E := scripted three_reviews one_spec not_json))
    as [Hextract Hrun].
  { intros b model prompt. reflexivity. }
  split.
  - destruct (Hextract [PStr a_str] [PStr a_str] (initial_world tt))
      as (resp & b' & w' & Hg & Hres).
    injection Hg as <- _. exists w'. exact Hres.
  - destruct (Hrun (λ b query limit opts,
                      match bool_decide (query = review_query) as c
                        return usable_results (Ok (if c then three_reviews else one_spec))
                               = true
                      with true => eq_refl | false => eq_refl end)
                review_query specs_query 5 3 None 10 None (initial_world tt))
      as (final & summaries & w' & tr & prompt & b & resp & b' & Hres & _ & Hg & Hfinal & Hcount).
    { eexists. reflexivity. }
    exists final, summaries, w'. split; [exact Hres|]. split; [|exact Hcount].
    injection Hg as <- _. exact Hfinal.
Defined.

(** C9 fails on the code: the orchestrator looks the URL up before it tests
    the markdown, so an item with empty markdown whose [metadata] is a
    non-empty string is not skipped: the run ends in [AttributeError]. *)
Theorem empty_markdown_item_not_skipped :
  safe_get_markdown item_metadata_not_dict = Ok empty_str
  ∧ (search_and_summarize
       (E := scripted (PList [item_metadata_not_dict]) one_spec not_json)
       review_query specs_query 5 3 None 10 None (initial_world tt)).1
    = Raise AttributeError.
Proof. split; [reflexivity|]. vm_compute. reflexivity. Qed.

(** C10: in every run of [search_and_summarize], with or without caller
    options and whatever its outcome, the dictionary [DEFAULT_SCRAPE_OPTS]
    holds after the call what it held before: the overrides go into a fresh
    copy. *)
Theorem default_scrape_opts_unchanged {B} `{E : Externals B}
    querySearch querySpecs searchLimit specLimit scrape_options max_genai_calls
    car_type (w : world B) :
  heap (search_and_summarize querySearch querySpecs searchLimit specLimit
                             scrape_options max_genai_calls car_type w).2
    !! DEFAULT_SCRAPE_OPTS
  = heap w !! DEFAULT_SCRAPE_OPTS.
Proof. apply keeps_default_search_and_summarize. Qed.

End OrchestratorClaims.

(** * Further properties *)

(** ** Trimming and slicing *)

Section TrimFacts.

Lemma lstrip_blank (t : str) : blank t = true → lstrip t = [].
Proof.
  induction t as [|c t IH]; [done|]. cbn [blank forallb lstrip].
  intros [Hc Ht]%andb_true_iff. rewrite Hc. by apply IH.
Qed.

Lemma strip_blank (t : str) : blank t = true → strip t = [].
Proof. intros H. unfold strip. by rewrite (lstrip_blank t H). Qed.

(** What [lstrip] returns has no whitespace in front. *)
Lemma lstrip_head (t : str) :
  lstrip t = [] ∨ ∃ c t', lstrip t = c :: t' ∧ isspace c = false.
Proof.
  induction t as [|c t IH]; [by left|]. cbn [lstrip].
  destruct (isspace c) eqn:Hc; [exact IH|]. right. eauto.
Qed.

Lemma lstrip_cons_ink c (t : str) : isspace c = false → lstrip (c :: t) = c :: t.
Proof. intros Hc. cbn [lstrip]. by rewrite Hc. Qed.

Lemma lstrip_idem (t : str) : lstrip (lstrip t) = lstrip t.
Proof.
  destruct (lstrip_head t) as [->|(c & t' & -> & Hc)]; [done|].
  by apply lstrip_cons_ink.
Qed.

Lemma lstrip_snoc_ink (s : str) c :
  isspace c = false → lstrip (s ++ [c]) = lstrip s ++ [c].
Proof.
  intros Hc. induction s as [|a s IH].
  - cbn. by rewrite Hc.
  - rewrite <- app_comm_cons. cbn [lstrip]. destruct (isspace a); [exact IH|done].
Qed.

Lemma rstrip_cons_ink c (t : str) :
  isspace c = false → rstrip (c :: t) = c :: rstrip t.
Proof.
  intros Hc. unfold rstrip. cbn [rev].
  rewrite (lstrip_snoc_ink _ c Hc), rev_app_distr. reflexivity.
Qed.

Lemma rstrip_idem (t : str) : rstrip (rstrip t) = rstrip t.
Proof. unfold rstrip. by rewrite rev_involutive, lstrip_idem. Qed.

Lemma rstrip_nil : rstrip [] = [].
Proof. reflexivity. Qed.

(** Trimming twice is trimming once. *)
Lemma strip_idem (t : str) : strip (strip t) = strip t.
Proof.
  unfold strip.
  destruct (lstrip_head t) as [->|(c & t' & -> & Hc)]; [reflexivity|].
  rewrite (rstrip_cons_ink c t' Hc), (lstrip_cons_ink c _ Hc).
  rewrite <- (rstrip_cons_ink c t' Hc). apply rstrip_idem.
Qed.

Lemma strip_cons_ink c (t : str) :
  isspace c = false → strip (c :: t) = c :: rstrip t.
Proof.
  intros Hc. unfold strip. rewrite (lstrip_cons_ink c t Hc).
  by apply rstrip_cons_ink.
Qed.

Lemma ink_app (s t : str) : ink (s ++ t) = ink s ++ ink t.
Proof.
  induction s as [|c s IH]; [done|]. rewrite <- app_comm_cons. cbn [ink].
  destruct (isspace c); [exact IH|]. rewrite IH. reflexivity.
Qed.

Lemma ink_rev (t : str) : ink (rev t) = rev (ink t).
Proof.
  induction t as [|c t IH]; [done|]. cbn [rev ink]. rewrite ink_app, IH. cbn [ink].
  destruct (isspace c); [by rewrite app_nil_r | reflexivity].
Qed.

Lemma ink_lstrip (t : str) : ink (lstrip t) = ink t.
Proof.
  induction t as [|c t IH]; [done|]. cbn [lstrip ink].
  destruct (isspace c) eqn:Hc; [exact IH|]. cbn [ink]. by rewrite Hc.
Qed.

Lemma ink_rstrip (t : str) : ink (rstrip t) = ink t.
Proof.
  unfold rstrip. rewrite ink_rev, ink_lstrip, ink_rev. apply rev_involutive.
Qed.

Lemma ink_strip (t : str) : ink (strip t) = ink t.
Proof. unfold strip. by rewrite ink_rstrip, ink_lstrip. Qed.

(** A prefix slice is a [take], and slicing from its length gives the rest. *)
Lemma slice_to_take {A} (t : list A) hi :
  slice_to t hi = take (Z.to_nat (slice_index (len t) hi)) t.
Proof.
  unfold slice_to, slice. fold (len t). change (Z.to_nat 0) with O.
  rewrite drop_0. f_equal. lia.
Qed.

Lemma slice_from_drop {A} (t : list A) lo :
  0 ≤ lo ≤ len t → slice_from t lo = drop (Z.to_nat lo) t.
Proof.
  intros Hlo. unfold slice_from, slice. fold (len t).
  assert (slice_index (len t) lo = lo) as ->.
  { unfold slice_index. destruct (Z.ltb_spec lo 0); lia. }
  apply take_ge. rewrite length_drop. unfold len in *. lia.
Qed.

Lemma slice_to_from {A} (t : list A) hi :
  slice_to t hi ++ slice_from t (len (slice_to t hi)) = t.
Proof.
  pose proof (slice_index_range (len t) hi (len_nonneg t)) as Hr.
  assert (Hlen : len (slice_to t hi) = slice_index (len t) hi).
  { rewrite slice_to_take. unfold len in *. rewrite length_take. lia. }
  rewrite slice_from_drop by lia. rewrite Hlen, slice_to_take.
  apply take_drop.
Qed.

End TrimFacts.

(** ** More on the chunker *)

Section ChunkerMore.

(** One pass of the loop splits the text in two: the chunk is the trimmed
    front part, the remainder the left-trimmed rest. *)
Lemma chunk_step_split text max_chars :
  ∃ k, chunk_step text max_chars
       = (strip (slice_to text k),
          lstrip (slice_from text (len (slice_to text k)))).
Proof.
  unfold chunk_step.
  destruct (max_chars / 2 <? rfind (slice_to text max_chars) (nl ++ nl)); eauto.
Qed.

(** With a positive budget the front part has at least one character. *)
Lemma chunk_step_split_pos text max_chars :
  0 < max_chars →
  ∃ k, 1 ≤ k
       ∧ chunk_step text max_chars
         = (strip (slice_to text k),
            lstrip (slice_from text (len (slice_to text k)))).
Proof.
  intros Hpos. unfold chunk_step.
  assert (0 ≤ max_chars / 2) by (apply Z.div_pos; lia).
  destruct (Z.ltb_spec (max_chars / 2)
                       (rfind (slice_to text max_chars) (nl ++ nl))).
  - eexists. split; [|reflexivity]. lia.
  - exists max_chars. split; [lia | reflexivity].
Qed.

Lemma chunk_loop_ink max_chars fuel :
  ∀ text chunks out,
    chunk_loop fuel text max_chars chunks = Some out →
    ink (concat out) = ink (concat chunks) ++ ink text.
Proof.
  induction fuel as [|fuel IH]; intros text chunks out Hrun.
  - destruct text; simpl in Hrun; [|discriminate].
    injection Hrun as <-. by rewrite app_nil_r.
  - cbn [chunk_loop] in Hrun.
    destruct (nonempty text) eqn:Hne; cbn [negb] in Hrun.
    + destruct (chunk_step_split text max_chars) as [k Hstep].
      rewrite Hstep in Hrun. apply IH in Hrun. rewrite Hrun.
      rewrite concat_app, ink_app. cbn [concat]. rewrite app_nil_r.
      rewrite ink_strip, ink_lstrip, <- app_assoc, <- ink_app.
      by rewrite slice_to_from.
    + apply nonempty_false in Hne. subst text. injection Hrun as <-.
      by rewrite app_nil_r.
Qed.

(** The text at the head of the loop never starts with whitespace, so no
    chunk is empty. *)
Lemma chunk_loop_clean max_chars :
  0 < max_chars →
  ∀ fuel text chunks out,
    lstrip text = text →
    Forall (λ c : str, c ≠ [] ∧ strip c = c) chunks →
    chunk_loop fuel text max_chars chunks = Some out →
    Forall (λ c : str, c ≠ [] ∧ strip c = c) out
    ∧ (length out ≤ length chunks + length text)%nat.
Proof.
  intros Hpos fuel. induction fuel as [|fuel IH]; intros text chunks out Hhead Hacc Hrun.
  - destruct text; simpl in Hrun; [|discriminate]. injection Hrun as <-.
    split; [exact Hacc | lia].
  - cbn [chunk_loop] in Hrun.
    destruct (nonempty text) eqn:Hne; cbn [negb] in Hrun.
    2:{ injection Hrun as <-. split; [exact Hacc | lia]. }
    pose proof (chunk_step_progress text max_chars Hpos Hne) as [_ Hless].
    destruct (chunk_step_split_pos text max_chars Hpos) as (k & Hk & Hstep).
    rewrite Hstep in Hrun, Hless. cbn [snd] in Hless.
    destruct text as [|c text']; [discriminate|].
    assert (Hc : isspace c = false).
    { cbn [lstrip] in Hhead. destruct (isspace c) eqn:Hc; [|done].
      pose proof (length_lstrip text') as Hl. rewrite Hhead in Hl.
      cbn [length] in Hl. lia. }
    assert (Hchunk : ∃ rest0, slice_to (c :: text') k = c :: rest0).
    { rewrite slice_to_take. unfold slice_index.
      destruct (Z.ltb_spec k 0); [lia|]. unfold len. cbn [length].
      destruct (Z.to_nat (Z.max 0 (Z.min (Z.of_nat (S (length text'))) k)))
        as [|a] eqn:Ha; [lia|]. cbn [take]. eauto. }
    destruct Hchunk as [rest0 Hchunk]. rewrite Hchunk in Hrun, Hless.
    apply IH in Hrun.
    + destruct Hrun as [Hall Hcount]. split; [exact Hall|].
      rewrite length_app in Hcount. unfold len in *. cbn [length] in *. lia.
    + apply lstrip_idem.
    + apply Forall_app. split; [exact Hacc|]. constructor; [|constructor].
      rewrite (strip_cons_ink c rest0 Hc). split; [done|].
      rewrite <- (strip_cons_ink c rest0 Hc). apply strip_idem.
Qed.

(** X1: with a positive budget [chunk_text] returns, and its chunks, put
    end to end, hold exactly the non-whitespace characters of the text, in
    order: only whitespace is lost at the cuts. *)
Theorem chunk_text_keeps_content text max_chars :
  0 < max_chars →
  ∃ chunks, chunk_text (length text) text max_chars = Some chunks
            ∧ ink (concat chunks) = ink text.
Proof.
  intros Hpos. unfold chunk_text.
  destruct (nonempty (strip text)) eqn:Hne; cbn [negb].
  - destruct (chunk_loop_enough_fuel max_chars Hpos (length text) (strip text) [])
      as [chunks Hrun]; [apply length_strip|].
    exists chunks. split; [exact Hrun|].
    rewrite (chunk_loop_ink _ _ _ _ _ Hrun). cbn [concat ink app]. apply ink_strip.
  - exists []. split; [reflexivity|]. apply nonempty_false in Hne.
    rewrite <- (ink_strip text), Hne. reflexivity.
Qed.

Lemma chunk_text_keeps_content_witness :
  ∃ chunks, chunk_text (length two_paragraphs) two_paragraphs 7 = Some chunks
            ∧ ink (concat chunks) = lit "aaaabbbbcc".
Proof. apply (chunk_text_keeps_content two_paragraphs 7). lia. Defined.

(** X2: with a positive budget every chunk [chunk_text] returns is
    non-empty and has no whitespace at either end, and there are at most as
    many chunks as the trimmed text has characters. *)
Theorem chunk_text_chunks_clean text max_chars :
  0 < max_chars →
  ∃ chunks, chunk_text (length text) text max_chars = Some chunks
            ∧ Forall (λ c : str, c ≠ [] ∧ strip c = c) chunks
            ∧ (length chunks ≤ length (strip text))%nat.
Proof.
  intros Hpos. unfold chunk_text.
  destruct (nonempty (strip text)) eqn:Hne; cbn [negb].
  - destruct (chunk_loop_enough_fuel max_chars Hpos (length text) (strip text) [])
      as [chunks Hrun]; [apply length_strip|].
    exists chunks. split; [exact Hrun|].
    eapply (chunk_loop_clean max_chars Hpos) in Hrun as [Hall Hcount];
      [split; [exact Hall | exact Hcount] | | constructor].
    unfold strip.
    destruct (lstrip_head text) as [->|(c & t' & -> & Hc)]; [reflexivity|].
    rewrite (rstrip_cons_ink c t' Hc). by apply lstrip_cons_ink.
  - exists []. split; [reflexivity|]. split; [constructor | cbn; lia].
Qed.

Lemma chunk_text_chunks_clean_witness :
  ∃ chunks, chunk_text (length two_paragraphs) two_paragraphs 7 = Some chunks
            ∧ Forall (λ c : str, c ≠ [] ∧ strip c = c) chunks
            ∧ (length chunks ≤ length (strip two_paragraphs))%nat.
Proof. apply (chunk_text_chunks_clean two_paragraphs 7). lia. Defined.

(** X3: a text of whitespace only gives no chunk at all, for every budget;
    a text that, once trimmed, fits the budget and has no blank line past
    the middle of the budget comes back as the single chunk of its trimmed
    form. *)
Theorem chunk_text_small_inputs text max_chars :
  (blank text = true → ∀ fuel, chunk_text fuel text max_chars = Some [])
  ∧ (0 < max_chars → strip text ≠ [] → len (strip text) ≤ max_chars →
     rfind (strip text) (nl ++ nl) ≤ max_chars / 2 →
     ∀ fuel, (1 ≤ fuel)%nat → chunk_text fuel text max_chars = Some [strip text]).
Proof.
  split.
  - intros Hblank fuel. unfold chunk_text. by rewrite (strip_blank text Hblank).
  - intros Hpos Hne Hfit Hcut fuel Hfuel. unfold chunk_text.
    set (t := strip text) in *.
    assert (Hnonempty : nonempty t = true) by (destruct t; done).
    rewrite Hnonempty. cbn [negb].
    destruct fuel as [|fuel]; [lia|]. cbn [chunk_loop]. rewrite Hnonempty. cbn [negb].
    assert (Hwhole : slice_to t max_chars = t).
    { rewrite slice_to_take. unfold slice_index.
      destruct (Z.ltb_spec max_chars 0); [lia|].
      apply take_ge. unfold len in *. lia. }
    unfold chunk_step. rewrite Hwhole.
    destruct (Z.ltb_spec (max_chars / 2) (rfind t (nl ++ nl))); [lia|].
    pose proof (len_nonneg t).
    rewrite slice_from_drop by lia. unfold len. rewrite Nat2Z.id, drop_all.
    cbn [lstrip app].
    assert (strip t = t) as -> by apply strip_idem.
    destruct fuel; reflexivity.
Qed.

Lemma chunk_text_small_inputs_witness :
  chunk_text 0 (lit "   ") 0 = Some []
  ∧ chunk_text 1 (lit "  hello ") 10 = Some [lit "hello"].
Proof.
  split.
  - apply (chunk_text_small_inputs (lit "   ") 0). reflexivity.
  - apply (chunk_text_small_inputs (lit "  hello ") 10);
      [lia | discriminate | vm_compute; discriminate | vm_compute; discriminate | lia].
Defined.

End ChunkerMore.

(** ** More on the compressor *)

Section CompressorMore.

Lemma slice_take_drop {A} (t : list A) a b :
  0 ≤ a ≤ b → b ≤ len t →
  slice t (Some a) (Some b) = take (Z.to_nat (b - a)) (drop (Z.to_nat a) t).
Proof.
  intros Ha Hb. unfold slice. fold (len t).
  assert (slice_index (len t) a = a) as ->
    by (unfold slice_index; destruct (Z.ltb_spec a 0); lia).
  assert (slice_index (len t) b = b) as ->
    by (unfold slice_index; destruct (Z.ltb_spec b 0); lia).
  reflexivity.
Qed.

(** X4: when the trimmed text is longer than a budget of at least 3, the
    compressed document is the first third-of-the-budget characters, a
    window around the middle of the text and the last third-of-the-budget
    characters of the trimmed text, each behind its separator; its length
    is 38 plus twice that third plus the width of the window. *)
Theorem compress_keeps_head_middle_tail text max_chars :
  3 ≤ max_chars → max_chars < len (strip text) →
  let t := strip text in
  let part := max_chars / 3 in
  _compress_for_single_request text max_chars
  = sep_start ++ take (Z.to_nat part) t
    ++ sep_middle
    ++ take (Z.to_nat (2 * (part / 2))) (drop (Z.to_nat (len t / 2 - part / 2)) t)
    ++ sep_end ++ drop (Z.to_nat (len t - part)) t
  ∧ len (_compress_for_single_request text max_chars)
    = separator_overhead + 2 * part + 2 * (part / 2).
Proof.
  intros Hb Hlong t part.
  assert (Hpart : 1 ≤ part ∧ 3 * part ≤ max_chars).
  { unfold part. split; [apply Z.div_le_lower_bound; lia|].
    apply Z.mul_div_le. lia. }
  assert (Hhalf : 0 ≤ part / 2 ∧ 2 * (part / 2) ≤ part).
  { split; [apply Z.div_pos; lia | apply Z.mul_div_le; lia]. }
  assert (Hmid : 0 ≤ len t / 2 ∧ 2 * (len t / 2) ≤ len t).
  { split; [apply Z.div_pos; [apply len_nonneg | lia] | apply Z.mul_div_le; lia]. }
  pose proof Hlong as Hlong'. fold t in Hlong.
  assert (Hle : part / 2 ≤ len t / 2) by (apply Z.div_le_mono; lia).
  assert (Hshape :
    _compress_for_single_request text max_chars
    = sep_start ++ take (Z.to_nat part) t
      ++ sep_middle
      ++ take (Z.to_nat (2 * (part / 2))) (drop (Z.to_nat (len t / 2 - part / 2)) t)
      ++ sep_end ++ drop (Z.to_nat (len t - part)) t).
  { rewrite (compress_long_shape text max_chars ltac:(lia) Hlong'). fold t part.
    rewrite slice_to_take.
    assert (slice_index (len t) part = part) as ->
      by (unfold slice_index; destruct (Z.ltb_spec part 0); lia).
    rewrite slice_take_drop by lia.
    replace (len t / 2 + part / 2 - (len t / 2 - part / 2)) with (2 * (part / 2))
      by lia.
    unfold slice_from, slice. fold (len t).
    assert (slice_index (len t) (- part) = len t - part) as ->
      by (unfold slice_index; destruct (Z.ltb_spec (- part) 0); lia).
    rewrite (take_ge (drop (Z.to_nat (len t - part)) t)); [reflexivity|].
    rewrite length_drop. unfold len in *. lia. }
  split; [exact Hshape|]. rewrite Hshape. unfold separator_overhead, len in *.
  rewrite !length_app, !length_take, !length_drop. lia.
Qed.

Lemma compress_keeps_head_middle_tail_witness :
  _compress_for_single_request alphabet 9
  = sep_start ++ lit "abc" ++ sep_middle ++ lit "mn" ++ sep_end ++ lit "xyz"
  ∧ len (_compress_for_single_request alphabet 9) = 46.
Proof. apply (compress_keeps_head_middle_tail alphabet 9); [lia | reflexivity]. Defined.

(** X5: with a budget of 1 or 2 and a trimmed text longer than that,
    nothing is cut: the result is the three separators followed by the
    whole trimmed text, 38 characters longer than it. *)
Theorem compress_small_budget_keeps_everything text max_chars :
  0 < max_chars < 3 → max_chars < len (strip text) →
  _compress_for_single_request text max_chars
  = sep_start ++ sep_middle ++ sep_end ++ strip text.
Proof.
  intros Hb Hlong. rewrite compress_long_shape by lia.
  assert (max_chars / 3 = 0) as -> by (apply Z.div_small; lia).
  change (0 / 2) with 0. change (- 0) with 0. rewrite Z.sub_0_r, Z.add_0_r.
  assert (Hmid : 0 ≤ len (strip text) / 2 ≤ len (strip text)).
  { split; [apply Z.div_pos; [apply len_nonneg | lia]|].
    apply Z.div_le_upper_bound; [lia|]. pose proof (len_nonneg (strip text)). lia. }
  rewrite slice_to_take, slice_take_drop, slice_from_drop by lia.
  unfold slice_index. cbn [Z.ltb Z.compare].
  replace (Z.max 0 (Z.min (len (strip text)) 0)) with 0 by lia.
  rewrite Z.sub_diag. cbn [Z.to_nat take drop app]. reflexivity.
Qed.

Lemma compress_small_budget_keeps_everything_witness :
  _compress_for_single_request alphabet 2
  = sep_start ++ sep_middle ++ sep_end ++ strip alphabet.
Proof.
  apply (compress_small_budget_keeps_everything alphabet 2); [lia | reflexivity].
Defined.

(** X6: compressing is idempotent on what fits: when the trimmed text is
    within the budget, compressing the result again returns it unchanged. *)
Theorem compress_fixed_point text max_chars :
  len (strip text) ≤ max_chars →
  _compress_for_single_request (_compress_for_single_request text max_chars) max_chars
  = _compress_for_single_request text max_chars.
Proof.
  intros Hfit. rewrite (compress_fits text max_chars Hfit).
  rewrite compress_fits; rewrite strip_idem; [reflexivity | exact Hfit].
Qed.

Lemma compress_fixed_point_witness :
  _compress_for_single_request (_compress_for_single_request (lit "  hello ") 9) 9
  = _compress_for_single_request (lit "  hello ") 9.
Proof. apply (compress_fixed_point (lit "  hello ") 9). vm_compute. discriminate. Defined.

End CompressorMore.

(** ** More on the normaliser *)

Section NormaliserMore.

Lemma por_default (r : result pyval) md :
  r |or| Ok empty_str = Ok md → truthy md = true ∨ md = empty_str.
Proof.
  unfold por. destruct r as [v|e]; [|discriminate].
  destruct (truthy v) eqn:Hv; intros [= <-]; auto.
Qed.

(** X7: whenever [safe_get_markdown] returns, the value is either truthy
    or exactly the empty string: it never hands back [None], [0] or an
    empty container. *)
Theorem safe_get_markdown_truthy_or_empty item md :
  safe_get_markdown item = Ok md → truthy md = true ∨ md = empty_str.
Proof.
  unfold safe_get_markdown.
  destruct (truthy item); cbn [negb]; [|intros [= <-]; by right].
  destruct (isinstance_dict item); [apply por_default|].
  destruct (getattr item "markdown" PNone) as [| | |s| | |] eqn:Hattr;
    try (destruct (has_dump_method item);
         [apply por_default | intros [= <-]; by right]).
  intros [= <-]. destruct s; [by right | by left].
Qed.

Lemma safe_get_markdown_truthy_or_empty_witness :
  truthy (PStr a_str) = true ∨ PStr a_str = empty_str.
Proof.
  apply (safe_get_markdown_truthy_or_empty
           (PDict {[ "data" := PDict {[ "markdown" := PStr a_str ]} ]})).
  reflexivity.
Defined.

Lemma data_or_empty d :
  data_is_dict_or_falsy d = true →
  get_ (Ok (PDict d)) "data" PNone |or| Ok empty_dict = Ok (PDict (nested_data d)).
Proof.
  unfold data_is_dict_or_falsy, nested_data. rewrite get_dict.
  destruct (d !! "data") as [v|] eqn:Hd; [|done].
  intros H. unfold por.
  destruct (truthy v) eqn:Htv; simpl in H.
  - destruct v; try discriminate. done.
  - destruct v; try done. simpl in Htv.
    apply negb_false_iff, bool_decide_eq_true in Htv. by subst.
Qed.

(** X8: on a dict-shaped item whose [data] entry is absent, falsy or a
    dictionary, [safe_get_markdown] returns the item's own [markdown] when
    it is truthy, otherwise the [markdown] of the nested [data] when that is
    truthy, otherwise the empty string. *)
Theorem safe_get_markdown_precedence d :
  data_is_dict_or_falsy d = true →
  safe_get_markdown (PDict d)
  = Ok (match first_nonempty (markdown_candidates d) with
        | Some md => md
        | None => empty_str
        end).
Proof.
  intros Hdata. unfold safe_get_markdown.
  destruct (truthy (PDict d)) eqn:Htd; cbn [negb isinstance_dict].
  - rewrite (data_or_empty d Hdata), !get_dict.
    unfold markdown_candidates, spec_field. unfold por. cbn [first_nonempty].
    destruct (d !! "markdown") as [m|]; destruct (nested_data d !! "markdown") as [m'|];
      cbn [truthy];
      repeat match goal with
             | |- context [truthy ?v] => destruct (truthy v) eqn:?
             end; try congruence; reflexivity.
  - apply truthy_empty_dict in Htd. subst d. reflexivity.
Qed.

Lemma safe_get_markdown_precedence_witness :
  safe_get_markdown
    (PDict (<["markdown" := PStr []]> {[ "data" := PDict {[ "markdown" := PStr a_str ]} ]}))
  = Ok (PStr a_str).
Proof.
  exact (safe_get_markdown_precedence
           (<["markdown" := PStr []]> {[ "data" := PDict {[ "markdown" := PStr a_str ]} ]})
           eq_refl).
Defined.

(** X9: an object-shaped, truthy item is read through its dump.  When its
    [markdown] attribute is not a string and [_model_to_dict] gives a
    dictionary, the markdown lookup on the item is the lookup on that
    dictionary; when its [url], [sourceURL] and [metadata] attributes are
    falsy, so is the URL lookup. *)
Theorem object_items_read_through_dump attrs dump dict_method d :
  _model_to_dict (PObj true attrs dump dict_method) = PDict d →
  (markdown_attribute_not_text (PObj true attrs dump dict_method) = true →
   safe_get_markdown (PObj true attrs dump dict_method) = safe_get_markdown (PDict d))
  ∧ (truthy (getattr (PObj true attrs dump dict_method) "url" PNone) = false →
     truthy (getattr (PObj true attrs dump dict_method) "sourceURL" PNone) = false →
     truthy (getattr (PObj true attrs dump dict_method) "metadata" PNone) = false →
     safe_get_url (PObj true attrs dump dict_method) = safe_get_url (PDict d)).
Proof.
  intros Hdump.
  assert (Hnodump : has_dump_method (PObj true attrs dump dict_method) = false → d = ∅).
  { intros Hno. destruct dump as [[?|]|], dict_method as [[?|]|]; try discriminate.
    cbn in Hdump. by injection Hdump as <-. }
  split.
  - intros Hattr. unfold markdown_attribute_not_text in Hattr.
    unfold safe_get_markdown at 1. cbn [truthy negb isinstance_dict].
    unfold getattr.
    assert (Hchain :
      (if has_dump_method (PObj true attrs dump dict_method)
       then get_ (Ok (_model_to_dict (PObj true attrs dump dict_method))) "markdown" PNone
            |or| get_ (get_ (Ok (_model_to_dict (PObj true attrs dump dict_method)))
                            "data" PNone |or| Ok empty_dict) "markdown" empty_str
            |or| Ok empty_str
       else Ok empty_str) = safe_get_markdown (PDict d)).
    { rewrite Hdump. unfold safe_get_markdown.
      destruct (truthy (PDict d)) eqn:Htd; cbn [negb isinstance_dict].
      - destruct (has_dump_method _) eqn:Hhas; [reflexivity|].
        rewrite (Hnodump eq_refl) in Htd. discriminate.
      - apply truthy_empty_dict in Htd. subst d.
        destruct (has_dump_method _); reflexivity. }
    destruct (attribute (PObj true attrs dump dict_method) "markdown") as [[]|];
      try discriminate; exact Hchain.
  - intros Hurl Hsrc Hmd.
    unfold safe_get_url at 1. cbn [truthy negb isinstance_dict]. unfold por at 1.
    rewrite Hurl, Hsrc, Hmd, Hdump. unfold safe_get_url.
    destruct (truthy (PDict d)) eqn:Htd; cbn [negb isinstance_dict].
    + destruct (has_dump_method _) eqn:Hhas; [reflexivity|].
      rewrite (Hnodump eq_refl) in Htd. discriminate.
    + apply truthy_empty_dict in Htd. subst d.
      destruct (has_dump_method _); reflexivity.
Qed.

Lemma object_items_read_through_dump_witness :
  safe_get_markdown (PObj true ∅ (Some (Some (PDict item_nested_url))) None)
  = safe_get_markdown (PDict item_nested_url)
  ∧ safe_get_url (PObj true ∅ (Some None) (Some (Some (PDict item_nested_url))))
    = safe_get_url (PDict item_nested_url).
Proof.
  split.
  - apply (object_items_read_through_dump ∅ (Some (Some (PDict item_nested_url))) None
             item_nested_url); reflexivity.
  - apply (object_items_read_through_dump ∅ (Some None)
             (Some (Some (PDict item_nested_url))) item_nested_url); reflexivity.
Defined.

(** X10: the legacy [safe_get_markdown] has a result on every value, and
    on a dict-shaped item whose [markdown] entry is absent or a non-empty
    string it returns what the current one returns, whenever that one
    returns. *)
Theorem legacy_safe_get_markdown_agrees :
  (∀ item, is_ok (Legacy.safe_get_markdown item) = true)
  ∧ (∀ d md, markdown_absent_or_text d = true →
       safe_get_markdown (PDict d) = Ok md →
       Legacy.safe_get_markdown (PDict d) = Ok md).
Proof.
  split; [apply legacy_safe_get_markdown_total|].
  intros d md Hmk. unfold markdown_absent_or_text in Hmk.
  unfold safe_get_markdown, Legacy.safe_get_markdown.
  destruct (truthy (PDict d)); cbn [negb isinstance_dict]; [|done].
  rewrite !get_dict. unfold por.
  destruct (d !! "markdown") as [[| | |s| | |]|]; try discriminate.
  - cbn. rewrite !Hmk. cbn. rewrite ?Hmk. intros H. exact H.
  - cbn. destruct (d !! "data") as [v|]; [|intros H; exact H].
    destruct (truthy v) eqn:Htv.
    + destruct v; try discriminate. rewrite get_dict. intros H. exact H.
    + destruct v; try (intros H; exact H).
      apply truthy_empty_dict in Htv. subst. cbn. intros H. exact H.
Qed.

Lemma legacy_safe_get_markdown_agrees_witness :
  Legacy.safe_get_markdown (PDict {[ "data" := PDict {[ "markdown" := PStr a_str ]} ]})
  = Ok (PStr a_str).
Proof.
  destruct legacy_safe_get_markdown_agrees as [_ Hagree].
  apply Hagree; reflexivity.
Defined.

(** X11: the documented response shapes resolve to the same items: a
    list is returned as it is, and a non-empty list is found under the
    [data] key of a dictionary, under its [web] key when [data] is absent or
    falsy, and under the [web] attribute of an object. *)
Theorem normalize_results_shapes items :
  items ≠ [] →
  normalize_results (PList items) = PList items
  ∧ (∀ d, d !! "data" = Some (PList items) →
       normalize_results (PDict d) = PList items)
  ∧ (∀ d, truthy (spec_field d "data") = false → d !! "web" = Some (PList items) →
       normalize_results (PDict d) = PList items)
  ∧ (∀ truth attrs dump dict_method, attrs !! "web" = Some (PList items) →
       normalize_results (PObj truth attrs dump dict_method) = PList items).
Proof.
  intros Hne.
  assert (Ht : truthy (PList items) = true) by (destruct items; done).
  split; [reflexivity|]. split; [|split].
  - intros d Hd. unfold normalize_results. rewrite !get_dict, Hd. unfold por.
    rewrite Ht. cbn iota. rewrite Ht. reflexivity.
  - intros d Hdata Hweb. unfold normalize_results, spec_field in *.
    rewrite !get_dict, Hweb. unfold por. rewrite Hdata, Ht. reflexivity.
  - intros truth attrs dump dict_method Hweb. unfold normalize_results.
    cbn [attribute]. rewrite Hweb, Ht. reflexivity.
Qed.

Lemma normalize_results_shapes_witness :
  normalize_results (PDict {[ "data" := three_reviews ]}) = three_reviews
  ∧ normalize_results (PObj true {[ "web" := three_reviews ]} None None) = three_reviews.
Proof.
  destruct (normalize_results_shapes
              [ doc "https://a.example/1" "Solid chassis, IMS bearing worries.";
                doc "https://a.example/2" "Great steering; rear main seal leaks.";
                doc "https://a.example/3" "Reliable if serviced; coolant pipes." ])
    as (_ & Hdata & _ & Hobj); [discriminate|].
  split; [apply Hdata | apply Hobj]; reflexivity.
Defined.

End NormaliserMore.

(** ** More on the orchestrator *)

Section RunsMore.

Context {B : Type} `{E : Externals B}.

Lemma merged_scrape_options_exact scrape_options (w : world B) d0 :
  heap w !! DEFAULT_SCRAPE_OPTS = Some d0 →
  merged_scrape_options scrape_options w
  = (Ok (fresh (dom (heap w))),
     World (outside w)
           (<[fresh (dom (heap w)) := merged_options scrape_options d0]> (heap w))
           (trace w)).
Proof.
  intros Hd0.
  assert (Hcopy : dict_copy DEFAULT_SCRAPE_OPTS w
            = (Ok (fresh (dom (heap w))),
               World (outside w) (<[fresh (dom (heap w)) := d0]> (heap w)) (trace w))).
  { unfold dict_copy. by rewrite Hd0. }
  unfold merged_scrape_options, merged_options.
  destruct scrape_options as [overrides|]; [|exact Hcopy].
  destruct (truthy (PDict overrides)); [|exact Hcopy].
  unfold bind. rewrite Hcopy. unfold dict_update. cbn [heap outside trace].
  rewrite lookup_insert_eq. unfold ret. by rewrite insert_insert_eq.
Qed.

Lemma merged_scrape_options_missing scrape_options (w : world B) :
  heap w !! DEFAULT_SCRAPE_OPTS = None →
  merged_scrape_options scrape_options w = (Raise NameError, w).
Proof.
  intros Hd0.
  assert (Hcopy : dict_copy DEFAULT_SCRAPE_OPTS w = (Raise NameError, w)).
  { unfold dict_copy. by rewrite Hd0. }
  unfold merged_scrape_options.
  destruct scrape_options as [overrides|]; [destruct (truthy (PDict overrides))|];
    unfold bind; by rewrite Hcopy.
Qed.

(** X12: building the search options is a copy followed by an update: it
    returns a dictionary at an address that was free, holding the caller's
    entries and, for every other key, the default entry; the rest of the
    heap, the trace and the outside world are as before. *)
Theorem merged_scrape_options_merge scrape_options (w : world B) d0 :
  heap w !! DEFAULT_SCRAPE_OPTS = Some d0 →
  ∃ opts w',
    merged_scrape_options scrape_options w = (Ok opts, w')
    ∧ heap w !! opts = None
    ∧ heap w' = <[opts := merged_options scrape_options d0]> (heap w)
    ∧ trace w' = trace w ∧ outside w' = outside w
    ∧ ∀ key, merged_options scrape_options d0 !! key
             = match scrape_options with
               | Some overrides =>
                   match overrides !! key with
                   | Some v => Some v
                   | None => d0 !! key
                   end
               | None => d0 !! key
               end.
Proof.
  intros Hd0. eexists _, _. split; [by apply merged_scrape_options_exact|].
  cbn [heap trace outside]. split.
  { apply not_elem_of_dom, is_fresh. }
  do 3 (split; [reflexivity|]).
  intros key. unfold merged_options.
  destruct scrape_options as [overrides|]; [|reflexivity].
  destruct (truthy (PDict overrides)) eqn:Ht.
  - rewrite lookup_union. destruct (overrides !! key), (d0 !! key); reflexivity.
  - apply truthy_empty_dict in Ht. subst overrides. by rewrite lookup_empty.
Qed.

(** *** Outcomes of any kind *)

Lemma after_ret {A} (a : A) (w : world B) Q : Q (Ok a) w → after (ret a) w Q.
Proof. done. Qed.

Lemma after_lift {A} (r : result A) (w : world B) Q : Q r w → after (lift r) w Q.
Proof. done. Qed.

Lemma after_bind {A C} (m : M B A) (k : A → M B C) w Q :
  after m w (λ r w', match r with
                     | Ok a => after (k a) w' Q
                     | Raise e => Q (Raise e) w'
                     end) →
  after (bind m k) w Q.
Proof.
  unfold after, bind. destruct (m w) as [[a|e] w']; cbn [fst snd]; done.
Qed.

Lemma after_mono {A} (m : M B A) w (Q Q' : result A → world B → Prop) :
  after m w Q → (∀ r w', Q r w' → Q' r w') → after m w Q'.
Proof. unfold after. eauto. Qed.

Lemma after_emit ev (w : world B) Q :
  Q (Ok ()) (World (outside w) (heap w) (trace w ++ [ev])) → after (emit ev) w Q.
Proof. done. Qed.

Lemma after_generate site prompt (w : world B) Q :
  (∀ r b', generate_content (outside w) model_name prompt = (r, b') →
     Q r (World b' (heap w) (trace w ++ [EvGenerate site prompt]))) →
  after (generate site prompt) w Q.
Proof.
  intros HQ. unfold after, generate.
  destruct (generate_content (outside w) model_name prompt) as [r b'] eqn:Hg.
  by apply HQ.
Qed.

Lemma after_search query limit opts d (w : world B) Q :
  heap w !! opts = Some d →
  (∀ r b', firecrawl_search (outside w) query limit d = (r, b') →
     Q r (World b' (heap w) (trace w ++ [EvSearch query limit d]))) →
  after (search query limit opts) w Q.
Proof.
  intros Hd HQ. unfold after, search. rewrite Hd.
  destruct (firecrawl_search (outside w) query limit d) as [r b'] eqn:Hs.
  by apply HQ.
Qed.

Lemma sites_app (tr1 tr2 : list event) : sites (tr1 ++ tr2) = sites tr1 ++ sites tr2.
Proof.
  induction tr1 as [|ev tr1 IH]; [done|]. rewrite <- app_comm_cons.
  destruct ev; cbn [sites]; by rewrite ?IH.
Qed.

Lemma searches_app (tr1 tr2 : list event) :
  searches (tr1 ++ tr2) = searches tr1 ++ searches tr2.
Proof.
  induction tr1 as [|ev tr1 IH]; [done|]. rewrite <- app_comm_cons.
  destruct ev; cbn [searches]; by rewrite ?IH.
Qed.

(** The loop stops where it is, with the summaries it has. *)
Lemma review_outcome_stop doc_limit summaries (w : world B) r :
  (∀ out, r = Ok out → out = summaries) →
  review_outcome doc_limit summaries w r w.
Proof.
  intros Hr. split; [done|]. exists [], O. rewrite app_nil_r.
  split; [done|]. split; [done|]. split; [done|]. split.
  - intros out ->%Hr. split; [lia|]. split; [lia | done].
  - intros _. lia.
Qed.

(** One summary call was made, and the loop went on from there. *)
Lemma review_outcome_step doc_limit summaries summaries' (w : world B) b' prompt r w' :
  len summaries < doc_limit →
  (summaries' = summaries
   ∧ ((∀ b model prompt,
         reply_nonempty (generate_content b model prompt).1 = true) → False)
   ∨ ∃ s, summaries' = summaries ++ [s] ∧ truthy (s_summary s) = true) →
  review_outcome doc_limit summaries'
    (World b' (heap w) (trace w ++ [EvGenerate DocSummary prompt])) r w' →
  review_outcome doc_limit summaries w r w'.
Proof.
  intros Hroom Hnext (Hheap & added & k & Htr & Hsites & Hsearches & Hout & Hcap).
  cbn [heap trace] in *. split; [exact Hheap|].
  exists (EvGenerate DocSummary prompt :: added), (S k).
  split; [by rewrite Htr, <- app_assoc|].
  split; [cbn [sites replicate]; by rewrite Hsites|].
  split; [exact Hsearches|]. unfold len in Hroom.
  destruct Hnext as [[-> Hno]|(s & -> & Hs)].
  - split.
    + intros out Hr. destruct (Hout out Hr) as (H1 & H2 & H3).
      split; [lia|]. split; [lia | exact H3].
    + intros Hne. destruct (Hno Hne).
  - rewrite length_app in *. cbn [length] in *. split.
    + intros out Hr. destruct (Hout out Hr) as (H1 & H2 & H3).
      split; [lia|]. split; [lia|]. intros Hall. apply H3.
      apply Forall_app. split; [exact Hall|]. by constructor.
    + intros Hne. specialize (Hcap Hne). lia.
Qed.

(** What the per-document loop does to the world, whatever its outcome:
    it adds summary calls only, each returned summary is truthy and was paid
    for with a call, and the list never grows past the limit. *)
Lemma review_loop_after doc_limit items :
  ∀ summaries (w : world B),
    after (review_loop doc_limit items summaries) w
          (review_outcome doc_limit summaries w).
Proof.
  induction items as [|item items IH]; intros summaries w.
  { apply review_outcome_stop. by intros out [= <-]. }
  cbn [review_loop].
  destruct (Z.leb_spec doc_limit (len summaries)) as [Hfull|Hroom].
  { apply review_outcome_stop. by intros out [= <-]. }
  apply after_bind, after_lift.
  destruct (safe_get_url item) as [url|e]; [|by apply review_outcome_stop].
  apply after_bind, after_lift.
  destruct (safe_get_markdown item) as [md|e]; [|by apply review_outcome_stop].
  destruct (truthy md) eqn:Hmd; cbn [negb]; [|apply IH].
  apply after_bind. unfold summarize_document. rewrite Hmd. cbn [negb].
  apply after_bind, after_lift.
  destruct (compress_value md 20000) as [payload|e]; [|by apply review_outcome_stop].
  apply after_bind, after_generate. intros [resp|e] b' Hg.
  - apply after_ret. destruct (truthy (text_of resp)) eqn:Hreply.
    + eapply after_mono; [apply IH|]. intros r w'.
      apply review_outcome_step; [exact Hroom|]. right. eauto.
    + eapply after_mono; [apply IH|]. intros r w'.
      apply review_outcome_step; [exact Hroom|]. left. split; [done|].
      intros Hne. specialize (Hne (outside w) model_name (document_prompt payload url)).
      rewrite Hg in Hne. cbn in Hne. congruence.
  - split; [done|].
    exists [EvGenerate DocSummary (document_prompt payload url)], 1%nat.
    cbn [trace]. split; [done|]. split; [done|]. split; [done|]. split; [done|].
    intros _. unfold len in Hroom. lia.
Qed.

(** The spec loop has no effect on the world. *)
Lemma specs_loop_pure items :
  ∀ specs_texts specs_urls (w : world B),
    (specs_loop items specs_texts specs_urls w).2 = w.
Proof.
  induction items as [|item items IH]; intros specs_texts specs_urls w; [done|].
  cbn [specs_loop]. unfold bind, lift.
  destruct (safe_get_url item); [|done].
  destruct (safe_get_markdown item) as [md|]; [|done].
  destruct (truthy md); apply IH.
Qed.

(** Membership in the list of closing sequences. *)
Ltac closing := unfold closing_calls; apply list_elem_of_In; cbn; tauto.

Lemma specs_loop_after items specs_texts specs_urls (w : world B)
    (Q : result (list pyval * list pyval) → world B → Prop) :
  (∀ r, Q r w) → after (specs_loop items specs_texts specs_urls) w Q.
Proof.
  intros HQ. unfold after. rewrite specs_loop_pure. apply HQ.
Qed.

(** A run that ends in an exception. *)
Lemma run_outcome_raise querySearch querySpecs searchLimit specLimit scrape_options
    max_genai_calls (w w' : world B) e added k tail :
  trace w' = trace w ++ added →
  sites added = replicate k DocSummary ++ tail →
  tail ∈ closing_calls →
  searches added `prefix_of`
    expected_searches querySearch querySpecs searchLimit specLimit scrape_options
                      max_genai_calls w →
  ((∀ b model prompt, reply_nonempty (generate_content b model prompt).1 = true) →
   (k ≤ Z.to_nat (Z.min searchLimit (Z.max 0 (max_genai_calls - 2))))%nat) →
  run_outcome querySearch querySpecs searchLimit specLimit scrape_options
              max_genai_calls w (Raise e) w'.
Proof.
  intros Htr Hsites Htail Hsearches Hcap. exists added, k, tail.
  split; [exact Htr|]. split; [exact Hsites|]. split; [exact Htail|].
  split; [exact Hsearches|]. split; [discriminate | exact Hcap].
Qed.

(** The shape of every run of [search_and_summarize]. *)
Lemma search_and_summarize_after querySearch querySpecs searchLimit specLimit
    scrape_options max_genai_calls car_type (w : world B) :
  after (search_and_summarize querySearch querySpecs searchLimit specLimit
                              scrape_options max_genai_calls car_type) w
        (run_outcome querySearch querySpecs searchLimit specLimit scrape_options
                     max_genai_calls w).
Proof.
  set (doc_limit := Z.min searchLimit (Z.max 0 (max_genai_calls - 2))).
  unfold search_and_summarize. fold doc_limit.
  apply after_bind, after_emit. apply after_bind.
  destruct (heap w !! DEFAULT_SCRAPE_OPTS) as [d0|] eqn:Hd0.
  2:{ unfold after. rewrite merged_scrape_options_missing by exact Hd0.
      cbn [fst snd]. eapply (run_outcome_raise _ _ _ _ _ _ _ _ _ _ O []);
        [reflexivity | reflexivity | closing | apply prefix_nil | lia]. }
  assert (Hexp : expected_searches querySearch querySpecs searchLimit specLimit
                   scrape_options max_genai_calls w
                 = [ (querySearch, doc_limit, merged_options scrape_options d0);
                     (querySpecs, specLimit, merged_options scrape_options d0) ]).
  { unfold expected_searches. by rewrite Hd0. }
  unfold after at 1. rewrite (merged_scrape_options_exact scrape_options _ d0)
    by exact Hd0.
  cbn [fst snd heap outside trace].
  set (opts := fresh (dom (heap w))).
  set (merged := merged_options scrape_options d0) in *.
  apply after_bind.
  eapply after_search; [cbn [heap]; apply lookup_insert_eq|].
  intros [results|e] b1 Hs1; cbn [heap outside trace].
  2:{ eapply (run_outcome_raise _ _ _ _ _ _ _ _ _ _ O []);
        [cbn [trace]; by rewrite <- !app_assoc | reflexivity | closing
        | rewrite Hexp; cbn; by eexists | lia]. }
  apply after_bind.
  eapply after_search; [cbn [heap]; apply lookup_insert_eq|].
  intros [resultsSpecs|e] b2 Hs2; cbn [heap outside trace].
  2:{ eapply (run_outcome_raise _ _ _ _ _ _ _ _ _ _ O []);
        [cbn [trace]; by rewrite <- !app_assoc | reflexivity | closing
        | rewrite Hexp; cbn; by eexists | lia]. }
  apply after_bind, after_emit. cbn [heap outside trace].
  apply after_bind, after_lift.
  match goal with |- match ?r with _ => _ end => destruct r as [items_seq|e] end.
  2:{ eapply (run_outcome_raise _ _ _ _ _ _ _ _ _ _ O []);
        [cbn [trace]; by rewrite <- !app_assoc | reflexivity | closing
        | rewrite Hexp; cbn; by eexists | lia]. }
  apply after_bind. eapply after_mono; [apply review_loop_after|].
  intros r w5 (Hheap5 & added & k & Htr5 & Hsites & Hsearches & Hout & Hcap).
  cbn [heap trace length] in *.
  assert (Hcap' : (∀ b model prompt,
                     reply_nonempty (generate_content b model prompt).1 = true) →
                  (k ≤ Z.to_nat doc_limit)%nat).
  { intros Hne. specialize (Hcap Hne). lia. }
  assert (Hpre : ∀ tail_events,
            searches tail_events = [] →
            searches ([EvPrint (lit "Running")] ++ [EvSearch querySearch doc_limit merged]
                      ++ [EvSearch querySpecs specLimit merged]
                      ++ [EvPrint (lit "FireCrawl done")] ++ added ++ tail_events)
            = [ (querySearch, doc_limit, merged); (querySpecs, specLimit, merged) ]).
  { intros tail_events Ht. cbn [app searches]. by rewrite searches_app, Hsearches, Ht. }
  assert (Hsit : ∀ tail_events,
            sites ([EvPrint (lit "Running")] ++ [EvSearch querySearch doc_limit merged]
                   ++ [EvSearch querySpecs specLimit merged]
                   ++ [EvPrint (lit "FireCrawl done")] ++ added ++ tail_events)
            = replicate k DocSummary ++ sites tail_events).
  { intros tail_events. cbn [app sites]. by rewrite sites_app, Hsites. }
  assert (Hraise : ∀ e tail_events w',
            trace w' = trace w5 ++ tail_events →
            searches tail_events = [] → sites tail_events ∈ closing_calls →
            run_outcome querySearch querySpecs searchLimit specLimit scrape_options
                        max_genai_calls w (Raise e) w').
  { intros e tail_events w' Htr Hnos Hcl.
    eapply (run_outcome_raise _ _ _ _ _ _ _ _ _ _ k (sites tail_events));
      [rewrite Htr, Htr5, <- !app_assoc; reflexivity | apply Hsit | exact Hcl
      | rewrite Hexp, (Hpre _ Hnos); done | exact Hcap']. }
  destruct r as [summaries|e].
  2:{ apply (Hraise e [] w5); [by rewrite app_nil_r | done | closing]. }
  destruct (Hout summaries eq_refl) as (Hlen1 & Hlen2 & Hall).
  apply after_bind, after_lift.
  match goal with |- match ?r with _ => _ end => destruct r as [spec_slice|e] end.
  2:{ apply (Hraise e [] w5); [by rewrite app_nil_r | done | closing]. }
  apply after_bind, after_lift.
  match goal with |- match ?r with _ => _ end => destruct r as [spec_seq|e] end.
  2:{ apply (Hraise e [] w5); [by rewrite app_nil_r | done | closing]. }
  apply after_bind, specs_loop_after. intros [[specs_texts specs_urls]|e].
  2:{ apply (Hraise e [] w5); [by rewrite app_nil_r | done | closing]. }
  cbn [fst snd].
  assert (Hfinish : ∀ specs_structured spec_events w6,
            trace w6 = trace w5 ++ spec_events →
            spec_events = [] ∨ (∃ p, spec_events = [EvGenerate SpecExtraction p]) →
            after (let! _ := print (lit "Summaries done, writing report") in
                   let! resp := generate FinalSynthesis
                     (final_prompt
                        match car_type with
                        | Some c => if nonempty c then c else querySearch
                        | None => querySearch
                        end
                        (join (nl ++ nl)
                           (map (λ s, lit "From " ++ fmt (s_url s) ++ lit ":" ++ nl
                                      ++ fmt (s_summary s)) summaries))
                        match specs_texts with
                        | [] => lit "No specs found."
                        | _ :: _ => json_dumps specs_structured
                        end) in
                   ret (text_of resp, summaries)) w6
                  (run_outcome querySearch querySpecs searchLimit specLimit
                               scrape_options max_genai_calls w)).
  { intros specs_structured spec_events w6 Htr6 Hspec.
    apply after_bind, after_emit. apply after_bind, after_generate.
    intros [resp|e] b3 Hg; cbn [trace].
    - apply after_ret.
      eexists ([EvPrint (lit "Running")] ++ [EvSearch querySearch doc_limit merged]
               ++ [EvSearch querySpecs specLimit merged]
               ++ [EvPrint (lit "FireCrawl done")] ++ added ++ spec_events
               ++ [EvPrint (lit "Summaries done, writing report");
                   EvGenerate FinalSynthesis _]), k, _.
      split; [cbn [trace]; rewrite Htr6, Htr5, <- !app_assoc; reflexivity|].
      split; [rewrite Hsit, sites_app; reflexivity|].
      assert (Hnos : ∀ a p, searches (spec_events
                                        ++ [EvPrint a; EvGenerate FinalSynthesis p]) = []).
      { intros a p. destruct Hspec as [->|[p' ->]]; reflexivity. }
      rewrite Hexp, !Hpre by apply Hnos.
      split; [destruct Hspec as [->|[p ->]]; cbn [sites app]; closing|].
      split; [done|]. split; [|exact Hcap'].
      intros final summaries' [= <- <-].
      split; [destruct Hspec as [->|[p ->]]; cbn [sites app]; [by left | by right]|].
      split; [done|]. split; [lia|]. split; [lia|].
      apply Hall. constructor.
    - eapply (Hraise e (spec_events ++ [EvPrint (lit "Summaries done, writing report");
                                        EvGenerate FinalSynthesis _]));
        [cbn [trace]; rewrite Htr6, <- !app_assoc; reflexivity | |].
      + destruct Hspec as [->|[p ->]]; reflexivity.
      + destruct Hspec as [->|[p ->]]; cbn [sites app]; closing. }
  apply after_bind.
  destruct specs_texts as [|text specs_texts].
  - apply after_ret. apply (Hfinish (PList []) []); [by rewrite app_nil_r | by left].
  - unfold extract_specs_from_docs. apply after_bind, after_generate.
    intros [resp|e] b3 Hg; cbn [trace].
    + assert (Hnext : ∀ v, after (ret (B := B) v)
                (World b3 (heap w5)
                   (trace w5 ++ [EvGenerate SpecExtraction
                      (specs_prompt (combined_specs (text :: specs_texts) specs_urls))]))
                (λ r w', match r with
                         | Ok a =>
                             after (let! _ := print (lit "Summaries done, writing report") in
                                    let! resp := generate FinalSynthesis
                                      (final_prompt
                                         match car_type with
                                         | Some c => if nonempty c then c else querySearch
                                         | None => querySearch
                                         end
                                         (join (nl ++ nl)
                                            (map (λ s, lit "From " ++ fmt (s_url s)
                                                       ++ lit ":" ++ nl
                                                       ++ fmt (s_summary s)) summaries))
                                         (json_dumps a)) in
                                    ret (text_of resp, summaries)) w'
                                   (run_outcome querySearch querySpecs searchLimit
                                      specLimit scrape_options max_genai_calls w)
                         | Raise e0 =>
                             run_outcome querySearch querySpecs searchLimit specLimit
                               scrape_options max_genai_calls w (Raise e0) w'
                         end)).
      { intros v. apply after_ret.
        eapply (Hfinish v [EvGenerate SpecExtraction _]); [reflexivity | eauto]. }
      destruct (json_loads (text_of resp)); apply Hnext.
    + eapply (Hraise e [EvGenerate SpecExtraction _]);
        [reflexivity | reflexivity | cbn [sites]; closing].
Qed.

(** X13: whatever the backends answer and however the run ends, the
    completion calls of [search_and_summarize] come in one order: some
    per-document calls, then at most one spec-extraction call, then at most
    one final-synthesis call; a run that returns ends with its one
    final-synthesis call. *)
Theorem completion_calls_in_order querySearch querySpecs searchLimit specLimit
    scrape_options max_genai_calls car_type (w : world B) :
  let run := search_and_summarize querySearch querySpecs searchLimit specLimit
                                  scrape_options max_genai_calls car_type w in
  ∃ k tail,
    sites (trace run.2) = sites (trace w) ++ replicate k DocSummary ++ tail
    ∧ tail ∈ closing_calls
    ∧ (is_ok run.1 = true →
       tail = [FinalSynthesis] ∨ tail = [SpecExtraction; FinalSynthesis]).
Proof.
  intros run.
  destruct (search_and_summarize_after querySearch querySpecs searchLimit specLimit
              scrape_options max_genai_calls car_type w)
    as (added & k & tail & Htr & Hsites & Htail & _ & Hok & _).
  fold run in Htr, Hok. exists k, tail.
  split; [by rewrite Htr, sites_app, Hsites|]. split; [exact Htail|].
  intros Hr. destruct run.1 as [[final summaries]|e]; [|discriminate].
  by destruct (Hok final summaries eq_refl) as [Ht _].
Qed.

(** X14: when every completion call answers with a non-empty text, a run
    makes at most [max(2, max_genai_calls)] completion calls, whatever the
    searches return and however it ends. *)
Theorem completion_calls_within_budget querySearch querySpecs searchLimit specLimit
    scrape_options max_genai_calls car_type (w : world B) :
  (∀ b model prompt, reply_nonempty (generate_content b model prompt).1 = true) →
  let run := search_and_summarize querySearch querySpecs searchLimit specLimit
                                  scrape_options max_genai_calls car_type w in
  Z.of_nat (length (sites (trace run.2)))
  ≤ Z.of_nat (length (sites (trace w))) + Z.max 2 max_genai_calls.
Proof.
  intros Hne run.
  destruct (search_and_summarize_after querySearch querySpecs searchLimit specLimit
              scrape_options max_genai_calls car_type w)
    as (added & k & tail & Htr & Hsites & Htail & _ & _ & Hcap).
  fold run in Htr. specialize (Hcap Hne).
  rewrite Htr, sites_app, Hsites, !length_app, length_replicate.
  assert (Htl : (length tail ≤ 2)%nat).
  { unfold closing_calls in Htail. apply list_elem_of_In in Htail. cbn in Htail.
    destruct Htail as [<-|[<-|[<-|[<-|[]]]]]; cbn; lia. }
  lia.
Qed.

(** X15: whenever a run returns, whatever the backends answered, its list
    of summaries has at most [max(0, doc_limit)] entries, every entry has a
    non-empty summary text, and there are no more entries than per-document
    calls were made. *)
Theorem returned_summaries_bounded querySearch querySpecs searchLimit specLimit
    scrape_options max_genai_calls car_type (w w' : world B) final summaries :
  search_and_summarize querySearch querySpecs searchLimit specLimit
                       scrape_options max_genai_calls car_type w
  = (Ok (final, summaries), w') →
  Z.of_nat (length summaries)
  ≤ Z.max 0 (Z.min searchLimit (Z.max 0 (max_genai_calls - 2)))
  ∧ Forall (λ s, truthy (s_summary s) = true) summaries
  ∧ (count_calls DocSummary (trace w) + length summaries
     ≤ count_calls DocSummary (trace w'))%nat.
Proof.
  intros Hrun.
  destruct (search_and_summarize_after querySearch querySpecs searchLimit specLimit
              scrape_options max_genai_calls car_type w)
    as (added & k & tail & Htr & Hsites & Htail & _ & Hok & _).
  rewrite Hrun in Htr, Hok. cbn [fst snd] in Htr, Hok.
  destruct (Hok final summaries eq_refl) as (Ht & _ & Hlen & Hk & Hall).
  split; [lia|]. split; [exact Hall|].
  rewrite Htr, count_calls_app.
  assert (Hcount : ∀ tr, count_calls DocSummary tr
                         = length (filter (λ s, s = DocSummary) (sites tr))).
  { induction tr as [|ev tr IH]; [done|].
    destruct ev; cbn [count_calls sites]; try exact IH.
    rewrite filter_cons. destruct (decide (site = DocSummary)); cbn; lia. }
  rewrite (Hcount added), Hsites, filter_app, length_app.
  assert (filter (λ s, s = DocSummary) (replicate k DocSummary) = replicate k DocSummary)
    as ->.
  { clear. induction k as [|k IH]; [done|]. cbn [replicate].
    rewrite filter_cons_True by done. by rewrite IH. }
  rewrite length_replicate. lia.
Qed.

(** X16: the two searches of a run are issued with the same options, the
    defaults overridden by the caller's entries, the review search with
    limit [doc_limit] and the spec search with [spec_limit]; no other search
    is made, and a run that returns has made both. *)
Theorem searches_use_merged_options querySearch querySpecs searchLimit specLimit
    scrape_options max_genai_calls car_type (w : world B) :
  let run := search_and_summarize querySearch querySpecs searchLimit specLimit
                                  scrape_options max_genai_calls car_type w in
  let expected := expected_searches querySearch querySpecs searchLimit specLimit
                                    scrape_options max_genai_calls w in
  ∃ made, searches (trace run.2) = searches (trace w) ++ made
          ∧ made `prefix_of` expected
          ∧ (is_ok run.1 = true → made = expected).
Proof.
  intros run expected.
  destruct (search_and_summarize_after querySearch querySpecs searchLimit specLimit
              scrape_options max_genai_calls car_type w)
    as (added & k & tail & Htr & _ & _ & Hpre & Hok & _).
  fold run in Htr, Hok. exists (searches added).
  split; [by rewrite Htr, searches_app|]. split; [exact Hpre|].
  intros Hr. destruct run.1 as [[final summaries]|e]; [|discriminate].
  by destruct (Hok final summaries eq_refl) as (_ & Hs & _).
Qed.

(** *** What the loops collect *)

Lemma getters_of_item item url md :
  safe_get_url item = Ok url → safe_get_markdown item = Ok md →
  url_of item = url ∧ markdown_of item = md ∧ has_markdown item = truthy md.
Proof.
  intros Hurl Hmd. unfold url_of, markdown_of, has_markdown.
  by rewrite Hurl, Hmd.
Qed.

Lemma specs_loop_exact items :
  ∀ specs_texts specs_urls (w : world B) texts urls w',
    specs_loop items specs_texts specs_urls w = (Ok (texts, urls), w') →
    w' = w
    ∧ texts = specs_texts ++ collected_texts items
    ∧ urls = specs_urls ++ collected_urls items.
Proof.
  induction items as [|item items IH]; intros specs_texts specs_urls w texts urls w'.
  - intros [= <- <- <-]. by rewrite !app_nil_r.
  - cbn [specs_loop collected_texts collected_urls]. unfold bind, lift.
    destruct (safe_get_url item) as [url|] eqn:Hurl; [|discriminate].
    destruct (safe_get_markdown item) as [md|] eqn:Hmd; [|discriminate].
    destruct (getters_of_item item url md Hurl Hmd) as (-> & -> & ->).
    destruct (truthy md); intros Hrun; apply IH in Hrun as (-> & -> & ->);
      by rewrite <- ?app_assoc.
Qed.

Lemma collected_truthy items :
  Forall (λ v, truthy v = true) (collected_texts items)
  ∧ Forall (λ v, truthy v = true) (collected_urls items)
  ∧ length (collected_texts items) = length (collected_urls items)
  ∧ (length (collected_texts items) ≤ length items)%nat.
Proof.
  induction items as [|item items (IH1 & IH2 & IH3 & IH4)].
  - repeat split; constructor.
  - cbn [collected_texts collected_urls].
    destruct (has_markdown item) eqn:Hhas; cbn [length];
      [|repeat split; try done; lia].
    repeat split; try lia.
    + constructor; [|exact IH1]. unfold has_markdown, markdown_of in *.
      destruct (safe_get_markdown item); [done | discriminate].
    + constructor; [|exact IH2].
      destruct (truthy (url_of item)) eqn:Hu; [exact Hu | reflexivity].
Qed.

(** X17: whenever the spec loop returns, it has left the world alone and
    collected, in order, the markdown of exactly the items that have some,
    each paired with a truthy URL label (the item's URL, or [unknown]): the
    two lists have the same length, at most the number of items. *)
Theorem spec_documents_paired items (w w' : world B) texts urls :
  specs_loop items [] [] w = (Ok (texts, urls), w') →
  w' = w
  ∧ texts = collected_texts items ∧ urls = collected_urls items
  ∧ length texts = length urls ∧ (length texts ≤ length items)%nat
  ∧ Forall (λ v, truthy v = true) texts
  ∧ Forall (λ v, truthy v = true) urls.
Proof.
  intros Hrun. apply specs_loop_exact in Hrun as (-> & -> & ->). cbn [app].
  destruct (collected_truthy items) as (H1 & H2 & H3 & H4). done.
Qed.


(** A non-empty string costs one completion call, whose reply is the
    summary. *)
Lemma summarize_document_exact s url (w : world B) resp b' :
  nonempty s = true →
  generate_content (outside w) model_name
                   (document_prompt (_compress_for_single_request s 20000) url)
  = (Ok resp, b') →
  summarize_document (PStr s) url w
  = (Ok (text_of resp),
     World b' (heap w)
           (trace w ++ [EvGenerate DocSummary
                          (document_prompt (_compress_for_single_request s 20000) url)])).
Proof.
  intros Hne Hg. unfold summarize_document. cbn [truthy]. rewrite Hne. cbn [negb].
  unfold bind, lift, generate, ret. cbn [compress_value]. by rewrite Hg.
Qed.

Section Succeeding.

Hypothesis Hgen : ∀ b model prompt, is_ok (generate_content b model prompt).1 = true.

(** The per-document loop on usable items: its calls, and, when the
    replies are non-empty, the URLs of its summaries. *)
Lemma review_loop_run doc_limit items :
  forallb usable_item items = true →
  ∀ summaries (w : world B),
    returns (review_loop doc_limit items summaries) w (λ out w',
      heap w' = heap w
      ∧ ∃ docs, trace w' = trace w ++ docs ∧ Forall is_doc_call docs
          ∧ ((∀ b model prompt,
                reply_nonempty (generate_content b model prompt).1 = true) →
             map s_url out
             = map s_url summaries
               ++ take (Z.to_nat (doc_limit - len summaries)) (document_urls items)
             ∧ length out = (length summaries + length docs)%nat)).
Proof.
  induction items as [|item items IH]; intros Hall summaries w.
  - apply returns_ret. split; [done|]. exists []. rewrite app_nil_r.
    split; [done|]. split; [constructor|]. intros _. cbn [document_urls].
    rewrite take_nil, app_nil_r. cbn. split; [done | lia].
  - cbn [forallb] in Hall. apply andb_true_iff in Hall as [Hitem Hall].
    specialize (IH Hall). cbn [review_loop].
    destruct (Z.leb_spec doc_limit (len summaries)) as [Hfull|Hroom].
    { apply returns_ret. split; [done|]. exists []. rewrite app_nil_r.
      split; [done|]. split; [constructor|]. intros _.
      replace (Z.to_nat (doc_limit - len summaries)) with O by lia.
      rewrite take_0, app_nil_r. cbn. split; [done | lia]. }
    destruct (usable_item_inv item Hitem) as (url & md & Hurl & Hmd & Hhas & Hstr).
    destruct (getters_of_item item url md Hurl Hmd) as (Hurl_of & _ & _).
    apply returns_bind. eapply returns_lift; [exact Hurl|].
    apply returns_bind. eapply returns_lift; [exact Hmd|].
    cbn [document_urls]. rewrite Hhas, Hurl_of.
    destruct (truthy md) eqn:Htruthy; cbn [negb].
    + destruct (Hstr eq_refl) as [s ->]. cbn [truthy] in Htruthy.
      set (prompt := document_prompt (_compress_for_single_request s 20000) url).
      pose proof (Hgen (outside w) model_name prompt) as Hok.
      destruct (generate_content (outside w) model_name prompt) as [[resp|e] b'] eqn:Hg;
        [|discriminate].
      apply returns_bind.
      exists (text_of resp),
             (World b' (heap w) (trace w ++ [EvGenerate DocSummary prompt])).
      split; [by apply summarize_document_exact|].
      assert (Hn : Z.to_nat (doc_limit - len summaries)
                   = S (Z.to_nat (doc_limit
                                  - len (summaries ++ [Summary url (text_of resp)])))).
      { unfold len in *. rewrite length_app. cbn [length]. lia. }
      destruct (truthy (text_of resp)) eqn:Hreply.
      * eapply returns_mono; [apply IH|].
        intros out w2 (Hheap2 & docs & Htr2 & Hdocs & Hexact).
        cbn [heap trace] in *. split; [done|].
        exists (EvGenerate DocSummary prompt :: docs).
        split; [by rewrite Htr2, <- app_assoc|]. split; [by constructor|].
        intros Hne. destruct (Hexact Hne) as [Hurls Hlen].
        rewrite Hn. cbn [take]. rewrite Hurls, map_app, <- app_assoc.
        split; [reflexivity|]. rewrite length_app in Hlen. cbn [length] in *. lia.
      * eapply returns_mono; [apply IH|].
        intros out w2 (Hheap2 & docs & Htr2 & Hdocs & Hexact).
        cbn [heap trace] in *. split; [done|].
        exists (EvGenerate DocSummary prompt :: docs).
        split; [by rewrite Htr2, <- app_assoc|]. split; [by constructor|].
        intros Hne. specialize (Hne (outside w) model_name prompt).
        rewrite Hg in Hne. cbn in Hne. congruence.
    + eapply returns_mono; [apply IH|].
      intros out w2 (Hheap2 & docs & Htr2 & Hdocs & Hexact).
      split; [done|]. exists docs. split; [done|]. split; [done|]. exact Hexact.
Qed.

Lemma specs_loop_returns_exact items specs_texts specs_urls (w : world B) :
  forallb usable_item items = true →
  specs_loop items specs_texts specs_urls w
  = (Ok (specs_texts ++ collected_texts items, specs_urls ++ collected_urls items), w).
Proof.
  intros Hall.
  destruct (specs_loop_returns items Hall specs_texts specs_urls w)
    as ([texts urls] & w' & Hrun & _).
  destruct (specs_loop_exact _ _ _ _ _ _ _ Hrun) as (-> & -> & ->). exact Hrun.
Qed.

Lemma extract_specs_exact specs_texts urls (w : world B) resp b' :
  generate_content (outside w) model_name
                   (specs_prompt (combined_specs specs_texts urls))
  = (Ok resp, b') →
  extract_specs_from_docs specs_texts urls w
  = (Ok (decoded resp),
     World b' (heap w)
           (trace w ++ [EvGenerate SpecExtraction
                          (specs_prompt (combined_specs specs_texts urls))])).
Proof.
  intros Hg. unfold extract_specs_from_docs, bind, generate, decoded. rewrite Hg.
  destruct (json_loads (text_of resp)); reflexivity.
Qed.

(** The whole trace of a run whose two searches return results that
    normalise to usable items, whatever shape they come in. *)
Lemma search_and_summarize_run querySearch querySpecs searchLimit specLimit
    scrape_options max_genai_calls car_type (w : world B) d0
    results b1 resultsSpecs b2 items spec_seq :
  heap w !! DEFAULT_SCRAPE_OPTS = Some d0 →
  let doc_limit := Z.min searchLimit (Z.max 0 (max_genai_calls - 2)) in
  let merged := merged_options scrape_options d0 in
  firecrawl_search (outside w) querySearch doc_limit merged = (Ok results, b1) →
  firecrawl_search b1 querySpecs specLimit merged = (Ok resultsSpecs, b2) →
  review_items results = Ok items → forallb usable_item items = true →
  spec_items resultsSpecs specLimit = Ok spec_seq →
  forallb usable_item spec_seq = true →
  returns (search_and_summarize querySearch querySpecs searchLimit specLimit
                                scrape_options max_genai_calls car_type) w
    (λ out w',
       ∃ docs spec_events specsDoc,
         trace w'
         = trace w
           ++ [ EvPrint (lit "Running"); EvSearch querySearch doc_limit merged;
                EvSearch querySpecs specLimit merged; EvPrint (lit "FireCrawl done") ]
           ++ docs ++ spec_events
           ++ [ EvPrint (lit "Summaries done, writing report");
                EvGenerate FinalSynthesis
                  (final_prompt (car_label car_type querySearch)
                                (combined_summaries out.2) specsDoc) ]
         ∧ Forall is_doc_call docs
         ∧ match collected_texts spec_seq with
           | [] => spec_events = [] ∧ specsDoc = lit "No specs found."
           | _ :: _ =>
               ∃ resp b b',
                 spec_events
                 = [ EvGenerate SpecExtraction
                       (specs_prompt
                          (combined_specs (collected_texts spec_seq)
                                          (collected_urls spec_seq))) ]
                 ∧ generate_content b model_name
                     (specs_prompt
                        (combined_specs (collected_texts spec_seq)
                                        (collected_urls spec_seq)))
                   = (Ok resp, b')
                 ∧ specsDoc = json_dumps (decoded resp)
           end
         ∧ ((∀ b model prompt,
               reply_nonempty (generate_content b model prompt).1 = true) →
            map s_url out.2 = take (Z.to_nat doc_limit) (document_urls items)
            ∧ length out.2 = length docs)).
Proof.
  intros Hd0 doc_limit merged Hs1 Hs2 Hitems Husable Hspec Hspec_usable.
  unfold search_and_summarize. fold doc_limit.
  apply returns_bind, returns_emit. apply returns_bind.
  eexists _, _. split; [apply (merged_scrape_options_exact scrape_options _ d0); exact Hd0|].
  cbn [heap outside trace]. fold merged.
  apply returns_bind. eexists _, _. split.
  { unfold search. cbn [heap outside trace]. rewrite lookup_insert_eq, Hs1. reflexivity. }
  apply returns_bind. eexists _, _. split.
  { unfold search. cbn [heap outside trace]. rewrite lookup_insert_eq, Hs2. reflexivity. }
  cbn [heap outside trace].
  apply returns_bind, returns_emit.
  apply returns_bind. eapply returns_lift; [exact Hitems|].
  apply returns_bind.
  eapply returns_mono; [apply review_loop_run; exact Husable|].
  intros summaries w2 (Hheap2 & docs & Htr2 & Hdocs & Hexact).
  cbn [heap outside trace] in *.
  unfold spec_items in Hspec.
  destruct (slice_value (normalize_results resultsSpecs) specLimit)
    as [spec_slice|] eqn:Hslice; [|discriminate].
  apply returns_bind. eapply returns_lift; [reflexivity|].
  apply returns_bind. eapply returns_lift; [exact Hspec|].
  apply returns_bind.
  eexists _, _. split; [apply specs_loop_returns_exact, Hspec_usable|].
  cbn [fst snd app].
  assert (Hurls : (∀ b model prompt,
                     reply_nonempty (generate_content b model prompt).1 = true) →
                  map s_url summaries = take (Z.to_nat doc_limit) (document_urls items)
                  ∧ length summaries = length docs).
  { intros Hne. destruct (Hexact Hne) as [Hu Hl]. cbn in Hu, Hl.
    split; [|exact Hl]. rewrite Hu. f_equal. unfold len. cbn. lia. }
  destruct (collected_texts spec_seq) as [|text texts] eqn:Htexts.
  - apply returns_bind, returns_ret.
    apply returns_bind, returns_emit.
    apply returns_bind. apply returns_generate; [apply Hgen|].
    intros resp b3 Hg. apply returns_ret. cbn [trace snd].
    exists docs, [], (lit "No specs found.").
    split; [rewrite Htr2, <- !app_assoc; reflexivity|].
    split; [exact Hdocs|]. split; [done | exact Hurls].
  - apply returns_bind.
    pose proof (Hgen (outside w2) model_name
                  (specs_prompt (combined_specs (text :: texts)
                     (collected_urls spec_seq)))) as Hok.
    destruct (generate_content (outside w2) model_name
                (specs_prompt (combined_specs (text :: texts)
                   (collected_urls spec_seq))))
      as [[sresp|e] b3] eqn:Hgs; [|discriminate].
    eexists _, _. split; [apply extract_specs_exact; exact Hgs|].
    apply returns_bind, returns_emit.
    apply returns_bind. apply returns_generate; [apply Hgen|].
    intros resp b4 Hg. apply returns_ret. cbn [trace snd].
    exists docs,
      [EvGenerate SpecExtraction
         (specs_prompt (combined_specs (text :: texts) (collected_urls spec_seq)))],
      (json_dumps (decoded sresp)).
    split; [rewrite Htr2, <- !app_assoc; reflexivity|].
    split; [exact Hdocs|]. split; [eauto 10 | exact Hurls].
Qed.

Hypothesis Hsearch : ∀ b query limit opts,
  usable_results (firecrawl_search b query limit opts).1 = true.

(** The whole trace of a run on usable search results. *)
Lemma search_and_summarize_trace querySearch querySpecs searchLimit specLimit
    scrape_options max_genai_calls car_type (w : world B) d0 :
  heap w !! DEFAULT_SCRAPE_OPTS = Some d0 →
  let doc_limit := Z.min searchLimit (Z.max 0 (max_genai_calls - 2)) in
  let merged := merged_options scrape_options d0 in
  returns (search_and_summarize querySearch querySpecs searchLimit specLimit
                                scrape_options max_genai_calls car_type) w
    (λ out w',
       ∃ items b1 spec_items b2 docs spec_events specsDoc,
         firecrawl_search (outside w) querySearch doc_limit merged
         = (Ok (PList items), b1)
         ∧ firecrawl_search b1 querySpecs specLimit merged
           = (Ok (PList spec_items), b2)
         ∧ trace w'
           = trace w
             ++ [ EvPrint (lit "Running"); EvSearch querySearch doc_limit merged;
                  EvSearch querySpecs specLimit merged; EvPrint (lit "FireCrawl done") ]
             ++ docs ++ spec_events
             ++ [ EvPrint (lit "Summaries done, writing report");
                  EvGenerate FinalSynthesis
                    (final_prompt (car_label car_type querySearch)
                                  (combined_summaries out.2) specsDoc) ]
         ∧ Forall is_doc_call docs
         ∧ match collected_texts (slice_to spec_items specLimit) with
           | [] => spec_events = [] ∧ specsDoc = lit "No specs found."
           | _ :: _ =>
               ∃ resp b b',
                 spec_events
                 = [ EvGenerate SpecExtraction
                       (specs_prompt
                          (combined_specs
                             (collected_texts (slice_to spec_items specLimit))
                             (collected_urls (slice_to spec_items specLimit)))) ]
                 ∧ generate_content b model_name
                     (specs_prompt
                        (combined_specs
                           (collected_texts (slice_to spec_items specLimit))
                           (collected_urls (slice_to spec_items specLimit))))
                   = (Ok resp, b')
                 ∧ specsDoc = json_dumps (decoded resp)
           end
         ∧ ((∀ b model prompt,
               reply_nonempty (generate_content b model prompt).1 = true) →
            map s_url out.2 = take (Z.to_nat doc_limit) (document_urls items)
            ∧ length out.2 = length docs)).
Proof.
  intros Hd0 doc_limit merged.
  pose proof (Hsearch (outside w) querySearch doc_limit merged) as Hitems.
  destruct (firecrawl_search (outside w) querySearch doc_limit merged)
    as [r1 b1] eqn:Hs1.
  cbn [fst] in Hitems. destruct r1 as [[| | | |items| |]|]; try discriminate.
  pose proof (Hsearch b1 querySpecs specLimit merged) as Hspecs.
  destruct (firecrawl_search b1 querySpecs specLimit merged) as [r2 b2] eqn:Hs2.
  cbn [fst] in Hspecs. destruct r2 as [[| | | |found| |]|]; try discriminate.
  cbn [usable_results] in Hitems, Hspecs.
  eapply returns_mono.
  { apply (search_and_summarize_run querySearch querySpecs searchLimit specLimit
             scrape_options max_genai_calls car_type w d0
             (PList items) b1 (PList found) b2 items (slice_to found specLimit)
             Hd0 Hs1 Hs2 eq_refl Hitems eq_refl (usable_slice_to found specLimit Hspecs)). }
  intros out w' (docs & spec_events & specsDoc & Htr & Hdocs & Hspec & Hurls).
  exists items, b1, found, b2, docs, spec_events, specsDoc. done.
Qed.

Lemma count_calls_docs site docs :
  Forall is_doc_call docs → site ≠ DocSummary → count_calls site docs = O.
Proof.
  intros Hdocs Hsite. induction Hdocs as [|ev docs Hev _ IH]; [done|].
  destruct ev as [| |[] ?]; try done. cbn [count_calls].
  destruct (decide (DocSummary = site)); [congruence | exact IH].
Qed.

(** X18: on usable search results and with non-empty replies, the
    summaries a run returns belong, in order, to the first
    [max(0, doc_limit)] review items that carry markdown: the i-th summary
    has the URL of the i-th such item. *)
Theorem summaries_follow_documents querySearch querySpecs searchLimit specLimit
    scrape_options max_genai_calls car_type (w : world B) d0 :
  (∀ b model prompt, reply_nonempty (generate_content b model prompt).1 = true) →
  heap w !! DEFAULT_SCRAPE_OPTS = Some d0 →
  let doc_limit := Z.min searchLimit (Z.max 0 (max_genai_calls - 2)) in
  ∃ final summaries w' items b1,
    search_and_summarize querySearch querySpecs searchLimit specLimit
                         scrape_options max_genai_calls car_type w
    = (Ok (final, summaries), w')
    ∧ firecrawl_search (outside w) querySearch doc_limit
                       (merged_options scrape_options d0)
      = (Ok (PList items), b1)
    ∧ map s_url summaries = take (Z.to_nat doc_limit) (document_urls items).
Proof.
  intros Hne Hd0 doc_limit.
  destruct (search_and_summarize_trace querySearch querySpecs searchLimit specLimit
              scrape_options max_genai_calls car_type w d0 Hd0)
    as ([final summaries] & w' & Hrun & items & b1 & spec_items & b2 & docs
        & spec_events & specsDoc & Hs1 & _ & _ & _ & _ & Hurls).
  exists final, summaries, w', items, b1. split; [exact Hrun|]. split; [exact Hs1|].
  by destruct (Hurls Hne).
Qed.

(** X19: on usable search results, a run asks for a spec extraction
    exactly when one of the first [spec_limit] spec items carries markdown,
    and then once, over the collected texts and URL labels, and the spec
    text of the final prompt is the JSON dump of what was decoded from the
    reply to that call; otherwise it makes no such call and writes
    [No specs found.] into the final prompt.  Either way its last event is
    the final-synthesis call, whose prompt is built from the car label, the
    returned summaries and that spec text. *)
Theorem spec_extraction_only_with_texts querySearch querySpecs searchLimit specLimit
    scrape_options max_genai_calls car_type (w : world B) d0 :
  heap w !! DEFAULT_SCRAPE_OPTS = Some d0 →
  ∃ final summaries w' spec_items specsDoc,
    search_and_summarize querySearch querySpecs searchLimit specLimit
                         scrape_options max_genai_calls car_type w
    = (Ok (final, summaries), w')
    ∧ EvSearch querySpecs specLimit (merged_options scrape_options d0) ∈ trace w'
    ∧ last (trace w')
      = Some (EvGenerate FinalSynthesis
                (final_prompt (car_label car_type querySearch)
                              (combined_summaries summaries) specsDoc))
    ∧ match collected_texts (slice_to spec_items specLimit) with
      | [] =>
          count_calls SpecExtraction (trace w') = count_calls SpecExtraction (trace w)
          ∧ specsDoc = lit "No specs found."
      | _ :: _ =>
          count_calls SpecExtraction (trace w')
          = S (count_calls SpecExtraction (trace w))
          ∧ EvGenerate SpecExtraction
              (specs_prompt
                 (combined_specs (collected_texts (slice_to spec_items specLimit))
                                 (collected_urls (slice_to spec_items specLimit))))
            ∈ trace w'
          ∧ ∃ resp b b',
              generate_content b model_name
                (specs_prompt
                   (combined_specs (collected_texts (slice_to spec_items specLimit))
                                   (collected_urls (slice_to spec_items specLimit))))
              = (Ok resp, b')
              ∧ specsDoc = json_dumps (decoded resp)
      end
    ∧ (∃ b1 b2, firecrawl_search b1 querySpecs specLimit
                                 (merged_options scrape_options d0)
                = (Ok (PList spec_items), b2)).
Proof.
  intros Hd0.
  destruct (search_and_summarize_trace querySearch querySpecs searchLimit specLimit
              scrape_options max_genai_calls car_type w d0 Hd0)
    as ([final summaries] & w' & Hrun & items & b1 & spec_items & b2 & docs
        & spec_events & specsDoc & Hs1 & Hs2 & Htr & Hdocs & Hspec & _).
  cbn [snd] in Htr.
  exists final, summaries, w', spec_items, specsDoc. split; [exact Hrun|].
  split.
  { rewrite Htr. apply elem_of_app. right. cbn [app]. do 2 right. left. }
  split.
  { rewrite Htr, !app_assoc. rewrite last_app. cbn. reflexivity. }
  split; [|eauto].
  assert (Hd : count_calls SpecExtraction docs = O)
    by (by apply count_calls_docs).
  destruct (collected_texts (slice_to spec_items specLimit)) as [|text texts].
  - destruct Hspec as [-> ->]. split; [|reflexivity].
    rewrite Htr, !count_calls_app, Hd. cbn. repeat case_decide; try done; lia.
  - destruct Hspec as (resp & b & b' & -> & Hg & ->). split.
    + rewrite Htr, !count_calls_app, Hd. cbn. repeat case_decide; try done; lia.
    + split; [|eauto].
      rewrite Htr. apply elem_of_app. right. cbn [app].
      do 4 right. apply elem_of_app. right. left.
Qed.

End Succeeding.

(** *** Failures *)

(** X20: a failing search ends the run with that very error, before any
    completion call: whether it is the review search that fails, or the spec
    search after it. *)
Theorem search_failure_propagates querySearch querySpecs searchLimit specLimit
    scrape_options max_genai_calls car_type (w : world B) d0 e :
  heap w !! DEFAULT_SCRAPE_OPTS = Some d0 →
  let doc_limit := Z.min searchLimit (Z.max 0 (max_genai_calls - 2)) in
  let merged := merged_options scrape_options d0 in
  let run := search_and_summarize querySearch querySpecs searchLimit specLimit
                                  scrape_options max_genai_calls car_type w in
  ((firecrawl_search (outside w) querySearch doc_limit merged).1 = Raise e
   ∨ ∃ results b1,
       firecrawl_search (outside w) querySearch doc_limit merged = (Ok results, b1)
       ∧ (firecrawl_search b1 querySpecs specLimit merged).1 = Raise e) →
  run.1 = Raise e ∧ sites (trace run.2) = sites (trace w).
Proof.
  intros Hd0 doc_limit merged run Hfail.
  assert (Hrun : ∃ w', run = (Raise e, w') ∧ sites (trace w') = sites (trace w)).
  { subst run. unfold search_and_summarize. fold doc_limit.
    unfold bind at 1. cbn [print emit].
    unfold bind at 1.
    rewrite (merged_scrape_options_exact scrape_options _ d0) by exact Hd0.
    cbn [heap outside trace]. fold merged.
    unfold bind at 1, search at 1. cbn [heap outside trace]. rewrite lookup_insert_eq.
    destruct Hfail as [Hs1|(results & b1 & Hs1 & Hs2)].
    - destruct (firecrawl_search (outside w) querySearch doc_limit merged) as [r b1].
      cbn [fst] in Hs1. subst r. eexists. split; [reflexivity|].
      cbn [trace]. by rewrite !sites_app, !app_nil_r.
    - rewrite Hs1. unfold bind at 1, search at 1. cbn [heap outside trace].
      rewrite lookup_insert_eq.
      destruct (firecrawl_search b1 querySpecs specLimit merged) as [r b2].
      cbn [fst] in Hs2. subst r. eexists. split; [reflexivity|].
      cbn [trace]. by rewrite !sites_app, !app_nil_r. }
  destruct Hrun as (w' & -> & Hsites). done.
Qed.

(** X21: a value for markdown that is truthy but not a string (the
    normaliser can return one) is not skipped and cannot be summarised: the
    loop raises [AttributeError] on it, before any completion call. *)
Theorem non_text_markdown_aborts doc_limit item items summaries url md (w : world B) :
  safe_get_url item = Ok url → safe_get_markdown item = Ok md →
  truthy md = true → (∀ s, md ≠ PStr s) →
  len summaries < doc_limit →
  review_loop doc_limit (item :: items) summaries w = (Raise AttributeError, w).
Proof.
  intros Hurl Hmd Htruthy Hnot Hroom. cbn [review_loop].
  destruct (Z.leb_spec doc_limit (len summaries)); [lia|].
  unfold bind, lift. rewrite Hurl, Hmd, Htruthy. cbn [negb].
  unfold summarize_document. rewrite Htruthy. cbn [negb]. unfold bind, lift.
  destruct md; try (cbn [compress_value]; rewrite ?Htruthy; reflexivity).
  by destruct (Hnot s).
Qed.

Section Failing.

(** Every completion call fails with [e]; searches return usable lists. *)
Variable e : exn.
Hypothesis Hfail : ∀ b model prompt, (generate_content b model prompt).1 = Raise e.
Hypothesis Hsearch : ∀ b query limit opts,
  usable_results (firecrawl_search b query limit opts).1 = true.

Lemma review_loop_failing doc_limit items :
  forallb usable_item items = true →
  ∀ summaries (w : world B),
    after (review_loop doc_limit items summaries) w (λ r w',
      (r = Ok summaries ∧ w' = w)
      ∨ (r = Raise e ∧ ∃ ev, trace w' = trace w ++ [ev] ∧ sites [ev] = [DocSummary])).
Proof.
  induction items as [|item items IH]; intros Hall summaries w.
  - left. done.
  - cbn [forallb] in Hall. apply andb_true_iff in Hall as [Hitem Hall].
    specialize (IH Hall). cbn [review_loop].
    destruct (doc_limit <=? len summaries); [by left|].
    destruct (usable_item_inv item Hitem) as (url & md & Hurl & Hmd & Hhas & Hstr).
    apply after_bind, after_lift. rewrite Hurl.
    apply after_bind, after_lift. rewrite Hmd.
    destruct (truthy md) eqn:Htruthy; cbn [negb]; [|apply IH].
    destruct (Hstr eq_refl) as [s ->].
    apply after_bind. unfold summarize_document. rewrite Htruthy. cbn [negb].
    apply after_bind, after_lift. cbn [compress_value].
    apply after_bind, after_generate. intros r b' Hg.
    pose proof (Hfail (outside w) model_name
                  (document_prompt (_compress_for_single_request s 20000) url)) as Hr.
    rewrite Hg in Hr. cbn [fst] in Hr. subst r.
    right. split; [done|]. cbn [trace]. eauto.
Qed.

(** X22: nothing is retried.  When the completion backend fails on every
    call, a run on usable search results ends with that error after exactly
    one attempted completion call. *)
Theorem completion_failure_not_retried querySearch querySpecs searchLimit specLimit
    scrape_options max_genai_calls car_type (w : world B) d0 :
  heap w !! DEFAULT_SCRAPE_OPTS = Some d0 →
  let run := search_and_summarize querySearch querySpecs searchLimit specLimit
                                  scrape_options max_genai_calls car_type w in
  run.1 = Raise e
  ∧ length (sites (trace run.2)) = S (length (sites (trace w))).
Proof.
  intros Hd0 run. subst run.
  set (doc_limit := Z.min searchLimit (Z.max 0 (max_genai_calls - 2))).
  change (after (search_and_summarize querySearch querySpecs searchLimit specLimit
                   scrape_options max_genai_calls car_type) w
            (λ r w', r = Raise e
                     ∧ length (sites (trace w')) = S (length (sites (trace w))))).
  unfold search_and_summarize. fold doc_limit.
  apply after_bind, after_emit. apply after_bind.
  unfold after at 1.
  rewrite (merged_scrape_options_exact scrape_options _ d0) by exact Hd0.
  cbn [fst snd heap outside trace].
  assert (Hlist : ∀ b query limit opts r b',
            firecrawl_search b query limit opts = (r, b') →
            ∃ items, r = Ok (PList items) ∧ forallb usable_item items = true).
  { intros b query limit opts r b' Hs. pose proof (Hsearch b query limit opts) as Hu.
    rewrite Hs in Hu. cbn [fst] in Hu.
    destruct r as [[| | | |items| |]|]; try discriminate. eauto. }
  apply after_bind.
  eapply after_search; [cbn [heap]; apply lookup_insert_eq|].
  intros r1 b1 Hs1. destruct (Hlist _ _ _ _ _ _ Hs1) as (items & -> & Hitems).
  apply after_bind.
  eapply after_search; [cbn [heap]; apply lookup_insert_eq|].
  intros r2 b2 Hs2. destruct (Hlist _ _ _ _ _ _ Hs2) as (spec_items & -> & Hspec_items).
  cbn [heap outside trace normalize_results].
  apply after_bind, after_emit. cbn [heap outside trace].
  apply after_bind, after_lift. cbn [iterate].
  apply after_bind. eapply after_mono; [apply review_loop_failing; exact Hitems|].
  intros r w5 [[-> ->]|(-> & ev & Htr & Hev)].
  2:{ split; [done|]. rewrite Htr. cbn [trace].
      rewrite !sites_app, Hev, !length_app. cbn. lia. }
  apply after_bind, after_lift. cbn [slice_value].
  apply after_bind, after_lift. cbn [iterate].
  apply after_bind. unfold after at 1.
  rewrite specs_loop_returns_exact by (apply usable_slice_to, Hspec_items).
  cbn [fst snd app].
  destruct (collected_texts (slice_to spec_items specLimit)) as [|text texts].
  - apply after_bind, after_ret.
    apply after_bind, after_emit. apply after_bind, after_generate.
    intros r b3 Hg. cbn [trace].
    match type of Hg with generate_content ?b ?m ?p = _ =>
      pose proof (Hfail b m p) as Hr end.
    rewrite Hg in Hr. cbn [fst] in Hr. subst r.
    split; [done|]. rewrite !sites_app, !length_app. cbn. lia.
  - apply after_bind. unfold extract_specs_from_docs.
    apply after_bind, after_generate. intros r b3 Hg. cbn [trace].
    match type of Hg with generate_content ?b ?m ?p = _ =>
      pose proof (Hfail b m p) as Hr end.
    rewrite Hg in Hr. cbn [fst] in Hr. subst r.
    split; [done|]. rewrite !sites_app, !length_app. cbn. lia.
Qed.

End Failing.

End RunsMore.

(** ** The call budget *)

Section CallBudget.

Context {B : Type} `{E : Externals B}.



End CallBudget.


Lemma merged_scrape_options_merge_witness :
  ∃ opts w',
    merged_scrape_options (B := unit) (Some {[ "timeout" := PInt 5 ]})
                          (initial_world tt)
    = (Ok opts, w')
    ∧ (heap w' !! opts) ≫= (.!! "timeout") = Some (PInt 5)
    ∧ (heap w' !! opts) ≫= (.!! "only_main_content") = Some (PBool true).
Proof.
  destruct (merged_scrape_options_merge (B := unit) (Some {[ "timeout" := PInt 5 ]})
              (initial_world tt) DEFAULT_SCRAPE_OPTS_value eq_refl)
    as (opts & w' & Hrun & _ & Hheap & _ & _ & Hkeys).
  exists opts, w'. split; [exact Hrun|]. rewrite Hheap, lookup_insert_eq. cbn [mbind option_bind].
  rewrite !Hkeys. split; reflexivity.
Defined.

Lemma completion_calls_in_order_witness :
  ∃ k tail,
    sites (trace (search_and_summarize (E := scripted three_reviews one_spec not_json)
                    review_query specs_query 5 3 None 10 None (initial_world tt)).2)
    = replicate k DocSummary ++ tail
    ∧ (tail = [FinalSynthesis] ∨ tail = [SpecExtraction; FinalSynthesis]).
Proof.
  destruct (completion_calls_in_order (E := scripted three_reviews one_spec not_json)
              review_query specs_query 5 3 None 10 None (initial_world tt))
    as (k & tail & Hsites & _ & Hok).
  exists k, tail. split; [exact Hsites|]. apply Hok. vm_compute. reflexivity.
Defined.

Lemma completion_calls_within_budget_witness :
  Z.of_nat (length (sites (trace
     (search_and_summarize (E := scripted three_reviews one_spec a_str)
        review_query specs_query 5 3 None 4 None (initial_world tt)).2)))
  ≤ 0 + Z.max 2 4.
Proof.
  apply (completion_calls_within_budget (E := scripted three_reviews one_spec a_str)
           review_query specs_query 5 3 None 4 None (initial_world tt)).
  intros b model prompt. reflexivity.
Defined.

Lemma returned_summaries_bounded_witness :
  ∃ final summaries w',
    search_and_summarize (E := scripted three_reviews one_spec a_str)
      review_query specs_query 2 3 None 10 None (initial_world tt)
    = (Ok (final, summaries), w')
    ∧ Z.of_nat (length summaries) ≤ Z.max 0 (Z.min 2 (Z.max 0 (10 - 2)))
    ∧ Forall (λ s, truthy (s_summary s) = true) summaries.
Proof.
  assert (Hrun : ∃ final summaries w',
             search_and_summarize (E := scripted three_reviews one_spec a_str)
               review_query specs_query 2 3 None 10 None (initial_world tt)
             = (Ok (final, summaries), w')).
  { eexists _, _, _. vm_compute. reflexivity. }
  destruct Hrun as (final & summaries & w' & Hrun).
  exists final, summaries, w'. split; [exact Hrun|].
  destruct (returned_summaries_bounded (E := scripted three_reviews one_spec a_str)
              review_query specs_query 2 3 None 10 None (initial_world tt) w'
              final summaries Hrun) as (Hlen & Hall & _).
  split; [exact Hlen | exact Hall].
Defined.

Lemma searches_use_merged_options_witness :
  ∃ made,
    searches (trace (search_and_summarize (E := scripted three_reviews one_spec a_str)
                       review_query specs_query 5 3 (Some {[ "timeout" := PInt 5 ]})
                       10 None (initial_world tt)).2)
    = made
    ∧ made = expected_searches review_query specs_query 5 3
               (Some {[ "timeout" := PInt 5 ]}) 10 (initial_world tt)
    ∧ length made = 2%nat.
Proof.
  destruct (searches_use_merged_options (E := scripted three_reviews one_spec a_str)
              review_query specs_query 5 3 (Some {[ "timeout" := PInt 5 ]})
              10 None (initial_world tt))
    as (made & Hmade & _ & Hall).
  exists made. split; [exact Hmade|].
  assert (Hok : is_ok (search_and_summarize (E := scripted three_reviews one_spec a_str)
                         review_query specs_query 5 3 (Some {[ "timeout" := PInt 5 ]})
                         10 None (initial_world tt)).1 = true)
    by (vm_compute; reflexivity).
  rewrite (Hall Hok). split; reflexivity.
Defined.

Lemma scripted_results_usable reviews specs reply :
  usable_results (Ok reviews) = true → usable_results (Ok specs) = true →
  ∀ b query limit opts,
    usable_results (firecrawl_search (Externals := scripted reviews specs reply)
                                     b query limit opts).1 = true.
Proof.
  intros Hr Hs b query limit opts. cbn [firecrawl_search scripted fst].
  by destruct (bool_decide (query = review_query)).
Qed.

Lemma spec_documents_paired_witness :
  ∃ texts urls,
    specs_loop (B := unit) spec_items_mixed [] [] (initial_world tt)
    = (Ok (texts, urls), initial_world tt)
    ∧ urls = [PStr (lit "https://s.example/1"); PStr (lit "unknown")]
    ∧ length texts = length urls.
Proof.
  assert (Hrun : ∃ texts urls,
             specs_loop (B := unit) spec_items_mixed [] [] (initial_world tt)
             = (Ok (texts, urls), initial_world tt)
             ∧ urls = [PStr (lit "https://s.example/1"); PStr (lit "unknown")]).
  { eexists _, _. split; vm_compute; reflexivity. }
  destruct Hrun as (texts & urls & Hrun & Hurls).
  exists texts, urls. split; [exact Hrun|]. split; [exact Hurls|].
  destruct (spec_documents_paired (B := unit) spec_items_mixed
              (initial_world tt) (initial_world tt) texts urls Hrun)
    as (_ & _ & _ & Hlen & _).
  exact Hlen.
Defined.

Lemma summaries_follow_documents_witness :
  ∃ final summaries w',
    search_and_summarize (E := scripted three_reviews one_spec a_str)
      review_query specs_query 2 3 None 10 None (initial_world tt)
    = (Ok (final, summaries), w')
    ∧ map s_url summaries
      = [PStr (lit "https://a.example/1"); PStr (lit "https://a.example/2")].
Proof.
  destruct (summaries_follow_documents (E := scripted three_reviews one_spec a_str)
              (λ b model prompt, eq_refl)
              (scripted_results_usable three_reviews one_spec a_str eq_refl eq_refl)
              review_query specs_query 2 3 None 10 None (initial_world tt)
              DEFAULT_SCRAPE_OPTS_value (λ b model prompt, eq_refl) eq_refl)
    as (final & summaries & w' & items & b1 & Hrun & Hs & Hurls).
  exists final, summaries, w'. split; [exact Hrun|].
  injection Hs as <- _. exact Hurls.
Defined.

Lemma spec_extraction_only_with_texts_witness :
  (∃ final summaries w',
     search_and_summarize (E := scripted three_reviews one_spec a_str)
       review_query specs_query 2 3 None 10 None (initial_world tt)
     = (Ok (final, summaries), w')
     ∧ count_calls SpecExtraction (trace w') = 1%nat
     ∧ last (trace w')
       = Some (EvGenerate FinalSynthesis
                 (final_prompt (E := scripted three_reviews one_spec a_str)
                    review_query
                    (combined_summaries (H := scripted three_reviews one_spec a_str)
                                        summaries)
                    (lit "<json>"))))
  ∧ (∃ final summaries w',
       search_and_summarize (E := scripted three_reviews (PList []) a_str)
         review_query specs_query 2 3 None 10 None (initial_world tt)
       = (Ok (final, summaries), w')
       ∧ count_calls SpecExtraction (trace w') = O
       ∧ last (trace w')
         = Some (EvGenerate FinalSynthesis
                   (final_prompt (E := scripted three_reviews (PList []) a_str)
                      review_query
                      (combined_summaries
                         (H := scripted three_reviews (PList []) a_str) summaries)
                      (lit "No specs found.")))).
Proof.
  split.
  - destruct (spec_extraction_only_with_texts
                (E := scripted three_reviews one_spec a_str)
                (λ b model prompt, eq_refl)
                (scripted_results_usable three_reviews one_spec a_str eq_refl eq_refl)
                review_query specs_query 2 3 None 10 None (initial_world tt)
                DEFAULT_SCRAPE_OPTS_value eq_refl)
      as (final & summaries & w' & spec_items & specsDoc & Hrun & _ & Hlast & Hspec
          & b1 & b2 & Hs).
    exists final, summaries, w'. split; [exact Hrun|].
    injection Hs as <- _.
    assert (Htexts : collected_texts
                       (slice_to [doc "https://s.example/1"
                                      "Engine 2.7 flat six, 245 hp."] 3)
                     = [PStr (lit "Engine 2.7 flat six, 245 hp.")])
      by (vm_compute; reflexivity).
    rewrite Htexts in Hspec. destruct Hspec as (Hcount & _ & resp & b & b' & _ & ->).
    split; [exact Hcount | exact Hlast].
  - destruct (spec_extraction_only_with_texts
                (E := scripted three_reviews (PList []) a_str)
                (λ b model prompt, eq_refl)
                (scripted_results_usable three_reviews (PList []) a_str eq_refl eq_refl)
                review_query specs_query 2 3 None 10 None (initial_world tt)
                DEFAULT_SCRAPE_OPTS_value eq_refl)
      as (final & summaries & w' & spec_items & specsDoc & Hrun & _ & Hlast & Hspec
          & b1 & b2 & Hs).
    exists final, summaries, w'. split; [exact Hrun|].
    injection Hs as <- _. destruct Hspec as [Hcount ->].
    split; [exact Hcount | exact Hlast].
Defined.

Lemma search_failure_propagates_witness :
  (search_and_summarize (E := failing_search)
     review_query specs_query 5 3 None 10 None (initial_world tt)).1
  = Raise backend_down.
Proof.
  apply (search_failure_propagates (E := failing_search)
           review_query specs_query 5 3 None 10 None (initial_world tt)
           DEFAULT_SCRAPE_OPTS_value backend_down eq_refl).
  left. reflexivity.
Defined.

Lemma non_text_markdown_aborts_witness :
  review_loop (E := scripted three_reviews one_spec a_str) 5
              [item_numeric_markdown] [] (initial_world tt)
  = (Raise AttributeError, initial_world tt).
Proof.
  apply (non_text_markdown_aborts (E := scripted three_reviews one_spec a_str)
           5 item_numeric_markdown [] [] PNone (PInt 5));
    [reflexivity | reflexivity | reflexivity | discriminate | reflexivity].
Defined.

Lemma completion_failure_not_retried_witness :
  (search_and_summarize (E := failing_completion three_reviews one_spec)
     review_query specs_query 5 3 None 10 None (initial_world tt)).1
  = Raise backend_down
  ∧ length (sites (trace
       (search_and_summarize (E := failing_completion three_reviews one_spec)
          review_query specs_query 5 3 None 10 None (initial_world tt)).2))
    = 1%nat.
Proof.
  assert (Hsearch : ∀ b query limit opts,
            usable_results
              (firecrawl_search (Externals := failing_completion three_reviews one_spec)
                                b query limit opts).1 = true).
  { intros b query limit opts. cbn [firecrawl_search failing_completion fst].
    by destruct (bool_decide (query = review_query)). }
  apply (completion_failure_not_retried (E := failing_completion three_reviews one_spec)
           backend_down (λ b model prompt, eq_refl) Hsearch
           review_query specs_query 5 3 None 10 None (initial_world tt)
           DEFAULT_SCRAPE_OPTS_value eq_refl).
Defined.

(** ** The legacy pipeline *)

Section LegacyRuns.

Context {B : Type} `{E : Externals B}.

Lemma ink_nil_blank (t : str) : ink t = [] → blank t = true.
Proof.
  unfold blank. induction t as [|c t IH]; [done|]. cbn [ink forallb].
  destruct (isspace c); [exact IH | discriminate].
Qed.

(** With the budget of 3000 the chunker always returns, and it returns no
    chunk exactly on whitespace. *)
Lemma chunks_of_text (s : str) :
  ∃ chunks, chunk_text (length s) s 3000 = Some chunks
            ∧ chunks_of (PStr s) = Ok chunks
            ∧ (chunks = [] ↔ blank s = true).
Proof.
  unfold chunks_of, chunk_text.
  destruct (nonempty (strip s)) eqn:Hne; cbn [negb].
  - destruct (chunk_loop_enough_fuel 3000 ltac:(lia) (length s) (strip s) [])
      as [chunks Hrun]; [apply length_strip|].
    exists chunks. rewrite Hrun. split; [done|]. split; [done|]. split.
    + intros ->. apply chunk_loop_ink in Hrun. cbn [concat ink app] in Hrun.
      apply ink_nil_blank. rewrite <- ink_strip. done.
    + intros Hb. apply strip_blank in Hb. rewrite Hb in Hne. discriminate.
  - exists []. split; [done|]. split; [done|]. split; [|done]. intros _.
    apply nonempty_false in Hne. apply ink_nil_blank.
    rewrite <- ink_strip, Hne. done.
Qed.

Lemma made_calls_refl (w : world B) : made_calls w w [].
Proof. split; [done|]. exists []. by rewrite app_nil_r. Qed.

Lemma made_calls_generate site prompt b' (w w' : world B) calls :
  made_calls (World b' (heap w) (trace w ++ [EvGenerate site prompt])) w' calls →
  made_calls w w' (site :: calls).
Proof.
  intros (Hheap & added & Htr & Hsites & Hsearches). cbn [heap trace] in *.
  split; [exact Hheap|]. exists (EvGenerate site prompt :: added).
  split; [by rewrite Htr, <- app_assoc|]. cbn [sites searches].
  by rewrite Hsites.
Qed.

Lemma made_calls_trans (w1 w2 w3 : world B) calls1 calls2 :
  made_calls w1 w2 calls1 → made_calls w2 w3 calls2 →
  made_calls w1 w3 (calls1 ++ calls2).
Proof.
  intros (Hh1 & a1 & Ht1 & Hs1 & Hq1) (Hh2 & a2 & Ht2 & Hs2 & Hq2).
  split; [congruence|]. exists (a1 ++ a2).
  split; [by rewrite Ht2, Ht1, <- app_assoc|].
  by rewrite sites_app, searches_app, Hs1, Hs2, Hq1, Hq2.
Qed.

Lemma reply_is_text_inv (r : result response) :
  reply_is_text r = true →
  ∃ resp s, r = Ok resp ∧ text_of resp = PStr s ∧ nonempty s = true.
Proof.
  destruct r as [resp|e]; [|discriminate]. cbn [reply_is_text].
  destruct (text_of resp) eqn:Ht; try discriminate. eauto.
Qed.

Lemma reply_is_none_inv (r : result response) :
  reply_is_none r = true → ∃ resp, r = Ok resp ∧ text_of resp = PNone.
Proof.
  destruct r as [resp|e]; [|discriminate]. cbn [reply_is_none].
  destruct (text_of resp) eqn:Ht; try discriminate. eauto.
Qed.

(** The chunk summaries: one completion call per chunk, in order. *)
Lemma summarize_chunks_run (P : pyval → Prop) :
  (∀ b model prompt, ∃ resp b',
      generate_content b model prompt = (Ok resp, b') ∧ P (text_of resp)) →
  ∀ chunks (w : world B), ∃ vals w',
    summarize_chunks chunks w = (Ok vals, w')
    ∧ made_calls w w' (replicate (length chunks) DocSummary)
    ∧ Forall P vals ∧ length vals = length chunks.
Proof.
  intros Hreply chunks. induction chunks as [|c chunks IH]; intros w.
  - exists [], w. split; [reflexivity|]. split; [apply made_calls_refl|].
    split; [constructor | reflexivity].
  - destruct (Hreply (outside w) model_name (chunk_prompt c)) as (resp & b' & Hg & HP).
    destruct (IH (World b' (heap w)
                    (trace w ++ [EvGenerate DocSummary (chunk_prompt c)])))
      as (vals & w' & Hrun & Hmade & Hall & Hlen).
    exists (text_of resp :: vals), w'. split.
    { cbn [summarize_chunks]. unfold summarize_chunk, bind, generate, ret.
      rewrite Hg. cbn beta iota. by rewrite Hrun. }
    split; [cbn [length replicate]; eapply made_calls_generate, Hmade|].
    split; [by constructor | cbn [length]; by rewrite Hlen].
Qed.

Lemma texts_of_texts vals :
  Forall (λ v, ∃ s, v = PStr s ∧ nonempty s = true) vals →
  ∃ parts, texts_of vals = Ok parts ∧ length parts = length vals.
Proof.
  induction 1 as [|v vals (s & -> & _) _ (parts & IH & Hlen)]; [by exists []|].
  exists (s :: parts). cbn [texts_of length]. rewrite IH. by rewrite Hlen.
Qed.

(** Replies that are non-empty texts. *)
Lemma text_replies :
  (∀ b model prompt, reply_is_text (generate_content b model prompt).1 = true) →
  ∀ b model prompt, ∃ resp b',
    generate_content b model prompt = (Ok resp, b')
    ∧ ∃ s, text_of resp = PStr s ∧ nonempty s = true.
Proof.
  intros Htext b model prompt. specialize (Htext b model prompt).
  destruct (generate_content b model prompt) as [r b']. cbn [fst] in Htext.
  apply reply_is_text_inv in Htext as (resp & s & -> & Ht & Hne). eauto 10.
Qed.

(** Replies without a text. *)
Lemma none_replies :
  (∀ b model prompt, reply_is_none (generate_content b model prompt).1 = true) →
  ∀ b model prompt, ∃ resp b',
    generate_content b model prompt = (Ok resp, b') ∧ text_of resp = PNone.
Proof.
  intros Hnone b model prompt. specialize (Hnone b model prompt).
  destruct (generate_content b model prompt) as [r b']. cbn [fst] in Hnone.
  apply reply_is_none_inv in Hnone as (resp & -> & Ht). eauto.
Qed.

(** One document, with replies that are texts. *)
Lemma legacy_document_text s url (w : world B) :
  (∀ b model prompt, reply_is_text (generate_content b model prompt).1 = true) →
  ∃ chunks v w',
    chunk_text (length s) s 3000 = Some chunks
    ∧ legacy_summarize_document (PStr s) url w = (Ok v, w')
    ∧ match chunks with
      | [] => v = PNone ∧ w' = w
      | _ :: _ =>
          truthy v = true
          ∧ made_calls w w' (replicate (S (length chunks)) DocSummary)
      end.
Proof.
  intros Htext. pose proof (text_replies Htext) as Hreply.
  destruct (chunks_of_text s) as (chunks & Hchunks & Hof & _).
  exists chunks. unfold legacy_summarize_document, bind, lift. rewrite Hof.
  destruct chunks as [|c chunks].
  - exists PNone, w. done.
  - destruct (summarize_chunks_run (λ v, ∃ s, v = PStr s ∧ nonempty s = true)
                Hreply (c :: chunks) w)
      as (vals & w1 & Hrun & Hmade & Hall & Hlen).
    destruct (texts_of_texts vals Hall) as (parts & Hparts & _).
    destruct (Hreply (outside w1) model_name (synth_prompt url (join (nl ++ nl) parts)))
      as (resp & b' & Hg & s1 & Ht & Hne).
    exists (text_of resp),
      (World b' (heap w1)
         (trace w1 ++ [EvGenerate DocSummary
                         (synth_prompt url (join (nl ++ nl) parts))])).
    split; [exact Hchunks|]. split.
    { rewrite Hrun. unfold join_values. rewrite Hparts.
      unfold generate, ret. by rewrite Hg. }
    split; [rewrite Ht; exact Hne|].
    rewrite replicate_S_end. eapply made_calls_trans; [exact Hmade|].
    eapply made_calls_generate, made_calls_refl.
Qed.

(** X23: what the legacy [summarize_document] costs.  When every
    completion call answers with a non-empty text, a document is split into
    chunks and summarised with one call per chunk and one more call to
    combine them, and the summary is truthy; a document of whitespace only
    costs no call and gives [None]. *)
Theorem legacy_document_costs_chunks_plus_one s url (w : world B) :
  (∀ b model prompt, reply_is_text (generate_content b model prompt).1 = true) →
  ∃ chunks v w',
    chunk_text (length s) s 3000 = Some chunks
    ∧ (chunks = [] ↔ blank s = true)
    ∧ legacy_summarize_document (PStr s) url w = (Ok v, w')
    ∧ match chunks with
      | [] => v = PNone ∧ w' = w
      | _ :: _ =>
          truthy v = true
          ∧ made_calls w w' (replicate (S (length chunks)) DocSummary)
      end.
Proof.
  intros Htext.
  destruct (legacy_document_text s url w Htext) as (chunks & v & w' & Hchunks & Hrun & Hcost).
  destruct (chunks_of_text s) as (chunks' & Hchunks' & _ & Hblank).
  assert (chunks' = chunks) as -> by congruence.
  exists chunks, v, w'. done.
Qed.

(** X24: a reply without text breaks the legacy summariser.  When the
    completion calls return a response whose [text] is [None], the legacy
    [summarize_document] makes its chunk calls and then raises [TypeError]
    on joining them, before the combining call; the current
    [summarize_document] returns [None] on the same document. *)
Theorem legacy_none_reply_breaks_join s url (w : world B) :
  (∀ b model prompt, reply_is_none (generate_content b model prompt).1 = true) →
  blank s = false →
  ∃ chunks w',
    chunk_text (length s) s 3000 = Some chunks
    ∧ legacy_summarize_document (PStr s) url w = (Raise TypeError, w')
    ∧ made_calls w w' (replicate (length chunks) DocSummary)
    ∧ (0 < length chunks)%nat
    ∧ (summarize_document (PStr s) url w).1 = Ok PNone.
Proof.
  intros Hnone Hblank. pose proof (none_replies Hnone) as Hreply.
  destruct (chunks_of_text s) as (chunks & Hchunks & Hof & Hiff).
  destruct chunks as [|c chunks].
  { destruct Hiff as [Hiff _]. rewrite Hiff in Hblank by done. discriminate. }
  destruct (summarize_chunks_run (λ v, v = PNone) Hreply (c :: chunks) w)
    as (vals & w1 & Hrun & Hmade & Hall & Hlen).
  exists (c :: chunks), w1. split; [exact Hchunks|]. split.
  { unfold legacy_summarize_document, bind, lift. rewrite Hof, Hrun.
    destruct vals as [|v vals]; [discriminate|].
    apply Forall_cons in Hall as [-> _]. reflexivity. }
  split; [exact Hmade|]. split; [cbn [length]; lia|].
  assert (Hne : nonempty s = true).
  { destruct s; [discriminate | reflexivity]. }
  destruct (Hreply (outside w) model_name
              (document_prompt (_compress_for_single_request s 20000) url))
    as (resp & b' & Hg & Ht).
  rewrite (summarize_document_exact s url w resp b' Hne Hg). cbn [fst].
  by rewrite Ht.
Qed.

Lemma legacy_usable_item_inv item :
  legacy_usable_item item = true →
  ∃ url md, legacy_url item = Ok url ∧ Legacy.safe_get_markdown item = Ok md
            ∧ (truthy md = true → ∃ s, md = PStr s).
Proof.
  unfold legacy_usable_item. intros [Hurl Hmd]%andb_true_iff.
  destruct (legacy_url item) as [url|]; [|discriminate].
  destruct (Legacy.safe_get_markdown item) as [md|]; [|discriminate].
  exists url, md. repeat split; try done.
  intros Ht. destruct md; try (rewrite Ht in Hmd; discriminate). eauto.
Qed.

(** An item without markdown is passed over. *)
Lemma legacy_loop_skip item items summaries url md (w : world B) :
  legacy_url item = Ok url → Legacy.safe_get_markdown item = Ok md →
  truthy md = false →
  legacy_loop (item :: items) summaries w = legacy_loop items summaries w
  ∧ legacy_cost item = O.
Proof.
  intros Hurl Hmd Hfalsy. split.
  - cbn [legacy_loop]. unfold bind, lift. by rewrite Hurl, Hmd, Hfalsy.
  - unfold legacy_cost. rewrite Hmd. destruct md as [| | |s| | |]; try done.
    cbn [truthy] in Hfalsy. apply nonempty_false in Hfalsy. by subst s.
Qed.

(** The legacy loop on usable items, with replies that are texts. *)
Lemma legacy_loop_run items :
  (∀ b model prompt, reply_is_text (generate_content b model prompt).1 = true) →
  forallb legacy_usable_item items = true →
  ∀ summaries (w : world B), ∃ out w',
    legacy_loop items summaries w = (Ok out, w')
    ∧ made_calls w w' (replicate (legacy_calls items) DocSummary)
    ∧ length out = (length summaries + legacy_summarised items)%nat.
Proof.
  intros Htext. induction items as [|item items IH]; intros Hall summaries w.
  { exists summaries, w. split; [reflexivity|]. split; [apply made_calls_refl|].
    cbn [legacy_summarised]. lia. }
  cbn [forallb] in Hall. apply andb_true_iff in Hall as [Hitem Hall].
  specialize (IH Hall).
  destruct (legacy_usable_item_inv item Hitem) as (url & md & Hurl & Hmd & Hstr).
  cbn [legacy_calls legacy_summarised].
  destruct (truthy md) eqn:Htruthy.
  2:{ destruct (legacy_loop_skip item items summaries url md w Hurl Hmd Htruthy)
        as [-> ->]. apply IH. }
  destruct (Hstr eq_refl) as [s ->].
  destruct (legacy_document_text s url w Htext) as (chunks & v & w1 & Hchunks & Hrun & Hcost).
  assert (Hstep : legacy_loop (item :: items) summaries w
                  = (if truthy v
                     then legacy_loop items (summaries ++ [Summary url v])
                     else legacy_loop items summaries) w1).
  { cbn [legacy_loop]. unfold bind, lift. rewrite Hurl, Hmd, Htruthy. cbn [negb].
    by rewrite Hrun. }
  rewrite Hstep. unfold legacy_cost. rewrite Hmd, Hchunks.
  destruct chunks as [|c chunks].
  - destruct Hcost as [-> ->]. apply IH.
  - destruct Hcost as [Hv Hmade]. rewrite Hv.
    destruct (IH (summaries ++ [Summary url v]) w1) as (out & w' & Hloop & Hmade' & Hlen).
    exists out, w'. split; [exact Hloop|]. split.
    + rewrite replicate_add. eapply made_calls_trans; [exact Hmade | exact Hmade'].
    + rewrite Hlen, length_app. cbn [length]. lia.
Qed.

(** The first two statements of the legacy [search_and_summarize]. *)
Lemma legacy_options_exact {A} scrape_options (k : loc → M B A) (w : world B) d0 :
  heap w !! DEFAULT_SCRAPE_OPTS = Some d0 →
  (let! opts := dict_copy DEFAULT_SCRAPE_OPTS in
   let! _ :=
     match scrape_options with
     | Some overrides =>
         if truthy (PDict overrides) then dict_update opts overrides else ret ()
     | None => ret ()
     end in
   k opts) w
  = k (fresh (dom (heap w)))
      (World (outside w)
             (<[fresh (dom (heap w)) := merged_options scrape_options d0]> (heap w))
             (trace w)).
Proof.
  intros Hd0. unfold bind, dict_copy, merged_options. rewrite Hd0.
  destruct scrape_options as [overrides|]; [|reflexivity].
  destruct (truthy (PDict overrides)); [|reflexivity].
  unfold dict_update. cbn [heap outside trace].
  by rewrite lookup_insert_eq, insert_insert_eq.
Qed.

(** X25: the legacy loop takes dictionaries only.  On an item that is
    not a dictionary (a [None] entry or an SDK object, which the markdown
    lookup would accept), and on a dictionary without a truthy [url] or
    [sourceURL] whose [metadata] entry is not a dictionary, it raises
    [AttributeError] before asking for any summary. *)
Theorem legacy_loop_needs_dict_items item items summaries (w : world B) :
  (isinstance_dict item = false
   ∨ ∃ d v, item = PDict d
            ∧ truthy (spec_field d "url") = false
            ∧ truthy (spec_field d "sourceURL") = false
            ∧ d !! "metadata" = Some v ∧ isinstance_dict v = false) →
  legacy_loop (item :: items) summaries w = (Raise AttributeError, w).
Proof.
  intros Hitem.
  assert (Hurl : legacy_url item = Raise AttributeError).
  { destruct Hitem as [Hnot|(d & v & -> & Hu & Hs & Hm & Hv)].
    - destruct item; try done.
    - unfold legacy_url, get_, por, spec_field in *.
      destruct (d !! "url") as [u|]; rewrite Hu;
        destruct (d !! "sourceURL") as [su|]; rewrite Hs;
        rewrite Hm; by destruct v. }
  cbn [legacy_loop]. unfold bind, lift. by rewrite Hurl.
Qed.

(** X26: the legacy run has no cap on completion calls.  On a list of
    usable items and with replies that are non-empty texts, it returns
    after one search with the merged options, one call per chunk and one
    per document of every item that carries text, and one final call:
    whatever [limit] was asked for, every returned item is summarised. *)
Theorem legacy_run_is_uncapped query limit scrape_options (w : world B) d0 items b1 :
  (∀ b model prompt, reply_is_text (generate_content b model prompt).1 = true) →
  heap w !! DEFAULT_SCRAPE_OPTS = Some d0 →
  firecrawl_search (outside w) query limit (merged_options scrape_options d0)
  = (Ok (PList items), b1) →
  forallb legacy_usable_item items = true →
  ∃ final summaries w',
    legacy_search_and_summarize query limit scrape_options w
    = (Ok (final, summaries), w')
    ∧ sites (trace w')
      = sites (trace w) ++ replicate (legacy_calls items) DocSummary ++ [FinalSynthesis]
    ∧ searches (trace w')
      = searches (trace w) ++ [(query, limit, merged_options scrape_options d0)]
    ∧ length summaries = legacy_summarised items.
Proof.
  intros Htext Hd0 Hsearch Hitems.
  unfold legacy_search_and_summarize. rewrite (legacy_options_exact scrape_options _ w d0 Hd0).
  set (merged := merged_options scrape_options d0) in *.
  set (h := <[fresh (dom (heap w)) := merged]> (heap w)).
  unfold bind at 1, search at 1. cbn [heap outside trace]. subst h.
  rewrite lookup_insert_eq, Hsearch.
  unfold bind at 1, ret at 1. unfold bind at 1, lift at 1. cbn [iterate].
  destruct (legacy_loop_run items Htext Hitems []
              (World b1 (<[fresh (dom (heap w)) := merged]> (heap w))
                 (trace w ++ [EvSearch query limit merged])))
    as (summaries & w2 & Hloop & (Hheap & added & Htr & Hsites & Hsearches) & Hlen).
  unfold bind at 1. rewrite Hloop.
  destruct (text_replies Htext (outside w2) model_name
              (legacy_final_prompt (combined_summaries summaries)))
    as (resp & b3 & Hg & _).
  unfold bind, generate, ret. rewrite Hg.
  eexists _, _, _. split; [reflexivity|]. cbn [trace] in *.
  rewrite Htr, <- !app_assoc, !sites_app, !searches_app, Hsites, Hsearches.
  cbn [sites searches app]. rewrite ?app_nil_r. done.
Qed.

(** X27: the legacy run, too, leaves [DEFAULT_SCRAPE_OPTS] as it was,
    with or without caller options and whatever its outcome. *)
Theorem legacy_default_scrape_opts_unchanged query limit scrape_options (w : world B) :
  heap (legacy_search_and_summarize query limit scrape_options w).2
    !! DEFAULT_SCRAPE_OPTS
  = heap w !! DEFAULT_SCRAPE_OPTS.
Proof.
  assert (Hdoc : ∀ md url, keeps_default (legacy_summarize_document md url)).
  { intros md url. unfold legacy_summarize_document.
    apply keeps_default_bind; [apply keeps_default_lift|]. intros chunks.
    destruct chunks as [|c chunks]; [apply keeps_default_ret|].
    apply keeps_default_bind.
    { generalize (c :: chunks). intros l. induction l as [|c' l IH];
        cbn [summarize_chunks]; [apply keeps_default_ret|].
      apply keeps_default_bind.
      { unfold summarize_chunk.
        apply keeps_default_bind; [apply keeps_default_generate|]. intros resp.
        apply keeps_default_ret. }
      intros v. apply keeps_default_bind; [exact IH|]. intros vs.
      apply keeps_default_ret. }
    intros vals. apply keeps_default_bind; [apply keeps_default_lift|]. intros combined.
    apply keeps_default_bind; [apply keeps_default_generate|]. intros resp.
    apply keeps_default_ret. }
  assert (Hloop : ∀ items summaries, keeps_default (legacy_loop items summaries)).
  { induction items as [|item items IH]; intros summaries; cbn [legacy_loop].
    - apply keeps_default_ret.
    - apply keeps_default_bind; [apply keeps_default_lift|]. intros url.
      apply keeps_default_bind; [apply keeps_default_lift|]. intros md.
      destruct (negb (truthy md)); [apply IH|].
      apply keeps_default_bind; [apply Hdoc|].
      intros doc_summary. destruct (truthy doc_summary); apply IH. }
  destruct (heap w !! DEFAULT_SCRAPE_OPTS) as [d0|] eqn:Hd0.
  2:{ unfold legacy_search_and_summarize, bind, dict_copy. by rewrite Hd0. }
  assert (Hfresh : fresh (dom (heap w)) ≠ DEFAULT_SCRAPE_OPTS).
  { intros Heq. apply (is_fresh (dom (heap w))). rewrite Heq.
    apply elem_of_dom. eauto. }
  unfold legacy_search_and_summarize. rewrite (legacy_options_exact scrape_options _ w d0 Hd0).
  match goal with |- heap (?m ?w1).2 !! _ = _ =>
    assert (Hrest : keeps_default m); [|rewrite (Hrest w1)] end.
  { apply keeps_default_bind; [apply keeps_default_search|]. intros results.
    apply keeps_default_bind.
    { destruct results; try apply keeps_default_lift. all: apply keeps_default_ret. }
    intros found.
    apply keeps_default_bind; [apply keeps_default_lift|]. intros items_seq.
    apply keeps_default_bind; [apply Hloop|]. intros summaries.
    apply keeps_default_bind; [apply keeps_default_generate|]. intros resp.
    apply keeps_default_ret. }
  cbn [heap]. by rewrite lookup_insert_ne.
Qed.

(** X29: the legacy run reads list and dictionary results only.  When
    the search returns anything else ([None], or an SDK object, which the
    current [normalize_results] accepts), the run raises [AttributeError]
    right after the search, without any completion call. *)
Theorem legacy_results_need_list_or_dict query limit scrape_options (w : world B)
    d0 results b1 :
  heap w !! DEFAULT_SCRAPE_OPTS = Some d0 →
  firecrawl_search (outside w) query limit (merged_options scrape_options d0)
  = (Ok results, b1) →
  match results with PList _ | PDict _ => False | _ => True end →
  let run := legacy_search_and_summarize query limit scrape_options w in
  run.1 = Raise AttributeError
  ∧ sites (trace run.2) = sites (trace w)
  ∧ searches (trace run.2)
    = searches (trace w) ++ [(query, limit, merged_options scrape_options d0)].
Proof.
  intros Hd0 Hsearch Hshape run.
  assert (Hrun : run = (Raise AttributeError,
                        World b1 (<[fresh (dom (heap w))
                                    := merged_options scrape_options d0]> (heap w))
                              (trace w ++ [EvSearch query limit
                                             (merged_options scrape_options d0)]))).
  { subst run. unfold legacy_search_and_summarize.
    rewrite (legacy_options_exact scrape_options _ w d0 Hd0).
    unfold bind at 1, search at 1. cbn [heap outside trace].
    rewrite lookup_insert_eq, Hsearch.
    destruct results; try done. }
  rewrite Hrun. cbn [fst snd trace]. split; [reflexivity|].
  rewrite sites_app, searches_app. cbn [sites searches]. by rewrite app_nil_r.
Qed.

End LegacyRuns.

Lemma legacy_document_costs_chunks_plus_one_witness :
  ∃ chunks v w',
    chunk_text (length (lit "Solid chassis.")) (lit "Solid chassis.") 3000 = Some chunks
    ∧ (chunks = [] ↔ blank (lit "Solid chassis.") = true)
    ∧ legacy_summarize_document (E := scripted three_reviews one_spec a_str)
        (PStr (lit "Solid chassis.")) PNone (initial_world tt)
      = (Ok v, w')
    ∧ match chunks with
      | [] => v = PNone ∧ w' = initial_world tt
      | _ :: _ =>
          truthy v = true
          ∧ made_calls (initial_world tt) w' (replicate (S (length chunks)) DocSummary)
      end.
Proof.
  apply (legacy_document_costs_chunks_plus_one
           (E := scripted three_reviews one_spec a_str)
           (lit "Solid chassis.") PNone (initial_world tt)).
  intros b model prompt. reflexivity.
Defined.

Lemma legacy_none_reply_breaks_join_witness :
  ∃ chunks w',
    chunk_text (length (lit "Solid chassis.")) (lit "Solid chassis.") 3000 = Some chunks
    ∧ legacy_summarize_document (E := silent_completion three_reviews one_spec)
        (PStr (lit "Solid chassis.")) PNone (initial_world tt)
      = (Raise TypeError, w')
    ∧ made_calls (initial_world tt) w' (replicate (length chunks) DocSummary)
    ∧ (0 < length chunks)%nat
    ∧ (summarize_document (E := silent_completion three_reviews one_spec)
         (PStr (lit "Solid chassis.")) PNone (initial_world tt)).1 = Ok PNone.
Proof.
  apply (legacy_none_reply_breaks_join
           (E := silent_completion three_reviews one_spec)
           (lit "Solid chassis.") PNone (initial_world tt)).
  - intros b model prompt. reflexivity.
  - reflexivity.
Defined.

Lemma legacy_loop_needs_dict_items_witness :
  legacy_loop (E := scripted three_reviews one_spec a_str)
              [PNone] [] (initial_world tt)
  = (Raise AttributeError, initial_world tt)
  ∧ legacy_loop (E := scripted three_reviews one_spec a_str)
                [item_metadata_null] [] (initial_world tt)
    = (Raise AttributeError, initial_world tt).
Proof.
  split.
  - apply (legacy_loop_needs_dict_items (E := scripted three_reviews one_spec a_str)).
    left. reflexivity.
  - apply (legacy_loop_needs_dict_items (E := scripted three_reviews one_spec a_str)).
    right. eexists _, PNone. split; [reflexivity|]. repeat split; reflexivity.
Defined.

Lemma legacy_run_is_uncapped_witness :
  ∃ final summaries w',
    legacy_search_and_summarize (E := scripted three_reviews one_spec a_str)
      review_query 1 None (initial_world tt)
    = (Ok (final, summaries), w')
    ∧ sites (trace w') = replicate 6 DocSummary ++ [FinalSynthesis]
    ∧ length summaries = 3%nat.
Proof.
  destruct (legacy_run_is_uncapped (E := scripted three_reviews one_spec a_str)
              review_query 1 None (initial_world tt) DEFAULT_SCRAPE_OPTS_value
              [ doc "https://a.example/1" "Solid chassis, IMS bearing worries.";
                doc "https://a.example/2" "Great steering; rear main seal leaks.";
                doc "https://a.example/3" "Reliable if serviced; coolant pipes." ] tt
              (λ b model prompt, eq_refl) eq_refl eq_refl eq_refl)
    as (final & summaries & w' & Hrun & Hsites & _ & Hlen).
  exists final, summaries, w'. split; [exact Hrun|]. split; [exact Hsites | exact Hlen].
Defined.

(** ** The import diagnostic *)

Section Snippet.

Lemma getitem_in_range {A} (l : list A) i :
  0 ≤ i < len l → ∃ x, getitem l i = Some x ∧ l !! Z.to_nat i = Some x.
Proof.
  intros Hi. unfold getitem.
  destruct (Z.leb_spec 0 i); [|lia]. destruct (Z.ltb_spec i (len l)); [|lia].
  cbn [andb]. destruct (lookup_lt_is_Some_2 l (Z.to_nat i)) as [x Hx].
  { unfold len in *. lia. }
  eauto.
Qed.

(** X28: the snippet window never leaves the file.  For every file,
    line number and context width, [show_file_snippet] indexes only lines
    that exist (no [IndexError], no wrap-around to the end of the file),
    prints at most [2*ctx + 1] rows, each with its own line number and
    text, and marks a row exactly when it is the requested line; with a
    context of at least 0 a requested line that exists is among the rows. *)
Theorem show_file_snippet_window lines lineno ctx :
  ∃ rows,
    show_file_snippet lines lineno ctx
    = Some (Z.max 0 (lineno - ctx - 1) + 1, Z.min (len lines) (lineno + ctx), rows)
    ∧ len rows ≤ Z.max 0 (2 * ctx + 1)
    ∧ Forall (λ r, 1 ≤ number r ≤ len lines
                   ∧ (marked r = true ↔ number r = lineno)
                   ∧ ∃ line, lines !! Z.to_nat (number r - 1) = Some line
                             ∧ content r = rstrip line) rows
    ∧ (0 ≤ ctx → 1 ≤ lineno ≤ len lines → ∃ r, r ∈ rows ∧ number r = lineno).
Proof.
  unfold show_file_snippet.
  match goal with |- context [mapM ?g _] => set (f := g) end.
  assert (Hrange : ∀ i, i ∈ py_range (Z.max 0 (lineno - ctx - 1))
                                     (Z.min (len lines) (lineno + ctx)) →
                        0 ≤ i < len lines).
  { intros i Hi. apply elem_of_seqZ in Hi. lia. }
  assert (Hsome : is_Some (mapM f (py_range (Z.max 0 (lineno - ctx - 1))
                                            (Z.min (len lines) (lineno + ctx))))).
  { apply mapM_is_Some, Forall_forall. intros i Hi.
    destruct (getitem_in_range lines i (Hrange i Hi)) as (x & Hx & _).
    unfold f, compose. rewrite Hx. eauto. }
  destruct Hsome as [rows Hrows]. rewrite Hrows. exists rows. split; [reflexivity|].
  pose proof (length_mapM _ _ _ Hrows) as Hlen. apply mapM_Some in Hrows.
  split.
  { unfold len at 1. rewrite <- Hlen. unfold py_range. rewrite length_seqZ. lia. }
  split.
  - apply Forall_lookup. intros j r Hj.
    destruct (Forall2_lookup_r _ _ _ _ _ Hrows Hj) as (i & Hi & Hf).
    apply list_elem_of_lookup_2 in Hi. specialize (Hrange i Hi).
    destruct (getitem_in_range lines i Hrange) as (x & Hx & Hlook).
    unfold f in Hf. rewrite Hx in Hf. injection Hf as <-.
    cbn [number marked content]. split; [lia|]. split.
    { rewrite Z.eqb_eq. lia. }
    exists x. split; [|reflexivity]. replace (i + 1 - 1) with i by lia. exact Hlook.
  - intros Hctx Hline.
    assert (Hin : lineno - 1 ∈ py_range (Z.max 0 (lineno - ctx - 1))
                                         (Z.min (len lines) (lineno + ctx))).
    { apply elem_of_seqZ. lia. }
    apply list_elem_of_lookup_1 in Hin as [j Hj].
    destruct (Forall2_lookup_l _ _ _ _ _ Hrows Hj) as (r & Hr & Hf).
    exists r. split; [eapply list_elem_of_lookup_2, Hr|].
    unfold f in Hf. destruct (getitem lines (lineno - 1)); [|discriminate].
    injection Hf as <-. cbn [number]. lia.
Qed.

Lemma show_file_snippet_window_witness :
  ∃ rows,
    show_file_snippet five_lines 4 1 = Some (3, 5, rows)
    ∧ len rows ≤ 3
    ∧ ∃ r, r ∈ rows ∧ number r = 4.
Proof.
  destruct (show_file_snippet_window five_lines 4 1)
    as (rows & Hrun & Hlen & _ & Hline).
  exists rows. split; [exact Hrun|]. split; [exact Hlen|].
  apply Hline; [lia | unfold len; cbn; lia].
Defined.

End Snippet.

Lemma legacy_results_need_list_or_dict_witness :
  (legacy_search_and_summarize (E := scripted PNone one_spec a_str)
     review_query 3 None (initial_world tt)).1
  = Raise AttributeError.
Proof.
  apply (legacy_results_need_list_or_dict (E := scripted PNone one_spec a_str)
           review_query 3 None (initial_world tt) DEFAULT_SCRAPE_OPTS_value PNone tt
           eq_refl eq_refl I).
Defined.
